(** * nGraph MLIR compiler: a shallow embedding and its properties

    The development follows two source files of the repository:
    - [src/ngraph/type.hpp]: the reflection-free type descriptors
      ([DiscreteTypeInfo], [is_type], [as_type], [as_type_ptr]);
    - the MLIR compiler of the CPU backend ([MLIRCompiler]): boundary
      analysis of a sub-graph, the element-type mapper, the tensor-to-value
      map, op dispatch, argument binding, execution and cleanup.

    Pointers are addresses ([positive]); C++ exceptions are the [Fatal] and
    [Unsupported] outcomes of a result type that carries the compiler state
    at the throw point; [Abort] is the outcome of a call that neither
    returns nor throws. *)

From stdpp Require Import gmap strings list fin_maps.

(** An address: the identity of a C++ object. *)
Abbreviation addr := positive (only parsing).

(* ===================================================================== *)
(** ** src/ngraph/type.hpp *)
(* ===================================================================== *)

Module TypeInfo.

(** [struct DiscreteTypeInfo { const char* name; uint64_t version; }] *)
Record DiscreteTypeInfo := {
  name : string;
  version : Z
}.

(** Static storage: the address at which each descriptor object lives.
    A [const DiscreteTypeInfo&] is the address of one of them. *)
Abbreviation statics := (gmap addr DiscreteTypeInfo) (only parsing).

(** [bool is_castable(const DiscreteTypeInfo& target_type) const
      { return this == &target_type; }] *)
Definition is_castable (this target_type : addr) : bool :=
  bool_decide (this = target_type).

(** A non-null pointer to an object of a participating class: where the
    object lives and what its virtual [get_type_info()] returns. *)
Record Value := {
  pointee : addr;
  get_type_info : addr
}.

(** [static_cast<Type*>(value)]: the same object under another static
    type. *)
Definition static_cast (value : Value) : Value := value.

(** [std::static_pointer_cast<Type>(value)] *)
Definition static_pointer_cast (value : Value) : Value := value.

(** The template parameter [Type] enters only through the address of its
    static member [Type::type_info]. *)
Section Target.
Variable Type_type_info : addr.

(** [is_type<Type>(value)] *)
Definition is_type (value : Value) : bool :=
  is_castable (get_type_info value) Type_type_info.

(** [as_type<Type>(value)]; [None] is [nullptr]. *)
Definition as_type (value : Value) : option Value :=
  if is_type value then Some (static_cast value) else None.

(** [as_type_ptr<Type>(value)]; [None] is the empty [shared_ptr]. *)
Definition as_type_ptr (value : Value) : option Value :=
  if is_type value then Some (static_pointer_cast value) else None.
End Target.

End TypeInfo.

(** *** The order of descriptors *)

Module TypeOrder.
Import TypeInfo.

(** [std::string sa(name)]: the characters of the C string [name], up to
    its terminator. *)
Fixpoint std_string (name : string) : string :=
  match name with
  | EmptyString => EmptyString
  | String c rest =>
      if Ascii.eqb c Ascii.zero then EmptyString
      else String c (std_string rest)
  end.

(** [bool operator<(const DiscreteTypeInfo& b) const]; [std::string]
    compares its characters as unsigned values, a proper prefix being
    smaller. *)
Definition lt (a b : DiscreteTypeInfo) : bool :=
  let sa := std_string (name a) in
  let sb := std_string (name b) in
  String.ltb sa sb || (String.eqb sa sb && (version a <? version b)%Z).

End TypeOrder.

(** *** Enumerations and their names *)

Module EnumNames.

(** The result of a call that may fail an [NGRAPH_CHECK]; the failure
    carries the explanation the check is given. *)
Inductive Outcome (A : Type) :=
| Return (a : A)
| CheckFailure (explanation : string).
Arguments Return {A} a.
Arguments CheckFailure {A} explanation.

(** The string made of one double-quote character. *)
Definition quote : string := String (Ascii.ascii_of_nat 34) EmptyString.

Section Enum.
Context {EnumType : Type} `{EqDecision EnumType}.

(** [class EnumNames<EnumType>]: the object [get()] returns. *)
Record EnumNames := {
  m_enum_name : string;
  m_string_enums : list (string * EnumType)
}.

(** The loop of [static EnumType as_type(const std::string& name)]. *)
Fixpoint find_enum (name : string) (string_enums : list (string * EnumType))
    : option EnumType :=
  match string_enums with
  | [] => None
  | p :: rest => if decide (p.1 = name) then Some p.2 else find_enum name rest
  end.

(** The loop of [static std::string as_type(EnumType e)]. *)
Fixpoint find_string (e : EnumType) (string_enums : list (string * EnumType))
    : option string :=
  match string_enums with
  | [] => None
  | p :: rest => if decide (p.2 = e) then Some p.1 else find_string e rest
  end.

(** [EnumNames<EnumType>::as_type(name)], which [as_type<Type>(value)]
    calls for a string [value]. *)
Definition as_enum (names : EnumNames) (name : string) : Outcome EnumType :=
  match find_enum name (m_string_enums names) with
  | Some e => Return e
  | None =>
      CheckFailure (quote +:+ name +:+ quote +:+ " is not a member of enum " +:+
                    m_enum_name names)
  end.

(** [EnumNames<EnumType>::as_type(e)], which [as_type<std::string>(value)]
    calls for an enumerator [value]. *)
Definition as_string (names : EnumNames) (e : EnumType) : Outcome string :=
  match find_string e (m_string_enums names) with
  | Some name => Return name
  | None => CheckFailure (" invalid member of enum " +:+ m_enum_name names)
  end.

(** [EnumAdapter<Type>]: [m_value] is a reference to a variable of the
    enumeration; the functions take the value of that variable and return
    its new value. *)
Definition EnumAdapter_get_string (names : EnumNames) (m_value : EnumType)
    : Outcome string :=
  as_string names m_value.

(** [TypeAdapter<Type>::m_value = as_type<Type>(value)]: when the
    conversion throws, the variable is not assigned. *)
Definition EnumAdapter_set_string (names : EnumNames) (value : string)
    (m_value : EnumType) : EnumType * Outcome unit :=
  match as_enum names value with
  | Return e => (e, Return ())
  | CheckFailure explanation => (m_value, CheckFailure explanation)
  end.

(** [StringAdapter<Type>]: the constructor initialises [m_string] from
    the variable, the destructor assigns the variable from [m_string]. *)
Definition StringAdapter_new (names : EnumNames) (value : EnumType)
    : Outcome string :=
  as_string names value.

(** [~StringAdapter()]; a check that fails in a destructor ends the
    program. *)
Definition StringAdapter_delete (names : EnumNames) (m_string : string)
    (m_value : EnumType) : EnumType * Outcome unit :=
  match as_enum names m_string with
  | Return e => (e, Return ())
  | CheckFailure explanation => (m_value, CheckFailure explanation)
  end.

(** A [StringAdapter] that lives while [edit] works on the string it
    converts to: construction, [operator std::string&], destruction. *)
Definition with_StringAdapter (names : EnumNames) (edit : string → string)
    (value : EnumType) : EnumType * Outcome unit :=
  match StringAdapter_new names value with
  | Return m_string => StringAdapter_delete names (edit m_string) value
  | CheckFailure explanation => (value, CheckFailure explanation)
  end.

End Enum.
Arguments EnumNames EnumType : clear implicits.

End EnumNames.

(* ===================================================================== *)
(** ** Element types and the MLIR types they map to *)
(* ===================================================================== *)

Module element.

(** Modelled from the spec: [enum class Type_t] of
    [ngraph/type/element_type.hpp], which is not among the sources; the
    enumerators are the ones the switch of [get_mlir_type] names. *)
Inductive Type_t :=
| undefined | dynamic | boolean | bf16
| f32 | f64
| i8 | i16 | i32 | i64
| u8 | u16 | u32 | u64.

#[global] Instance Type_t_eq_dec : EqDecision Type_t.
Proof. solve_decision. Defined.

End element.

Module mlir.

(** The scalar MLIR types the mapper builds: [FloatType::getF32],
    [FloatType::getF64] and [IntegerType::get(width, ctx)]. *)
Inductive ScalarType :=
| F32
| F64
| IntegerType (width : N).

#[global] Instance ScalarType_eq_dec : EqDecision ScalarType.
Proof. solve_decision. Defined.

End mlir.

(* ===================================================================== *)
(** ** The graph the compiler reads *)
(* ===================================================================== *)

Module graph.

(** [ngraph::Node*] and [descriptor::Tensor*]: identity is the address. *)
Abbreviation Node := positive (only parsing).
Abbreviation Tensor := positive (only parsing).

(** [std::type_index(typeid( *np ))]: the dynamic class of a node.  The two
    classes the dispatch table names, and any other class. *)
Inductive type_index :=
| TI_Add
| TI_MatmulBias
| TI_other (id : positive).

#[global] Instance type_index_eq_dec : EqDecision type_index.
Proof. solve_decision. Defined.

(** [descriptor::Input]: a use of an output; [get_node()] is the consumer. *)
Record Input := { get_node : Node }.

(** The accessors of [Node] and [descriptor::Tensor] that the compiler
    calls.  Their classes are not among the sources, so the graph is a
    parameter of the development.  [get_output_inputs] lists the
    [std::set<descriptor::Input*>] in its iteration order. *)
Record Graph := {
  get_output_size : Node → nat;
  get_output_inputs : Node → nat → list Input;
  get_output_tensor_ptr : Node → nat → Tensor;
  get_arguments : Node → list Node;
  description : Node → string;
  TI : Node → type_index;
  get_shape : Tensor → list Z;
  get_element_type : Tensor → element.Type_t
}.

End graph.
Import graph.

(* ===================================================================== *)
(** ** The MLIR objects the compiler builds *)
(* ===================================================================== *)

Module ir.

(** [mlir::Type].  [MemRefType] and the opaque types only appear after
    the dialect has been lowered; a dynamic dimension is a negative size. *)
Inductive Type_ :=
| Scalar (t : mlir.ScalarType)
| NGTensorType (elt : mlir.ScalarType) (shape : list Z)
| MemRefType (elt : mlir.ScalarType) (shape : list Z)
| OpaqueType (id : positive).

(** [type.dyn_cast<mlir::MemRefType>()] *)
Definition dyn_cast_MemRefType (t : Type_) : option (list Z) :=
  match t with
  | MemRefType _ shape => Some shape
  | _ => None
  end.

(** [memRefType.getNumDynamicDims()] *)
Definition getNumDynamicDims (shape : list Z) : nat :=
  length (filter (λ d, d < 0)%Z shape).

(** [mlir::Value*]: an argument of the entry block or the result of the
    operation at a position of the entry block.  A value is named by its
    position in the function that is being built, not by an address:
    values of a function that went away with its module are not told from
    those of the function that replaced it, which a second [build_module]
    on one compiler would need. *)
Inductive Value :=
| BlockArgument (i : nat)
| OpResult (op : nat).

#[global] Instance Value_eq_dec : EqDecision Value.
Proof. solve_decision. Defined.

(** The operations of the nGraph dialect that the builders create. *)
Inductive Operation :=
| NG_AddOp (lhs rhs : Value)
| NG_MatmulBiasOp (lhs rhs : Value)
| NG_ReturnOp (operands : list Value).

(** [mlir::Function]: name, signature, blocks. *)
Record Function := {
  getName : string;
  getArgumentTypes : list Type_;
  getResultTypes : list Type_;
  getBlocks : list (list Operation)
}.

Definition getNumArguments (f : Function) : nat := length (getArgumentTypes f).

(** [function->addEntryBlock()] *)
Definition addEntryBlock (f : Function) : Function :=
  {| getName := getName f; getArgumentTypes := getArgumentTypes f;
     getResultTypes := getResultTypes f; getBlocks := [[]] |}.

(** [m_builder->create<Op>(...)]: append to the block the builder points
    into, the entry block; the result is named by the position. *)
Definition create (op : Operation) (f : Function) : Function * Value :=
  match getBlocks f with
  | [] => ({| getName := getName f; getArgumentTypes := getArgumentTypes f;
              getResultTypes := getResultTypes f; getBlocks := [[op]] |},
           OpResult 0)
  | b :: bs => ({| getName := getName f; getArgumentTypes := getArgumentTypes f;
                   getResultTypes := getResultTypes f;
                   getBlocks := (b ++ [op]) :: bs |},
                OpResult (length b))
  end.

  (** [m_module->getNamedFunction(name)], a module being its list of
    functions. *)
Definition getNamedFunction (name : string) (m : list Function) : option Function :=
  snd <$> list_find (λ f, getName f = name) m.

End ir.

(** What the MLIR passes, the LLVM converter and the JIT engine do is not
    part of the sources: their results are parameters, and so is the way
    the file is compiled. *)
Record Backend := {
  (** Whether the file is compiled with [NDEBUG], which turns the C
      [assert] into nothing. *)
  NDEBUG : bool;
  (** [pm.run] of the dialect-lowering and canonicalizer passes. *)
  run_dialect_lowering : list ir.Function → list ir.Function;
  (** [pm.run] of the affine lowering and whether it [succeeded]. *)
  run_lower_affine : list ir.Function → list ir.Function * bool;
  (** [converter->convert] and whether it [succeeded]. *)
  convert_std_to_llvm : list ir.Function → list ir.Function * bool;
  (** Whether [ExecutionEngine::create] returns an engine. *)
  create_engine : list ir.Function → bool;
  (** [m_engine->invoke("main", args)]: how many temporaries the compiled
      code asks the memory manager for, and whether the call reports an
      error. *)
  invoke_main : list ir.Function → list addr → nat * bool
}.

(* ===================================================================== *)
(** ** The compiler object *)
(* ===================================================================== *)

Module MLIRCompiler.

(** A possibly null [void*]. *)
Abbreviation ptr := (option addr) (only parsing).

(** [struct TensorInfo { mlir::Value* m_value; }] *)
Record TensorInfo := { m_value : ir.Value }.

(** What a live block of the C heap holds: an argument descriptor
    ([mlir::StaticFloatMemRef], its [data] pointer), the slot that holds
    the address of the memory manager, a temporary handed out by the
    memory manager, or a buffer of the caller. *)
Inductive Cell :=
| StaticFloatMemRef (data : ptr)
| MemMgrSlot
| Temporary
| Buffer.

(** The members of [MLIRCompiler] and the C heap.  [jit_invocations]
    counts the calls of [m_engine->invoke]. *)
Record State := {
  m_sub_graph : list Node;
  m_ip_tensors : list Tensor;
  m_op_tensors : list Tensor;
  m_tensor_to_value_map : gmap Tensor TensorInfo;
  m_module : option (list ir.Function);
  m_builder : option ir.Function;
  m_external_tensors : list ptr;
  m_invoke_args : list addr;
  m_engine : bool;
  m_mem_mgr : list addr;
  heap : gmap addr Cell;
  jit_invocations : nat
}.

Definition set_tensors_lists (ip op : list Tensor) (s : State) : State :=
  {| m_sub_graph := m_sub_graph s; m_ip_tensors := ip; m_op_tensors := op;
     m_tensor_to_value_map := m_tensor_to_value_map s; m_module := m_module s;
     m_builder := m_builder s; m_external_tensors := m_external_tensors s;
     m_invoke_args := m_invoke_args s; m_engine := m_engine s;
     m_mem_mgr := m_mem_mgr s; heap := heap s;
     jit_invocations := jit_invocations s |}.

Definition set_tensor_to_value_map (m : gmap Tensor TensorInfo) (s : State) : State :=
  {| m_sub_graph := m_sub_graph s; m_ip_tensors := m_ip_tensors s;
     m_op_tensors := m_op_tensors s;
     m_tensor_to_value_map := m; m_module := m_module s;
     m_builder := m_builder s; m_external_tensors := m_external_tensors s;
     m_invoke_args := m_invoke_args s; m_engine := m_engine s;
     m_mem_mgr := m_mem_mgr s; heap := heap s;
     jit_invocations := jit_invocations s |}.

Definition set_module (m : option (list ir.Function)) (s : State) : State :=
  {| m_sub_graph := m_sub_graph s; m_ip_tensors := m_ip_tensors s;
     m_op_tensors := m_op_tensors s;
     m_tensor_to_value_map := m_tensor_to_value_map s; m_module := m;
     m_builder := m_builder s; m_external_tensors := m_external_tensors s;
     m_invoke_args := m_invoke_args s; m_engine := m_engine s;
     m_mem_mgr := m_mem_mgr s; heap := heap s;
     jit_invocations := jit_invocations s |}.

Definition set_builder (b : option ir.Function) (s : State) : State :=
  {| m_sub_graph := m_sub_graph s; m_ip_tensors := m_ip_tensors s;
     m_op_tensors := m_op_tensors s;
     m_tensor_to_value_map := m_tensor_to_value_map s; m_module := m_module s;
     m_builder := b; m_external_tensors := m_external_tensors s;
     m_invoke_args := m_invoke_args s; m_engine := m_engine s;
     m_mem_mgr := m_mem_mgr s; heap := heap s;
     jit_invocations := jit_invocations s |}.

Definition set_invoke_args (a : list addr) (s : State) : State :=
  {| m_sub_graph := m_sub_graph s; m_ip_tensors := m_ip_tensors s;
     m_op_tensors := m_op_tensors s;
     m_tensor_to_value_map := m_tensor_to_value_map s; m_module := m_module s;
     m_builder := m_builder s; m_external_tensors := m_external_tensors s;
     m_invoke_args := a; m_engine := m_engine s;
     m_mem_mgr := m_mem_mgr s; heap := heap s;
     jit_invocations := jit_invocations s |}.

Definition set_engine (e : bool) (s : State) : State :=
  {| m_sub_graph := m_sub_graph s; m_ip_tensors := m_ip_tensors s;
     m_op_tensors := m_op_tensors s;
     m_tensor_to_value_map := m_tensor_to_value_map s; m_module := m_module s;
     m_builder := m_builder s; m_external_tensors := m_external_tensors s;
     m_invoke_args := m_invoke_args s; m_engine := e;
     m_mem_mgr := m_mem_mgr s; heap := heap s;
     jit_invocations := jit_invocations s |}.

Definition set_mem_mgr (l : list addr) (s : State) : State :=
  {| m_sub_graph := m_sub_graph s; m_ip_tensors := m_ip_tensors s;
     m_op_tensors := m_op_tensors s;
     m_tensor_to_value_map := m_tensor_to_value_map s; m_module := m_module s;
     m_builder := m_builder s; m_external_tensors := m_external_tensors s;
     m_invoke_args := m_invoke_args s; m_engine := m_engine s;
     m_mem_mgr := l; heap := heap s;
     jit_invocations := jit_invocations s |}.

Definition set_heap (h : gmap addr Cell) (s : State) : State :=
  {| m_sub_graph := m_sub_graph s; m_ip_tensors := m_ip_tensors s;
     m_op_tensors := m_op_tensors s;
     m_tensor_to_value_map := m_tensor_to_value_map s; m_module := m_module s;
     m_builder := m_builder s; m_external_tensors := m_external_tensors s;
     m_invoke_args := m_invoke_args s; m_engine := m_engine s;
     m_mem_mgr := m_mem_mgr s; heap := h;
     jit_invocations := jit_invocations s |}.

Definition count_invocation (s : State) : State :=
  {| m_sub_graph := m_sub_graph s; m_ip_tensors := m_ip_tensors s;
     m_op_tensors := m_op_tensors s;
     m_tensor_to_value_map := m_tensor_to_value_map s; m_module := m_module s;
     m_builder := m_builder s; m_external_tensors := m_external_tensors s;
     m_invoke_args := m_invoke_args s; m_engine := m_engine s;
     m_mem_mgr := m_mem_mgr s; heap := heap s;
     jit_invocations := S (jit_invocations s) |}.

(** *** Outcomes: normal return, one of the two kinds of exception, or
    the end of the process *)

(** [Fatal] is a failed [NGRAPH_ASSERT], [NGRAPH_FAIL] or a library
    exception; [Unsupported] is [throw unsupported_op{...}].  [Abort] is
    where the embedding of a run ends, the call neither returning nor
    throwing: [abort()] of a failed C [assert], and the points where the
    language defines no behaviour, a null [unique_ptr] that is
    dereferenced and [free] of a block that is not live.  Nothing is
    stated of what a program does after it.  All carry the state the
    compiler object is in at that point. *)
Inductive Outcome (A : Type) :=
| Ok (a : A) (s : State)
| Fatal (msg : string) (s : State)
| Unsupported (msg : string) (s : State)
| Abort (msg : string) (s : State).
Arguments Ok {A} a s.
Arguments Fatal {A} msg s.
Arguments Unsupported {A} msg s.
Arguments Abort {A} msg s.

Definition M (A : Type) : Type := State → Outcome A.

Definition ret {A} (a : A) : M A := λ s, Ok a s.

Definition bind {A B} (m : M A) (k : A → M B) : M B :=
  λ s, match m s with
       | Ok a s' => k a s'
       | Fatal msg s' => Fatal msg s'
       | Unsupported msg s' => Unsupported msg s'
       | Abort msg s' => Abort msg s'
       end.

Declare Scope compiler_scope.
Delimit Scope compiler_scope with M.
#[local] Notation "x <- m ;; k" := (bind m (λ x, k))
  (at level 100, m at next level, right associativity) : compiler_scope.
#[local] Notation "m ;; k" := (bind m (λ _, k))
  (at level 100, right associativity) : compiler_scope.
Local Open Scope compiler_scope.

Definition get : M State := λ s, Ok s s.
Definition modify (f : State → State) : M unit := λ s, Ok () (f s).

(** [NGRAPH_ASSERT(cond) << msg] *)
Definition NGRAPH_ASSERT (cond : bool) (msg : string) : M unit :=
  λ s, if cond then Ok () s else Fatal msg s.

(** [NGRAPH_FAIL()] and exceptions of the libraries. *)
Definition fail {A} (msg : string) : M A := λ s, Fatal msg s.

(** [throw unsupported_op{msg}] *)
Definition throw_unsupported_op {A} (msg : string) : M A :=
  λ s, Unsupported msg s.

Fixpoint mapM {A B} (f : A → M B) (l : list A) : M (list B) :=
  match l with
  | [] => ret []
  | x :: r => y <- f x ;; ys <- mapM f r ;; ret (y :: ys)
  end.

(** *** The C heap *)

(** [malloc]: a block at an address that is not live. *)
Definition malloc (c : Cell) : M addr :=
  λ s, let a := fresh (dom (heap s)) in
       Ok a (set_heap (<[a := c]> (heap s)) s).

(** [free(p)] of a pointer that is not null: the block has to be live,
    a block that was freed before is a double free. *)
Definition free (a : addr) : M unit :=
  λ s, match heap s !! a with
       | Some _ => Ok () (set_heap (delete a (heap s)) s)
       | None => Abort "free of a block that is not live" s
       end.

(** Modelled from the spec: [MLIRMemMgr], the scratch allocator, whose
    source is not among the files.  It hands out temporaries and keeps
    track of them; [freeAll] reclaims every one of them. *)
Definition MLIRMemMgr_allocate : M addr :=
  a <- malloc Temporary ;;
  modify (λ s, set_mem_mgr (m_mem_mgr s ++ [a]) s) ;;
  ret a.

Definition MLIRMemMgr_freeAll : M unit :=
  modify (λ s, set_mem_mgr []
                 (set_heap (foldl (λ h a, delete a h) (heap s) (m_mem_mgr s)) s)).

Section Compiler.
Context (G : Graph) (B : Backend).

(** *** [build_tensors_list] *)

(** [std::find(begin(m_sub_graph), end(m_sub_graph), n) == end(m_sub_graph)] *)
Definition out_of_subgraph (sub_graph : list Node) (n : Node) : bool :=
  bool_decide (n ∉ sub_graph).

(** [if (std::find(begin(v), end(v), t) == end(v)) v.push_back(t);] *)
Definition push_back_unique (v : list Tensor) (t : Tensor) : list Tensor :=
  if bool_decide (t ∈ v) then v else v ++ [t].

(** The body of the loop over the outputs of a unit node: the uses of
    output [i]. *)
Definition scan_output (sub_graph : list Node) (node : Node)
    (op_tensors : list Tensor) (i : nat) : list Tensor :=
  let inputs := get_output_inputs G node i in
  let tensor := get_output_tensor_ptr G node i in
  foldl (λ op ip,
           if out_of_subgraph sub_graph (get_node ip)
           then push_back_unique op tensor
           else op)
        op_tensors inputs.

(** [for (auto i = 0; i < node->get_output_size(); i++)] *)
Definition scan_outputs (sub_graph : list Node) (node : Node)
    (op_tensors : list Tensor) : list Tensor :=
  foldl (scan_output sub_graph node) op_tensors
        (seq 0 (get_output_size G node)).

(** The body of the loop over the arguments of a unit node. *)
Definition scan_argument (sub_graph : list Node)
    (ip_tensors : list Tensor) (arg : Node) : list Tensor :=
  if out_of_subgraph sub_graph arg
  then foldl (λ ip i, push_back_unique ip (get_output_tensor_ptr G arg i))
             ip_tensors (seq 0 (get_output_size G arg))
  else ip_tensors.

(** [for (const auto arg : node->get_arguments())] *)
Definition scan_arguments (sub_graph : list Node) (node : Node)
    (ip_tensors : list Tensor) : list Tensor :=
  foldl (scan_argument sub_graph) ip_tensors (get_arguments G node).

(** The body of [for (const auto node : m_sub_graph)]. *)
Definition scan_node (sub_graph : list Node) (s : State) (node : Node) : State :=
  set_tensors_lists (scan_arguments sub_graph node (m_ip_tensors s))
                    (scan_outputs sub_graph node (m_op_tensors s)) s.

Definition build_tensors_list (s : State) : State :=
  foldl (scan_node (m_sub_graph s)) s (m_sub_graph s).

(** *** [get_mlir_type] *)

(** [get_mlir_type(const element::Type&)].  The [default] label covers
    the four enumerators listed before it; its assertion throws, so the
    statements after it are not reached. *)
Definition get_mlir_type_element (type : element.Type_t) : M mlir.ScalarType :=
  match type with
  | element.f32 => ret mlir.F32
  | element.f64 => ret mlir.F64
  | element.i8 | element.u8 => ret (mlir.IntegerType 8)
  | element.i16 | element.u16 => ret (mlir.IntegerType 16)
  | element.i32 | element.u32 => ret (mlir.IntegerType 32)
  | element.i64 | element.u64 => ret (mlir.IntegerType 64)
  | element.undefined | element.dynamic | element.boolean | element.bf16 =>
      fail "MLIR: Unsupported NGraph types"
  end.

(** [shape.push_back(d)]: a [size_t] stored as [int64_t]. *)
Definition to_int64 (d : Z) : Z :=
  if (d mod 2 ^ 64 <? 2 ^ 63)%Z then (d mod 2 ^ 64)%Z
  else (d mod 2 ^ 64 - 2 ^ 64)%Z.

(** [get_mlir_type] of a tensor. *)
Definition get_mlir_type (tensor : Tensor) : M ir.Type_ :=
  let shape := to_int64 <$> get_shape G tensor in
  elt <- get_mlir_type_element (get_element_type G tensor) ;;
  ret (ir.NGTensorType elt shape).

(** *** The tensor-to-value map *)

(** [std::unordered_map::insert]: no effect when the key is present. *)
Definition unordered_map_insert (tensor : Tensor) (info : TensorInfo)
    (m : gmap Tensor TensorInfo) : gmap Tensor TensorInfo :=
  match m !! tensor with
  | Some _ => m
  | None => <[tensor := info]> m
  end.

Definition update_tensor_value (tensor : Tensor) (value : ir.Value) : M unit :=
  s <- get ;;
  NGRAPH_ASSERT (bool_decide (m_tensor_to_value_map s !! tensor = None))
                "tensor value already defined" ;;
  let tensor_info := {| m_value := value |} in
  modify (λ s, set_tensor_to_value_map
                 (unordered_map_insert tensor tensor_info (m_tensor_to_value_map s)) s).

Definition get_tensor_value (tensor : Tensor) : M TensorInfo :=
  s <- get ;;
  let it := m_tensor_to_value_map s !! tensor in
  NGRAPH_ASSERT (bool_decide (it ≠ None)) "Undefined tensor" ;;
  match it with
  | Some second => ret second
  | None => fail "Undefined tensor"
  end.

(** *** Builders *)

(** [m_builder->create<Op>(loc, ...).getResult()]; the builder points
    into the function that is being built.  The code does not test
    [m_builder]: a null one is dereferenced. *)
Definition builder_create (op : ir.Operation) : M ir.Value :=
  λ s, match m_builder s with
       | Some f => let '(f', v) := ir.create op f in
                   Ok v (set_builder (Some f') s)
       | None => Abort "m_builder is null" s
       end.

(** [ng_node->get_argument(i)]; [Node::get_argument] is not among the
    sources, an index out of range is an exception of the library. *)
Definition get_argument (ng_node : Node) (i : nat) : M Node :=
  match get_arguments G ng_node !! i with
  | Some arg => ret arg
  | None => fail "get_argument: index out of range"
  end.

(** [create_binary_op<BinOp>]; the no-argument [get_output_tensor_ptr()]
    is the tensor of output 0. *)
Definition create_binary_op (BinOp : ir.Value → ir.Value → ir.Operation)
    (ng_node : Node) : M ir.Value :=
  arg0 <- get_argument ng_node 0 ;;
  let lhs := get_output_tensor_ptr G arg0 0 in
  arg1 <- get_argument ng_node 1 ;;
  let rhs := get_output_tensor_ptr G arg1 0 in
  lhs_v <- get_tensor_value lhs ;;
  rhs_v <- get_tensor_value rhs ;;
  builder_create (BinOp (m_value lhs_v) (m_value rhs_v)).

(** [create_op<ngraph::op::Add>]; the returned [mlir::Value*] is not
    null. *)
Definition create_op_Add (ng_node : Node) : M (option ir.Value) :=
  v <- create_binary_op ir.NG_AddOp ng_node ;; ret (Some v).

(** [create_op<ngraph::op::MatmulBias>] *)
Definition create_op_MatmulBias (ng_node : Node) : M (option ir.Value) :=
  NGRAPH_ASSERT (bool_decide (length (get_arguments G ng_node) = 2))
                "Bias is not supported in MatmulBias operation" ;;
  v <- create_binary_op ir.NG_MatmulBiasOp ng_node ;; ret (Some v).

(** [const MLIRCompOpMap MLIRCompiler::op_dispatcher] *)
Definition op_dispatcher : list (type_index * (Node → M (option ir.Value))) :=
  [ (TI_Add, create_op_Add); (TI_MatmulBias, create_op_MatmulBias) ].

(** [op_dispatcher.find(key)]; [None] is [op_dispatcher.end()]. *)
Definition op_dispatcher_find (key : type_index)
    : option (Node → M (option ir.Value)) :=
  (λ it, it.2.2) <$> list_find (λ e, e.1 = key) op_dispatcher.

Definition create_return : M unit :=
  s <- get ;;
  value_list <- mapM (λ tensor, i <- get_tensor_value tensor ;; ret (m_value i))
                     (m_op_tensors s) ;;
  builder_create (ir.NG_ReturnOp value_list) ;;
  ret ().

Definition build_ng_dialect : M unit :=
  s <- get ;;
  NGRAPH_ASSERT (bool_decide (length (m_sub_graph s) = 1))
                "Supporting code-gen for a single node for now" ;;
  match m_sub_graph s !! 0 with
  | None => fail "m_sub_graph[0]"
  | Some np =>
      match op_dispatcher_find (TI G np) with
      | None =>
          throw_unsupported_op
            ("The MLIR backend doesn't currently implement the '" +:+
             description G np +:+ "' operation")
      | Some second =>
          mlir_value <- second np ;;
          match mlir_value with
          | Some v => update_tensor_value (get_output_tensor_ptr G np 0) v
          | None => ret ()
          end
      end
  end ;;
  create_return.

(** *** [build_module] *)

(** The loop that populates the tensor-to-value map:
    [function->getArgument(i)] for the [i]-th input tensor. *)
Fixpoint populate_value_map (i : nat) (tensors : list Tensor)
    (m : gmap Tensor TensorInfo) : gmap Tensor TensorInfo :=
  match tensors with
  | [] => m
  | tensor :: rest =>
      let arg := ir.BlockArgument i in
      let tensor_info := {| m_value := arg |} in
      populate_value_map (S i) rest (unordered_map_insert tensor tensor_info m)
  end.

(** [build_module] from its start to the end of the loop that populates
    the map; the result is the local [function]. *)
Definition build_module_function : M ir.Function :=
  modify (set_module (Some [])) ;;
  modify build_tensors_list ;;
  s <- get ;;
  NGRAPH_ASSERT (bool_decide (length (m_ip_tensors s) ≠ 0))
                "Cannot have empty inputs list" ;;
  NGRAPH_ASSERT (bool_decide (length (m_op_tensors s) ≠ 0))
                "Cannot have empty outputs list" ;;
  args_type_list <- mapM get_mlir_type (m_ip_tensors s) ;;
  result_type_list <- mapM get_mlir_type (m_op_tensors s) ;;
  let function :=
    ir.addEntryBlock
      {| ir.getName := "main"; ir.getArgumentTypes := args_type_list;
         ir.getResultTypes := result_type_list; ir.getBlocks := [] |} in
  modify (λ s, set_tensor_to_value_map
                 (populate_value_map 0 (m_ip_tensors s) (m_tensor_to_value_map s)) s) ;;
  ret function.

(** The rest of [build_module]: the builder is created on [function],
    the node is lowered, and the function is handed to the module.  The
    dump under [NGRAPH_MLIR_DUMP_ALL] changes no state. *)
Definition build_module_body (function : ir.Function) : M unit :=
  modify (set_builder (Some function)) ;;
  build_ng_dialect ;;
  modify (λ s, match m_builder s, m_module s with
               | Some f, Some fs => set_module (Some (fs ++ [f])) s
               | _, _ => s
               end).

Definition build_module : M unit :=
  function <- build_module_function ;;
  build_module_body function.

(** *** The passes *)

(** The C [assert(cond && msg)]: nothing under [NDEBUG], [abort()] on a
    false condition otherwise. *)
Definition C_assert (cond : bool) (msg : string) : M unit :=
  λ s, if NDEBUG B || cond then Ok () s else Abort msg s.

(** [lower_dialect]: the pass manager is handed [m_module.get()] as it
    is, and the result of [pm.run] is not looked at. *)
Definition lower_dialect : M unit :=
  s <- get ;;
  match m_module s with
  | Some m => modify (set_module (Some (run_dialect_lowering B m)))
  | None => λ s, Abort "m_module is null" s
  end.

(** [optimize]: [(void)rr; assert(succeeded(rr) && "...")].  The pass
    manager is handed [m_module.get()] as it is. *)
Definition optimize : M unit :=
  s <- get ;;
  match m_module s with
  | Some m =>
      let '(m', rr) := run_lower_affine B m in
      modify (set_module (Some m')) ;;
      C_assert rr "affine loop lowering failed"
  | None => λ s, Abort "m_module is null" s
  end.

(** *** [bind_arguments] *)

(** Modelled from the spec: [get_mem_mgr_arg_id], declared in a header
    that is not among the sources.  The scratch allocator has the fixed
    final position among the declared parameters; the value is an
    [unsigned]. *)
Definition get_mem_mgr_arg_id (func : ir.Function) : Z :=
  ((Z.of_nat (ir.getNumArguments func) - 1) mod 2 ^ 32)%Z.

Definition allocate_memref_descriptor (type : ir.Type_) : M ptr :=
  match ir.dyn_cast_MemRefType type with
  | None => ret None
  | Some memRefType =>
      NGRAPH_ASSERT (bool_decide (ir.getNumDynamicDims memRefType = 0))
                    "NGRAPH_FAIL" ;;
      descriptor <- malloc (StaticFloatMemRef None) ;;
      ret (Some descriptor)
  end.

(** The loop of [allocate_memref_args] over [func->getArguments()]. *)
Fixpoint allocate_memref_args_loop (types : list ir.Type_) (args : list addr)
    : M (list addr) :=
  match types with
  | [] => ret args
  | type :: rest =>
      descriptor <- allocate_memref_descriptor type ;;
      match descriptor with
      | None => allocate_memref_args_loop rest args
      | Some d => allocate_memref_args_loop rest (args ++ [d])
      end
  end.

Definition allocate_memref_args (func : ir.Function) : M (list addr) :=
  allocate_memref_args_loop (ir.getArgumentTypes func) [].

(** [((mlir::StaticFloatMemRef* )m_invoke_args[i])->data =
     (float* )m_external_tensors[i]] *)
Definition assign_data (s : State) (i : nat) : State :=
  match m_invoke_args s !! i, m_external_tensors s !! i with
  | Some d, Some data => set_heap (<[d := StaticFloatMemRef data]> (heap s)) s
  | _, _ => s
  end.

Definition bind_arguments : M unit :=
  s <- get ;;
  NGRAPH_ASSERT (bool_decide (m_module s ≠ None)) "MLIR module is not ready." ;;
  let func := m_module s ≫= ir.getNamedFunction "main" in
  match func with
  | None => fail "Function not found"
  | Some func =>
      NGRAPH_ASSERT (bool_decide (ir.getBlocks func ≠ [])) "Function not found" ;;
      expected_arguments <- allocate_memref_args func ;;
      NGRAPH_ASSERT (bool_decide (length expected_arguments ≠ 0))
                    "Arguments can't be created" ;;
      modify (set_invoke_args expected_arguments) ;;
      s <- get ;;
      NGRAPH_ASSERT (bool_decide (length (m_invoke_args s) =
                                  length (m_external_tensors s)))
        "Number of external tensors doesn't match number of function arguments" ;;
      modify (λ s, foldl assign_data s (seq 0 (length (m_invoke_args s)))) ;;
      mem_mgr_arg <- malloc MemMgrSlot ;;
      s <- get ;;
      NGRAPH_ASSERT (bool_decide (Z.of_nat (length (m_invoke_args s)) =
                                  get_mem_mgr_arg_id func))
                    "m_invoke_args.size() == get_mem_mgr_arg_id(func)" ;;
      modify (λ s, set_invoke_args (m_invoke_args s ++ [mem_mgr_arg]) s)
  end.

(** *** [execute] and [cleanup] *)

(** The temporaries the compiled code asks the memory manager for. *)
Fixpoint allocate_temporaries (n : nat) : M unit :=
  match n with
  | O => ret ()
  | S n' => MLIRMemMgr_allocate ;; allocate_temporaries n'
  end.

Definition execute : M unit :=
  s <- get ;;
  NGRAPH_ASSERT (bool_decide (m_module s ≠ None)) "MLIR module is not ready." ;;
  match m_module s with
  | None => fail "MLIR module is not ready."
  | Some m =>
      let '(m', r) := convert_std_to_llvm B m in
      modify (set_module (Some m')) ;;
      NGRAPH_ASSERT r "second conversion failed" ;;
      NGRAPH_ASSERT (create_engine B m') "failed to construct an execution engine" ;;
      modify (set_engine true) ;;
      s <- get ;;
      let '(temporaries, invocationResult) := invoke_main B m' (m_invoke_args s) in
      modify count_invocation ;;
      allocate_temporaries temporaries ;;
      NGRAPH_ASSERT (negb invocationResult)
                    ("JIT invocation of 'main' failed" +:+ String (Ascii.ascii_of_nat 10) "")
  end.

(** [for (auto* arg : m_invoke_args) free(arg);] *)
Fixpoint free_all (args : list addr) : M unit :=
  match args with
  | [] => ret ()
  | arg :: rest => free arg ;; free_all rest
  end.

Definition cleanup : M unit :=
  s <- get ;;
  free_all (m_invoke_args s) ;;
  s <- get ;;
  (if bool_decide (m_builder s ≠ None) then modify (set_builder None) else ret ()) ;;
  MLIRMemMgr_freeAll.

(** *** [compile_and_run] *)

Definition compile_and_run : M unit :=
  build_module ;;
  lower_dialect ;;
  optimize ;;
  bind_arguments ;;
  execute ;;
  cleanup.

End Compiler.

End MLIRCompiler.
Import MLIRCompiler.

(* ===================================================================== *)
(** ** Reference notions the properties are stated with *)
(* ===================================================================== *)

(** A list without its repetitions, each element at the place of its first
    occurrence. *)
Fixpoint first_occurrences (l : list positive) : list positive :=
  match l with
  | [] => []
  | x :: r => x :: filter (λ y, y ≠ x) (first_occurrences r)
  end.

(** How often [t] occurs in [l]. *)
Definition occurrences (t : positive) (l : list positive) : nat :=
  length (filter (λ x, x = t) l).

Section Discoveries.
Context (G : Graph).

(** The output tensors of [node] in the order in which the analysis meets
    a use of them outside the unit, one entry per such use. *)
Definition output_discoveries (sub_graph : list Node) (node : Node) : list Tensor :=
  seq 0 (get_output_size G node) ≫= λ i,
    get_output_inputs G node i ≫= λ ip,
      if bool_decide (get_node ip ∉ sub_graph)
      then [get_output_tensor_ptr G node i] else [].

(** All output tensors of a node, by output index. *)
Definition output_tensors (node : Node) : list Tensor :=
  get_output_tensor_ptr G node <$> seq 0 (get_output_size G node).

(** The output tensors of the arguments of [node] that lie outside the
    unit, in the order in which the analysis meets them. *)
Definition input_discoveries (sub_graph : list Node) (node : Node) : list Tensor :=
  get_arguments G node ≫= λ arg,
    if bool_decide (arg ∉ sub_graph) then output_tensors arg else [].

(** Every tensor is produced by one output of one node (of [nodes]). *)
Definition produced_once (nodes : list Node) : Prop :=
  ∀ n i n' i',
    n ∈ nodes → n' ∈ nodes →
    i < get_output_size G n → i' < get_output_size G n' →
    get_output_tensor_ptr G n i = get_output_tensor_ptr G n' i' →
    n = n' ∧ i = i'.

(** The two views of an edge agree: a node that uses an output of [p]
    has [p] among its arguments. *)
Definition uses_are_arguments : Prop :=
  ∀ p i ip, ip ∈ get_output_inputs G p i → p ∈ get_arguments G (get_node ip).
End Discoveries.

(** The state of a compiler object that has just been constructed for a
    sub-graph and a table of external buffers. *)
Definition fresh_compiler (sub_graph : list Node) (external_tensors : list (option addr))
    (h : gmap addr Cell) : State :=
  {| m_sub_graph := sub_graph; m_ip_tensors := []; m_op_tensors := [];
     m_tensor_to_value_map := ∅; m_module := None; m_builder := None;
     m_external_tensors := external_tensors; m_invoke_args := [];
     m_engine := false; m_mem_mgr := []; heap := h; jit_invocations := 0 |}.

(** *** A small graph to run the definitions on

    Nodes 1 and 2 produce tensors 11 and 12; node 3 adds them into tensor
    13; node 4, a Relu, turns 13 into 14.  Node 5 has two outputs, 15 and
    25; node 6 uses 15; node 7 uses 15, 13 and 14.  Nobody uses the outputs
    of 6 and 7. *)
Module Demo.
Local Open Scope positive_scope.

Definition G : Graph := {|
  get_output_size := λ n, match n with 5 => 2%nat | _ => 1%nat end;
  get_output_inputs := λ n i,
    match n, i with
    | 1, O => [ {| get_node := 3 |} ]
    | 2, O => [ {| get_node := 3 |} ]
    | 3, O => [ {| get_node := 4 |}; {| get_node := 7 |} ]
    | 4, O => [ {| get_node := 7 |} ]
    | 5, O => [ {| get_node := 6 |}; {| get_node := 7 |} ]
    | _, _ => []
    end;
  get_output_tensor_ptr := λ n i,
    match i with O => n + 10 | _ => n + 20 end;
  get_arguments := λ n,
    match n with
    | 3 => [1; 2] | 4 => [3] | 6 => [5] | 7 => [5; 3; 4] | _ => []
    end;
  description := λ n, match n with 3 => "Add" | 4 => "Relu" | _ => "Parameter" end%string;
  TI := λ n, match n with 3 => TI_Add | _ => TI_other n end;
  get_shape := λ t, [2; 3]%Z;
  get_element_type := λ t, element.f32
|}.

(** A backend whose lowering turns the signature of [main] into three
    static memrefs followed by the parameter of the memory manager, and
    whose compiled code asks for two temporaries; [fails] is the result
    of the invocation. *)
Definition B (fails : bool) : Backend := {|
  NDEBUG := false;
  run_dialect_lowering := fmap (λ f,
    {| ir.getName := ir.getName f;
       ir.getArgumentTypes :=
         [ir.MemRefType mlir.F32 [2; 3]%Z; ir.MemRefType mlir.F32 [2; 3]%Z;
          ir.MemRefType mlir.F32 [2; 3]%Z; ir.OpaqueType 1];
       ir.getResultTypes := [];
       ir.getBlocks := ir.getBlocks f |});
  run_lower_affine := λ m, (m, true);
  convert_std_to_llvm := λ m, (m, true);
  create_engine := λ m, true;
  invoke_main := λ m a, (2%nat, fails)
|}.

Definition caller_heap : gmap addr Cell :=
  {[ 100 := Buffer; 101 := Buffer; 102 := Buffer ]}.

(** The compiler for the unit made of the Add node. *)
Definition add_unit : State :=
  fresh_compiler [3] [Some 100; Some 101; Some 102] caller_heap.

(** The compiler for a unit made of a node the dispatch table lacks. *)
Definition relu_unit : State :=
  fresh_compiler [4] [Some 100; Some 101] caller_heap.

(** The compiler for a unit of two nodes. *)
Definition two_node_unit : State :=
  fresh_compiler [3; 7] [] caller_heap.

(** The function and the state that [build_module] has built for the Add
    unit when the map has been populated. *)
Definition add_function : ir.Function :=
  ir.addEntryBlock
    {| ir.getName := "main";
       ir.getArgumentTypes :=
         [ir.NGTensorType mlir.F32 [2; 3]%Z; ir.NGTensorType mlir.F32 [2; 3]%Z];
       ir.getResultTypes := [ir.NGTensorType mlir.F32 [2; 3]%Z];
       ir.getBlocks := [] |}.

Definition add_unit_seeded : State :=
  set_tensor_to_value_map
    (populate_value_map 0 [11; 12] ∅)
    (build_tensors_list G (set_module (Some []) add_unit)).

(** The example graph with node 3 turned into a MatmulBias that has a
    third argument, the bias. *)
Definition G_bias : Graph := {|
  get_output_size := get_output_size G;
  get_output_inputs := get_output_inputs G;
  get_output_tensor_ptr := get_output_tensor_ptr G;
  get_arguments := λ n, match n with 3 => [1; 2; 5] | _ => get_arguments G n end;
  description := description G;
  TI := λ n, match n with 3 => TI_MatmulBias | _ => TI G n end;
  get_shape := get_shape G;
  get_element_type := get_element_type G
|}.

(** A function [main] whose second parameter is a memref with a dynamic
    dimension. *)
Definition dynamic_main : ir.Function :=
  {| ir.getName := "main";
     ir.getArgumentTypes :=
       [ir.MemRefType mlir.F32 [2; 3]%Z; ir.MemRefType mlir.F32 [-1; 3]%Z];
     ir.getResultTypes := [];
     ir.getBlocks := [[]] |}.

(** [main] as the lowering of [B] leaves it. *)
Definition lowered_main : ir.Function :=
  {| ir.getName := "main";
     ir.getArgumentTypes :=
       [ir.MemRefType mlir.F32 [2; 3]%Z; ir.MemRefType mlir.F32 [2; 3]%Z;
        ir.MemRefType mlir.F32 [2; 3]%Z; ir.OpaqueType 1];
     ir.getResultTypes := [];
     ir.getBlocks :=
       [[ir.NG_AddOp (ir.BlockArgument 0) (ir.BlockArgument 1);
         ir.NG_ReturnOp [ir.OpResult 0]]] |}.

(** The compiler of a unit after [build_module], [lower_dialect] and
    [optimize]. *)
Definition lowered (s : State) : State :=
  match MLIRCompiler.bind (build_module G) (λ _,
        MLIRCompiler.bind (lower_dialect (B false)) (λ _,
        optimize (B false))) s with
  | Ok _ s' | Fatal _ s' | Unsupported _ s' | Abort _ s' => s'
  end.

(** The Add unit with a table of two external buffers where three are
    needed. *)
Definition add_unit_short : State :=
  fresh_compiler [3] [Some 100; Some 101] caller_heap.

(** The compiler for a unit made of node 1, which has no argument, and
    for a unit made of node 6, whose output nobody uses. *)
Definition source_unit : State := fresh_compiler [1] [] caller_heap.
Definition sink_unit : State := fresh_compiler [6] [] caller_heap.
End Demo.

(** One step that writes the tensor-to-value map: a successful
    [update_tensor_value], or the loop of [build_module] that populates the
    map with function arguments. *)
Inductive value_map_step : State → State → Prop :=
| step_update tensor value s s' :
    update_tensor_value tensor value s = Ok () s' →
    value_map_step s s'
| step_populate i tensors s :
    value_map_step s
      (set_tensor_to_value_map
         (populate_value_map i tensors (m_tensor_to_value_map s)) s).

(** The number of entries the map holds for a tensor. *)
Definition entries (tensor : Tensor) (m : gmap Tensor TensorInfo) : nat :=
  length (filter (λ e, e.1 = tensor) (map_to_list m)).

(** A computation that never throws [unsupported_op]. *)
Definition never_unsupported {A} (m : M A) : Prop :=
  ∀ s msg s', m s ≠ Unsupported msg s'.

(** A computation that returns or throws, whatever the state: the process
    goes on after it. *)
Definition never_aborts {A} (m : M A) : Prop :=
  ∀ s msg s', m s ≠ Abort msg s'.


(** The state a call leaves the compiler in, whatever its outcome. *)
Definition final_state {A} (o : Outcome A) : State :=
  match o with
  | Ok _ s | Fatal _ s | Unsupported _ s | Abort _ s => s
  end.

(** A computation that leaves an observation of the state as it is,
    whatever its outcome. *)
Definition preserves {A X} (f : State → X) (m : M A) : Prop :=
  ∀ s, f (final_state (m s)) = f s.

(** The declared parameters of memref type, in declaration order. *)
Definition memref_parameters (func : ir.Function) : list ir.Type_ :=
  filter (λ t, is_Some (ir.dyn_cast_MemRefType t)) (ir.getArgumentTypes func).

(** A type that is not a memref with a dynamic dimension. *)
Definition static_type (t : ir.Type_) : Prop :=
  match ir.dyn_cast_MemRefType t with
  | Some shape => ir.getNumDynamicDims shape = 0
  | None => True
  end.

(** Nothing that [bind_arguments] and the compiled code allocated is left:
    the argument descriptors are freed, the memory manager has no
    temporary outstanding, the builder is released. *)
Definition cleaned_up (s : State) : Prop :=
  (∀ a, a ∈ m_invoke_args s → heap s !! a = None) ∧
  m_mem_mgr s = [] ∧
  m_builder s = None.

(** [compile_and_run] without its last call. *)
Definition phases_before_cleanup (G : Graph) (B : Backend) : M unit :=
  MLIRCompiler.bind (build_module G) (λ _,
  MLIRCompiler.bind (lower_dialect B) (λ _,
  MLIRCompiler.bind (optimize B) (λ _,
  MLIRCompiler.bind bind_arguments (λ _, execute B)))).

(** The part of the state that belongs to the C heap and its allocator. *)
Definition memory (s : State) : gmap addr Cell * list addr :=
  (heap s, m_mem_mgr s).

(** The element types the mapper rejects. *)
Definition unsupported_element_types : list element.Type_t :=
  [element.boolean; element.bf16; element.dynamic; element.undefined].

(** Descriptors of [type.hpp] itself: [VisitorAdapter::type_info] and the
    [type_info] of an [EnumAdapter] instantiation, which derives from
    [VisitorAdapter]; and a second descriptor object with the contents of
    the first. *)
Module TypeDemo.
Import TypeInfo.
Local Open Scope positive_scope.

Definition VisitorAdapter_type_info : addr := 1.
Definition EnumAdapter_type_info : addr := 2.
Definition duplicate_type_info : addr := 3.

Definition descriptors : gmap addr DiscreteTypeInfo :=
  {[ VisitorAdapter_type_info := {| name := "VisitorAdapter"; version := 0 |};
     EnumAdapter_type_info := {| name := "EnumAdapter"; version := 0 |};
     duplicate_type_info := {| name := "VisitorAdapter"; version := 0 |} ]}.

(** An [EnumAdapter] object: its [get_type_info()] is the override. *)
Definition an_enum_adapter : Value :=
  {| pointee := 40; get_type_info := EnumAdapter_type_info |}.

(** An object whose class reports the duplicate descriptor. *)
Definition a_duplicate : Value :=
  {| pointee := 41; get_type_info := duplicate_type_info |}.
End TypeDemo.

(** What [build_module] has no business with: the unit, the table of
    external buffers, the invocation arguments, the engine, the memory
    manager, the heap and the count of invocations. *)
Definition untouched_by_build (s : State)
    : list Node * list (option addr) * list addr * bool * list addr *
      gmap addr Cell * nat :=
  (m_sub_graph s, m_external_tensors s, m_invoke_args s, m_engine s,
   m_mem_mgr s, heap s, jit_invocations s).

(** Two graphs that differ at most in the order in which the uses of an
    output are listed, as two runs with the [Input] objects at other
    addresses do. *)
Definition same_up_to_use_order (G G' : Graph) : Prop :=
  (∀ n, get_output_size G n = get_output_size G' n) ∧
  (∀ n i, get_output_inputs G n i ≡ₚ get_output_inputs G' n i) ∧
  (∀ n i, get_output_tensor_ptr G n i = get_output_tensor_ptr G' n i) ∧
  (∀ n, get_arguments G n = get_arguments G' n).

(** The example graph with the uses of each output listed backwards. *)
Definition reversed_uses (G : Graph) : Graph :=
  {| get_output_size := get_output_size G;
     get_output_inputs := λ n i, reverse (get_output_inputs G n i);
     get_output_tensor_ptr := get_output_tensor_ptr G;
     get_arguments := get_arguments G;
     description := description G;
     TI := TI G;
     get_shape := get_shape G;
     get_element_type := get_element_type G |}.

(** The builders of the dispatch table are binary: the operation each one
    creates. *)
Definition binary_operation (key : type_index)
    : option (ir.Value → ir.Value → ir.Operation) :=
  match key with
  | TI_Add => Some ir.NG_AddOp
  | TI_MatmulBias => Some ir.NG_MatmulBiasOp
  | TI_other _ => None
  end.

(** A table of names for three element types, and one in which a name
    is used twice. *)
Module EnumDemo.
Import EnumNames.

Definition element_names : EnumNames element.Type_t :=
  {| m_enum_name := "element::Type_t";
     m_string_enums :=
       [("boolean", element.boolean); ("f32", element.f32); ("f64", element.f64)] |}.

End EnumDemo.

(** Two descriptors to compare. *)
Module OrderDemo.
Import TypeInfo.

Definition Add_v0 : DiscreteTypeInfo := {| name := "Add"; version := 0 |}.
Definition Add_v1 : DiscreteTypeInfo := {| name := "Add"; version := 1 |}.
Definition Relu_v0 : DiscreteTypeInfo := {| name := "Relu"; version := 0 |}.

End OrderDemo.

(* ===================================================================== *)
(** * Properties *)
(* ===================================================================== *)

(** ** Lists built by [push_back_unique] *)

Lemma elem_of_first_occurrences l x : x ∈ first_occurrences l ↔ x ∈ l.
Proof.
  induction l as [|y r IH]; simpl; [done|].
  rewrite !elem_of_cons, list_elem_of_filter, IH.
  destruct (decide (x = y)); tauto.
Qed.

Lemma NoDup_first_occurrences l : NoDup (first_occurrences l).
Proof.
  induction l as [|y r IH]; simpl; [constructor|].
  constructor.
  - rewrite list_elem_of_filter. tauto.
  - by apply NoDup_filter.
Qed.

Lemma filter_filter_and {A} (P Q R : A → Prop)
    `{∀ x, Decision (P x)} `{∀ x, Decision (Q x)} `{∀ x, Decision (R x)}
    (l : list A) :
  (∀ x, R x ↔ P x ∧ Q x) → filter P (filter Q l) = filter R l.
Proof.
  intros Heq. induction l as [|a l IH]; [done|].
  rewrite (filter_cons Q), (filter_cons R).
  destruct (decide (Q a)) as [HQ|HQ], (decide (R a)) as [HR|HR].
  - rewrite filter_cons. destruct (decide (P a)) as [|HP]; [by rewrite IH|].
    destruct HP. by apply Heq.
  - rewrite filter_cons. destruct (decide (P a)); [|done].
    destruct HR. by apply Heq.
  - destruct HQ. by apply Heq.
  - done.
Qed.

Lemma foldl_push_back_unique l xs :
  foldl push_back_unique l xs = l ++ filter (λ y, y ∉ l) (first_occurrences xs).
Proof.
  revert l. induction xs as [|x r IH]; intros l; simpl.
  - by rewrite filter_nil, app_nil_r.
  - rewrite IH. unfold push_back_unique. rewrite filter_cons.
    case_bool_decide as Hx.
    + destruct (decide (x ∉ l)); [done|]. f_equal.
      symmetry. apply filter_filter_and. intros y. split; [|tauto].
      intros Hy. split; [done|]. congruence.
    + destruct (decide (x ∉ l)); [|done].
      rewrite <- app_assoc. simpl. do 2 f_equal.
      symmetry. apply filter_filter_and. intros y.
      rewrite not_elem_of_app, list_elem_of_singleton. tauto.
Qed.

Lemma foldl_push_back_unique_nil xs :
  foldl push_back_unique [] xs = first_occurrences xs.
Proof.
  rewrite foldl_push_back_unique. simpl.
  induction (first_occurrences xs) as [|y r IH]; [done|].
  rewrite filter_cons, decide_True by apply not_elem_of_nil. by rewrite IH.
Qed.

Lemma foldl_bind {A B C} (f : A → B → A) (g : C → list B) (a : A) (l : list C) :
  foldl f a (l ≫= g) = foldl (λ a x, foldl f a (g x)) a l.
Proof.
  revert a. induction l as [|x l IH]; intros a; [done|].
  rewrite bind_cons, foldl_app. apply IH.
Qed.

Lemma occurrences_not_elem_of t l : t ∉ l → occurrences t l = 0.
Proof.
  unfold occurrences. induction l as [|x l IH]; [done|].
  rewrite not_elem_of_cons, filter_cons. intros [Hne Hl].
  rewrite decide_False by congruence. auto.
Qed.

Lemma occurrences_NoDup t l : NoDup l → t ∈ l → occurrences t l = 1.
Proof.
  induction 1 as [|x l Hx Hl IH]; [by rewrite elem_of_nil|].
  unfold occurrences. rewrite elem_of_cons, filter_cons. intros [->|Ht].
  - rewrite decide_True by done. simpl. f_equal.
    by apply occurrences_not_elem_of.
  - rewrite decide_False by (intros ->; contradiction). by apply IH.
Qed.

(** ** [build_tensors_list] *)

Section BoundaryAnalysis.
Context (G : Graph).

Lemma scan_output_discoveries sub node op i :
  scan_output G sub node op i =
  foldl push_back_unique op
    (get_output_inputs G node i ≫= λ ip,
       if bool_decide (get_node ip ∉ sub)
       then [get_output_tensor_ptr G node i] else []).
Proof.
  unfold scan_output, out_of_subgraph.
  generalize (get_output_inputs G node i) as inputs. intros inputs. revert op.
  induction inputs as [|ip r IH]; intros op; [done|].
  rewrite bind_cons, foldl_app. simpl. rewrite IH.
  by destruct (bool_decide (get_node ip ∉ sub)).
Qed.

Lemma scan_outputs_discoveries sub node op :
  scan_outputs G sub node op =
  foldl push_back_unique op (output_discoveries G sub node).
Proof.
  unfold scan_outputs, output_discoveries. rewrite foldl_bind.
  generalize (seq 0 (get_output_size G node)) as slots. intros slots. revert op.
  induction slots as [|i r IH]; intros op; [done|].
  simpl. by rewrite IH, scan_output_discoveries.
Qed.

Lemma scan_argument_discoveries sub ip arg :
  scan_argument G sub ip arg =
  foldl push_back_unique ip
    (if bool_decide (arg ∉ sub) then output_tensors G arg else []).
Proof.
  unfold scan_argument, out_of_subgraph, output_tensors.
  destruct (bool_decide (arg ∉ sub)); [|done].
  generalize (seq 0 (get_output_size G arg)) as slots. intros slots. revert ip.
  induction slots as [|i r IH]; intros ip; [done|].
  simpl. by rewrite IH.
Qed.

Lemma scan_arguments_discoveries sub node ip :
  scan_arguments G sub node ip =
  foldl push_back_unique ip (input_discoveries G sub node).
Proof.
  unfold scan_arguments, input_discoveries. rewrite foldl_bind.
  generalize (get_arguments G node) as args. intros args. revert ip.
  induction args as [|a r IH]; intros ip; [done|].
  simpl. by rewrite IH, scan_argument_discoveries.
Qed.

(** The loop over the unit touches the two lists only, and each list is
    the [push_back_unique] fold of its discoveries. *)
Lemma scan_nodes_fold sub nodes s :
  foldl (scan_node G sub) s nodes =
  set_tensors_lists
    (foldl push_back_unique (m_ip_tensors s) (nodes ≫= input_discoveries G sub))
    (foldl push_back_unique (m_op_tensors s) (nodes ≫= output_discoveries G sub))
    s.
Proof.
  revert s. induction nodes as [|n r IH]; intros s.
  - by destruct s.
  - cbn [foldl]. rewrite IH, !bind_cons, !foldl_app. unfold scan_node. cbn.
    by rewrite scan_arguments_discoveries, scan_outputs_discoveries.
Qed.

Lemma build_tensors_list_fold s :
  build_tensors_list G s =
  set_tensors_lists
    (foldl push_back_unique (m_ip_tensors s)
           (m_sub_graph s ≫= input_discoveries G (m_sub_graph s)))
    (foldl push_back_unique (m_op_tensors s)
           (m_sub_graph s ≫= output_discoveries G (m_sub_graph s)))
    s.
Proof. apply scan_nodes_fold. Qed.

Lemma elem_of_output_discoveries sub t nodes :
  t ∈ (nodes ≫= output_discoveries G sub) ↔
  ∃ node i ip, node ∈ nodes ∧ i < get_output_size G node ∧
               ip ∈ get_output_inputs G node i ∧ (get_node ip ∉ sub) ∧
               t = get_output_tensor_ptr G node i.
Proof.
  rewrite list_elem_of_bind. unfold output_discoveries. split.
  - intros (node & Ht & Hnode). apply list_elem_of_bind in Ht as (i & Ht & Hi).
    apply list_elem_of_bind in Ht as (ip & Ht & Hip).
    apply elem_of_seq in Hi. case_bool_decide; [|by apply elem_of_nil in Ht].
    apply list_elem_of_singleton in Ht. exists node, i, ip. repeat split; [done|lia|done..].
  - intros (node & i & ip & Hnode & Hi & Hip & Hout & ->).
    exists node. split; [|done]. apply list_elem_of_bind. exists i.
    split; [|apply elem_of_seq; lia]. apply list_elem_of_bind. exists ip.
    split; [|done]. rewrite bool_decide_true by done. by apply list_elem_of_singleton.
Qed.

Lemma elem_of_output_tensors t node :
  t ∈ output_tensors G node ↔
  ∃ i, i < get_output_size G node ∧ t = get_output_tensor_ptr G node i.
Proof.
  unfold output_tensors. rewrite list_elem_of_fmap. split.
  - intros (i & -> & Hi). apply elem_of_seq in Hi. exists i. split; [lia|done].
  - intros (i & Hi & ->). exists i. split; [done|]. apply elem_of_seq. lia.
Qed.

Lemma elem_of_input_discoveries sub t nodes :
  t ∈ (nodes ≫= input_discoveries G sub) ↔
  ∃ node arg i, node ∈ nodes ∧ arg ∈ get_arguments G node ∧ (arg ∉ sub) ∧
                i < get_output_size G arg ∧ t = get_output_tensor_ptr G arg i.
Proof.
  rewrite list_elem_of_bind. unfold input_discoveries. split.
  - intros (node & Ht & Hnode). apply list_elem_of_bind in Ht as (arg & Ht & Harg).
    case_bool_decide; [|by apply elem_of_nil in Ht].
    apply elem_of_output_tensors in Ht as (i & Hi & ->).
    by exists node, arg, i.
  - intros (node & arg & i & Hnode & Harg & Hout & Hi & ->).
    exists node. split; [|done]. apply list_elem_of_bind. exists arg.
    split; [|done]. rewrite bool_decide_true by done.
    apply elem_of_output_tensors. by exists i.
Qed.

End BoundaryAnalysis.

(** C1. Boundary outputs.  For a compiler whose output list is still
    empty, after [build_tensors_list]: a tensor is in the boundary-output
    list exactly when it is an output of a unit node with a use outside the
    unit; when every tensor has one producing output, the tensor of an
    output of a unit node is in the list exactly when one of the uses of
    that output lies outside the unit, whatever its other uses are; the list
    has no repetition; and it lists the tensors in the order of their first
    discovery. *)
Theorem boundary_outputs (G : Graph) (s : State) :
  m_op_tensors s = [] →
  let s' := build_tensors_list G s in
  let sub := m_sub_graph s in
  (∀ t, t ∈ m_op_tensors s' ↔
        ∃ node i ip, node ∈ sub ∧ i < get_output_size G node ∧
                     ip ∈ get_output_inputs G node i ∧ (get_node ip ∉ sub) ∧
                     t = get_output_tensor_ptr G node i) ∧
  (produced_once G sub →
   ∀ node i, node ∈ sub → i < get_output_size G node →
     (get_output_tensor_ptr G node i ∈ m_op_tensors s' ↔
      ∃ ip, ip ∈ get_output_inputs G node i ∧ get_node ip ∉ sub)) ∧
  NoDup (m_op_tensors s') ∧
  m_op_tensors s' = first_occurrences (sub ≫= output_discoveries G sub).
Proof.
  intros Hnil s' sub.
  assert (Hlist : m_op_tensors s' = first_occurrences (sub ≫= output_discoveries G sub)).
  { unfold s'. rewrite build_tensors_list_fold. simpl.
    by rewrite Hnil, foldl_push_back_unique_nil. }
  assert (Hin : ∀ t, t ∈ m_op_tensors s' ↔
        ∃ node i ip, node ∈ sub ∧ i < get_output_size G node ∧
                     ip ∈ get_output_inputs G node i ∧ (get_node ip ∉ sub) ∧
                     t = get_output_tensor_ptr G node i).
  { intros t. rewrite Hlist, elem_of_first_occurrences.
    apply elem_of_output_discoveries. }
  split; [done|]. split; [|split; [|done]].
  - intros Hprod node i Hnode Hi. rewrite Hin. split.
    + intros (node' & i' & ip & Hnode' & Hi' & Hip & Hout & Heq).
      destruct (Hprod node i node' i') as [-> ->]; [done..|].
      by exists ip.
    + intros (ip & Hip & Hout). by exists node, i, ip.
  - rewrite Hlist. apply NoDup_first_occurrences.
Qed.

(** The example graph has one producing output per tensor, and its uses
    are the arguments of the using nodes. *)
Lemma example_produced_once : produced_once Demo.G [3; 7]%positive.
Proof.
  intros n i n' i' Hn Hn' Hi Hi' Heq.
  apply elem_of_cons in Hn as [->|Hn]; [|apply list_elem_of_singleton in Hn as ->];
    (apply elem_of_cons in Hn' as [->|Hn']; [|apply list_elem_of_singleton in Hn' as ->]);
    simpl in Hi, Hi'; destruct i, i'; try lia; try done.
Defined.

Lemma example_uses_are_arguments : uses_are_arguments Demo.G.
Proof.
  intros p i ip.
  destruct p as [[[p|p|]|[p|p|]|]|[[p|p|]|[p|p|]|]|]; destruct i; simpl;
    rewrite ?elem_of_nil; try tauto;
    rewrite ?elem_of_cons, ?elem_of_nil;
    intros H; decompose [or] H; subst; simpl; try tauto;
    rewrite ?elem_of_cons; tauto.
Defined.

Lemma boundary_outputs_witness :
  let s' := build_tensors_list Demo.G Demo.two_node_unit in
  NoDup (m_op_tensors s') ∧
  (13%positive ∈ m_op_tensors s' ↔
   ∃ ip, ip ∈ get_output_inputs Demo.G 3%positive 0 ∧ get_node ip ∉ [3; 7]%positive).
Proof.
  destruct (boundary_outputs Demo.G Demo.two_node_unit eq_refl)
    as (_ & Hslot & Hnodup & _).
  split; [exact Hnodup|].
  apply (Hslot example_produced_once 3%positive 0).
  - apply elem_of_cons. by left.
  - simpl. lia.
Defined.

Lemma boundary_inputs_NoDup (G : Graph) (s : State) :
  m_ip_tensors s = [] → NoDup (m_ip_tensors (build_tensors_list G s)).
Proof.
  intros Hnil. rewrite build_tensors_list_fold. simpl.
  rewrite Hnil, foldl_push_back_unique_nil. apply NoDup_first_occurrences.
Qed.

(** C2. Boundary inputs.  For a compiler whose input list is still empty,
    after [build_tensors_list]: when the uses of the graph are the arguments
    of the using nodes, every tensor produced by a node outside the unit
    and used by a node of the unit occurs exactly once in the boundary-input
    list, however many uses it has; the list holds exactly the output
    tensors of the arguments of unit nodes that lie outside the unit, each
    once, in the order of first discovery. *)
Theorem boundary_inputs (G : Graph) (s : State) :
  m_ip_tensors s = [] →
  let s' := build_tensors_list G s in
  let sub := m_sub_graph s in
  (uses_are_arguments G →
   ∀ p i ip, p ∉ sub → i < get_output_size G p →
     ip ∈ get_output_inputs G p i → get_node ip ∈ sub →
     occurrences (get_output_tensor_ptr G p i) (m_ip_tensors s') = 1) ∧
  (∀ t, t ∈ m_ip_tensors s' ↔
        ∃ node arg i, node ∈ sub ∧ arg ∈ get_arguments G node ∧ (arg ∉ sub) ∧
                      i < get_output_size G arg ∧ t = get_output_tensor_ptr G arg i) ∧
  (∀ t, t ∈ m_ip_tensors s' → occurrences t (m_ip_tensors s') = 1) ∧
  NoDup (m_ip_tensors s') ∧
  m_ip_tensors s' = first_occurrences (sub ≫= input_discoveries G sub).
Proof.
  intros Hnil s' sub.
  assert (Hlist : m_ip_tensors s' = first_occurrences (sub ≫= input_discoveries G sub)).
  { unfold s'. rewrite build_tensors_list_fold. simpl.
    by rewrite Hnil, foldl_push_back_unique_nil. }
  assert (Hnodup : NoDup (m_ip_tensors s')).
  { rewrite Hlist. apply NoDup_first_occurrences. }
  assert (Hin : ∀ t, t ∈ m_ip_tensors s' ↔
        ∃ node arg i, node ∈ sub ∧ arg ∈ get_arguments G node ∧ (arg ∉ sub) ∧
                      i < get_output_size G arg ∧ t = get_output_tensor_ptr G arg i).
  { intros t. rewrite Hlist, elem_of_first_occurrences.
    apply elem_of_input_discoveries. }
  repeat split; try done.
  - intros Huses p i ip Hp Hi Hip Hnode.
    apply occurrences_NoDup; [done|]. apply Hin.
    exists (get_node ip), p, i. repeat split; try done. by apply (Huses p i).
  - by apply Hin.
  - by apply Hin.
  - intros t Ht. by apply occurrences_NoDup.
Qed.

Lemma boundary_inputs_witness :
  let s' := build_tensors_list Demo.G Demo.two_node_unit in
  occurrences 15%positive (m_ip_tensors s') = 1 ∧ NoDup (m_ip_tensors s').
Proof.
  destruct (boundary_inputs Demo.G Demo.two_node_unit eq_refl)
    as (Hused & _ & _ & Hnodup & _).
  split; [|exact Hnodup].
  apply (Hused example_uses_are_arguments 5%positive 0 {| get_node := 7 |}).
  - cbn. rewrite !not_elem_of_cons. repeat split; try done. apply not_elem_of_nil.
  - cbn. lia.
  - cbn. rewrite !elem_of_cons. tauto.
  - cbn. rewrite !elem_of_cons. tauto.
Defined.

Example boundary_lists_of_two_node_unit :
  let s' := build_tensors_list Demo.G Demo.two_node_unit in
  m_ip_tensors s' = [11; 12; 15; 25; 14]%positive ∧ m_op_tensors s' = [13]%positive.
Proof. by vm_compute. Qed.

(** ** [type.hpp] *)

(** C9. [is_type] holds exactly when the descriptor the handle reports is
    the descriptor object of the target type, the same address: another
    descriptor object never matches, whether it has the same name and
    version or describes a base class.  On a match [as_type] and
    [as_type_ptr] return the handle under the target type, otherwise they
    return null, and they return in all cases. *)
Theorem is_type_by_identity (T : addr) (value : TypeInfo.Value) :
  (TypeInfo.is_type T value = true ↔ TypeInfo.get_type_info value = T) ∧
  (∀ store : gmap addr TypeInfo.DiscreteTypeInfo,
     TypeInfo.get_type_info value ≠ T →
     store !! TypeInfo.get_type_info value = store !! T →
     TypeInfo.is_type T value = false) ∧
  TypeInfo.as_type T value =
    (if bool_decide (TypeInfo.get_type_info value = T) then Some value else None) ∧
  TypeInfo.as_type_ptr T value =
    (if bool_decide (TypeInfo.get_type_info value = T) then Some value else None).
Proof.
  unfold TypeInfo.as_type, TypeInfo.as_type_ptr, TypeInfo.is_type, TypeInfo.is_castable.
  repeat split.
  - apply bool_decide_eq_true_1.
  - apply bool_decide_eq_true_2.
  - intros _ Hne _. by apply bool_decide_eq_false_2.
Qed.

Lemma is_type_by_identity_witness :
  TypeInfo.is_type TypeDemo.VisitorAdapter_type_info TypeDemo.a_duplicate = false ∧
  TypeInfo.as_type TypeDemo.VisitorAdapter_type_info TypeDemo.an_enum_adapter = None ∧
  TypeInfo.as_type TypeDemo.EnumAdapter_type_info TypeDemo.an_enum_adapter =
    Some TypeDemo.an_enum_adapter.
Proof.
  split; [|split].
  - destruct (is_type_by_identity TypeDemo.VisitorAdapter_type_info
                TypeDemo.a_duplicate) as (_ & Hdup & _).
    apply (Hdup TypeDemo.descriptors); [discriminate|reflexivity].
  - by destruct (is_type_by_identity TypeDemo.VisitorAdapter_type_info
                   TypeDemo.an_enum_adapter) as (_ & _ & -> & _).
  - by destruct (is_type_by_identity TypeDemo.EnumAdapter_type_info
                   TypeDemo.an_enum_adapter) as (_ & _ & -> & _).
Defined.

(** ** The element-type mapper *)

(** C5. The mapper is the fixed table: f32 and f64 map to the two float
    types, each integer type to the integer type of its width whatever its
    sign, so that a signed and an unsigned type of one width map to the
    same type; boolean, bf16, dynamic and undefined fail with the fatal
    assertion, and only they do: no type is returned for them. *)
Theorem element_type_table (s : State) :
  get_mlir_type_element element.f32 s = Ok mlir.F32 s ∧
  get_mlir_type_element element.f64 s = Ok mlir.F64 s ∧
  get_mlir_type_element element.i8 s = Ok (mlir.IntegerType 8) s ∧
  get_mlir_type_element element.u8 s = Ok (mlir.IntegerType 8) s ∧
  get_mlir_type_element element.i16 s = Ok (mlir.IntegerType 16) s ∧
  get_mlir_type_element element.u16 s = Ok (mlir.IntegerType 16) s ∧
  get_mlir_type_element element.i32 s = Ok (mlir.IntegerType 32) s ∧
  get_mlir_type_element element.u32 s = Ok (mlir.IntegerType 32) s ∧
  get_mlir_type_element element.i64 s = Ok (mlir.IntegerType 64) s ∧
  get_mlir_type_element element.u64 s = Ok (mlir.IntegerType 64) s ∧
  (∀ t, t ∈ unsupported_element_types →
        get_mlir_type_element t s = Fatal "MLIR: Unsupported NGraph types" s) ∧
  (∀ t, t ∉ unsupported_element_types →
        ∃ ty, get_mlir_type_element t s = Ok ty s).
Proof.
  repeat split; try reflexivity.
  - intros t Ht. unfold unsupported_element_types in Ht.
    rewrite !elem_of_cons, elem_of_nil in Ht.
    by destruct Ht as [->|[->|[->|[->|[]]]]].
  - intros t Ht. unfold unsupported_element_types in Ht.
    rewrite !not_elem_of_cons in Ht.
    destruct t; try (by eexists); exfalso; tauto.
Qed.

Lemma element_type_table_witness :
  get_mlir_type_element element.bf16 Demo.add_unit =
    Fatal "MLIR: Unsupported NGraph types" Demo.add_unit ∧
  ∃ ty, get_mlir_type_element element.u16 Demo.add_unit = Ok ty Demo.add_unit.
Proof.
  destruct (element_type_table Demo.add_unit)
    as (_ & _ & _ & _ & _ & _ & _ & _ & _ & _ & Hbad & Hgood).
  split.
  - apply Hbad. unfold unsupported_element_types. rewrite !elem_of_cons. tauto.
  - apply Hgood. unfold unsupported_element_types.
    rewrite !not_elem_of_cons. repeat split; try discriminate. apply not_elem_of_nil.
Defined.

(** ** The tensor-to-value map *)

Ltac unfold_M :=
  unfold MLIRCompiler.bind, MLIRCompiler.ret, MLIRCompiler.get, MLIRCompiler.modify,
    NGRAPH_ASSERT, MLIRCompiler.fail, throw_unsupported_op in *.

Lemma get_tensor_value_eq tensor s :
  get_tensor_value tensor s =
  match m_tensor_to_value_map s !! tensor with
  | Some info => Ok info s
  | None => Fatal "Undefined tensor" s
  end.
Proof.
  unfold get_tensor_value. unfold_M.
  by destruct (m_tensor_to_value_map s !! tensor).
Qed.

Lemma update_tensor_value_eq tensor value s :
  update_tensor_value tensor value s =
  match m_tensor_to_value_map s !! tensor with
  | Some _ => Fatal "tensor value already defined" s
  | None => Ok () (set_tensor_to_value_map
                     (<[tensor := {| m_value := value |}]> (m_tensor_to_value_map s)) s)
  end.
Proof.
  unfold update_tensor_value, unordered_map_insert. unfold_M.
  destruct (m_tensor_to_value_map s !! tensor) eqn:Hl.
  - by rewrite bool_decide_false.
  - rewrite bool_decide_true by done. simpl. by rewrite Hl.
Qed.

Lemma unordered_map_insert_keeps tensor info m t i :
  m !! t = Some i → unordered_map_insert tensor info m !! t = Some i.
Proof.
  intros Ht. unfold unordered_map_insert.
  destruct (m !! tensor) eqn:Hl; [done|].
  rewrite lookup_insert_ne; [done|]. intros ->. congruence.
Qed.

Lemma populate_value_map_keeps i tensors m t info :
  m !! t = Some info → populate_value_map i tensors m !! t = Some info.
Proof.
  revert i m. induction tensors as [|x r IH]; intros i m Ht; [done|].
  simpl. apply IH. by apply unordered_map_insert_keeps.
Qed.

Lemma value_map_step_keeps s s' tensor info :
  value_map_step s s' →
  m_tensor_to_value_map s !! tensor = Some info →
  m_tensor_to_value_map s' !! tensor = Some info.
Proof.
  intros Hstep Ht. destruct Hstep as [t v s s' Hupd|i ts s].
  - rewrite update_tensor_value_eq in Hupd.
    destruct (m_tensor_to_value_map s !! t) eqn:Hl; [done|].
    injection Hupd as <-. simpl.
    rewrite lookup_insert_ne; [done|]. intros ->. congruence.
  - simpl. by apply populate_value_map_keeps.
Qed.

Lemma entries_le_1 tensor (m : gmap Tensor TensorInfo) : entries tensor m ≤ 1.
Proof.
  unfold entries. pose proof (NoDup_fst_map_to_list m) as Hnd.
  induction (map_to_list m) as [|[k v] l IH]; [simpl; lia|].
  rewrite fmap_cons in Hnd. apply NoDup_cons in Hnd as [Hk Hnd].
  rewrite filter_cons. destruct (decide ((k, v).1 = tensor)) as [Heq|]; [|auto].
  simpl in Heq. subst k. simpl.
  assert (filter (λ e : positive * TensorInfo, e.1 = tensor) l = []) as ->; [|simpl; lia].
  clear IH Hnd. induction l as [|[k' v'] l IH]; [done|].
  rewrite fmap_cons, not_elem_of_cons in Hk. destruct Hk as [Hne Hk].
  simpl in Hne. rewrite filter_cons, decide_False by (simpl; congruence). auto.
Qed.

(** C3. The tensor-to-value map is single-assignment.  [get_tensor_value]
    of a tensor without an entry fails with the fatal "Undefined tensor"
    and returns the entry otherwise; [update_tensor_value] of a tensor with
    an entry fails with the fatal "tensor value already defined" and leaves
    the map as it is, and otherwise adds the entry.  Along any sequence of
    the steps that write the map, an entry once made stays what it is, and
    the map never holds more than one entry for a tensor. *)
Theorem value_map_single_assignment :
  (∀ s tensor,
     m_tensor_to_value_map s !! tensor = None →
     get_tensor_value tensor s = Fatal "Undefined tensor" s) ∧
  (∀ s tensor info,
     m_tensor_to_value_map s !! tensor = Some info →
     get_tensor_value tensor s = Ok info s) ∧
  (∀ s tensor value,
     m_tensor_to_value_map s !! tensor ≠ None →
     update_tensor_value tensor value s = Fatal "tensor value already defined" s) ∧
  (∀ s tensor value,
     m_tensor_to_value_map s !! tensor = None →
     update_tensor_value tensor value s =
     Ok () (set_tensor_to_value_map
              (<[tensor := {| m_value := value |}]> (m_tensor_to_value_map s)) s)) ∧
  (∀ s s', rtc value_map_step s s' →
     (∀ tensor info,
        m_tensor_to_value_map s !! tensor = Some info →
        m_tensor_to_value_map s' !! tensor = Some info) ∧
     (∀ tensor, entries tensor (m_tensor_to_value_map s') ≤ 1)).
Proof.
  repeat split.
  - intros s t Ht. by rewrite get_tensor_value_eq, Ht.
  - intros s t info Ht. by rewrite get_tensor_value_eq, Ht.
  - intros s t v Ht. rewrite update_tensor_value_eq.
    by destruct (m_tensor_to_value_map s !! t).
  - intros s t v Ht. by rewrite update_tensor_value_eq, Ht.
  - induction H as [|s1 s2 s3 Hstep _ IH]; [done|].
    intros t info Ht. apply IH. by apply (value_map_step_keeps s1 s2).
  - intros t. apply entries_le_1.
Qed.

Lemma value_map_single_assignment_witness :
  let s1 := set_tensor_to_value_map
              (populate_value_map 0 [11; 12]%positive ∅) Demo.add_unit in
  let s2 := set_tensor_to_value_map
              (<[13%positive := {| m_value := ir.OpResult 0 |}]>
                 (m_tensor_to_value_map s1)) s1 in
  get_tensor_value 13%positive s1 = Fatal "Undefined tensor" s1 ∧
  update_tensor_value 13%positive (ir.OpResult 0) s1 = Ok () s2 ∧
  update_tensor_value 13%positive (ir.OpResult 1) s2 =
    Fatal "tensor value already defined" s2 ∧
  m_tensor_to_value_map s2 !! 12%positive = Some {| m_value := ir.BlockArgument 1 |} ∧
  entries 13%positive (m_tensor_to_value_map s2) ≤ 1.
Proof.
  intros s1 s2.
  destruct value_map_single_assignment as (Hget & _ & Hdef & Hnew & Hreach).
  assert (Hupd : update_tensor_value 13%positive (ir.OpResult 0) s1 = Ok () s2).
  { apply (Hnew s1). reflexivity. }
  assert (Hrtc : rtc value_map_step Demo.add_unit s2).
  { eapply rtc_l; [apply (step_populate 0 [11; 12]%positive)|].
    eapply rtc_l; [apply (step_update _ _ _ _ Hupd)|]. apply rtc_refl. }
  split; [apply Hget; reflexivity|]. split; [exact Hupd|].
  split; [apply Hdef; discriminate|].
  destruct (Hreach s1 s2) as [Hkeep _].
  { eapply rtc_l; [apply (step_update _ _ _ _ Hupd)|]. apply rtc_refl. }
  destruct (Hreach _ _ Hrtc) as [_ Hone].
  split; [apply Hkeep; reflexivity|apply Hone].
Defined.

(** ** [build_module] *)

Lemma get_mlir_type_state G tensor s ty s' :
  get_mlir_type G tensor s = Ok ty s' → s' = s.
Proof.
  unfold get_mlir_type, get_mlir_type_element. unfold_M.
  destruct (get_element_type G tensor); intros H; by inversion H.
Qed.

Lemma mapM_get_mlir_type_state G tensors s tys s' :
  MLIRCompiler.mapM (get_mlir_type G) tensors s = Ok tys s' →
  s' = s ∧ length tys = length tensors.
Proof.
  revert tys s'. induction tensors as [|t r IH]; intros tys s'; simpl.
  - unfold_M. intros H. by inversion H.
  - unfold MLIRCompiler.bind at 1.
    destruct (get_mlir_type G t s) as [ty s1|msg s1|msg s1|msg s1] eqn:Ht; try done.
    apply get_mlir_type_state in Ht as ->.
    unfold MLIRCompiler.bind at 1.
    destruct (MLIRCompiler.mapM (get_mlir_type G) r s) as [ys s2|msg s2|msg s2|msg s2] eqn:Hr;
      try done.
    destruct (IH ys s2 eq_refl) as [-> Hlen].
    unfold MLIRCompiler.ret. intros H. inversion H. subst. simpl. auto.
Qed.

(** What [build_module_function] returns and the state it leaves, when it
    succeeds. *)
Lemma build_module_function_ok G s function s' :
  build_module_function G s = Ok function s' →
  let s1 := build_tensors_list G (set_module (Some []) s) in
  m_ip_tensors s1 ≠ [] ∧ m_op_tensors s1 ≠ [] ∧
  s' = set_tensor_to_value_map
         (populate_value_map 0 (m_ip_tensors s1) (m_tensor_to_value_map s1)) s1 ∧
  ir.getNumArguments function = length (m_ip_tensors s1) ∧
  ir.getName function = "main" ∧ ir.getBlocks function = [[]].
Proof.
  intros H s1. unfold build_module_function in H. unfold_M. fold s1 in H.
  case_bool_decide as Hip; [|done]. case_bool_decide as Hop; [|done].
  destruct (MLIRCompiler.mapM (get_mlir_type G) (m_ip_tensors s1) s1)
    as [args s2|msg s2|msg s2|msg s2] eqn:Hargs; try done.
  apply mapM_get_mlir_type_state in Hargs as [-> Hlen].
  destruct (MLIRCompiler.mapM (get_mlir_type G) (m_op_tensors s1) s1)
    as [res s2|msg s2|msg s2|msg s2] eqn:Hres; try done.
  apply mapM_get_mlir_type_state in Hres as [-> _].
  inversion H. subst. simpl.
  repeat split; try done.
  - intros Hnil. by rewrite Hnil in Hip.
  - intros Hnil. by rewrite Hnil in Hop.
Qed.

(** C8. When the boundary-input list that [build_tensors_list] computes is
    empty, [build_module] fails with the fatal "Cannot have empty inputs
    list"; when the boundary-output list is empty, with the fatal "Cannot
    have empty outputs list".  The compiler is left as the analysis left
    it: the module has no function, no builder has been created, the value
    map is untouched. *)
Theorem empty_boundary_list_is_fatal (G : Graph) (s : State) :
  let s1 := build_tensors_list G (set_module (Some []) s) in
  (m_ip_tensors s1 = [] →
   build_module G s = Fatal "Cannot have empty inputs list" s1) ∧
  (m_ip_tensors s1 ≠ [] → m_op_tensors s1 = [] →
   build_module G s = Fatal "Cannot have empty outputs list" s1) ∧
  m_module s1 = Some [] ∧
  m_builder s1 = m_builder s ∧
  m_tensor_to_value_map s1 = m_tensor_to_value_map s.
Proof.
  intros s1. repeat split.
  - intros Hip. unfold build_module, build_module_function. unfold_M. fold s1.
    by rewrite Hip.
  - intros Hip Hop. unfold build_module, build_module_function. unfold_M. fold s1.
    rewrite Hop. rewrite bool_decide_true; [done|].
    destruct (m_ip_tensors s1); [done|]. simpl. lia.
  - unfold s1. by rewrite build_tensors_list_fold.
  - unfold s1. by rewrite build_tensors_list_fold.
  - unfold s1. by rewrite build_tensors_list_fold.
Qed.

Lemma empty_boundary_list_is_fatal_witness :
  (∃ s1, build_module Demo.G Demo.source_unit =
         Fatal "Cannot have empty inputs list" s1) ∧
  (∃ s1, build_module Demo.G Demo.sink_unit =
         Fatal "Cannot have empty outputs list" s1).
Proof.
  split.
  - eexists.
    by apply (proj1 (empty_boundary_list_is_fatal Demo.G Demo.source_unit)).
  - eexists.
    by apply (proj1 (proj2 (empty_boundary_list_is_fatal Demo.G Demo.sink_unit))).
Defined.

Lemma unordered_map_insert_other tensor info (m : gmap Tensor TensorInfo) t :
  t ≠ tensor → unordered_map_insert tensor info m !! t = m !! t.
Proof.
  intros Hne. unfold unordered_map_insert.
  destruct (m !! tensor); [done|]. by rewrite lookup_insert_ne.
Qed.

Lemma populate_value_map_other i tensors (m : gmap Tensor TensorInfo) t :
  t ∉ tensors → populate_value_map i tensors m !! t = m !! t.
Proof.
  revert i m. induction tensors as [|x r IH]; intros i m Ht; [done|].
  apply not_elem_of_cons in Ht as [Hne Ht]. simpl.
  rewrite IH by done. by apply unordered_map_insert_other.
Qed.

Lemma populate_value_map_at i tensors (m : gmap Tensor TensorInfo) k t :
  NoDup tensors → (∀ x, x ∈ tensors → m !! x = None) →
  tensors !! k = Some t →
  populate_value_map i tensors m !! t = Some {| m_value := ir.BlockArgument (i + k) |}.
Proof.
  revert i m k. induction tensors as [|x r IH]; intros i m k Hnd Hfresh Hk; [done|].
  apply NoDup_cons in Hnd as [Hx Hnd]. destruct k as [|k]; simpl in *.
  - injection Hk as ->. rewrite populate_value_map_other by done.
    unfold unordered_map_insert. rewrite Hfresh by apply elem_of_cons, or_introl, eq_refl.
    rewrite lookup_insert_eq. do 3 f_equal. lia.
  - rewrite (IH (S i) _ k); [do 3 f_equal; lia|done| |done].
    intros y Hy. rewrite unordered_map_insert_other.
    + apply Hfresh, elem_of_cons. by right.
    + intros ->. contradiction.
Qed.

Lemma populate_value_map_size i tensors (m : gmap Tensor TensorInfo) :
  NoDup tensors → (∀ x, x ∈ tensors → m !! x = None) →
  size (populate_value_map i tensors m) = size m + length tensors.
Proof.
  revert i m. induction tensors as [|x r IH]; intros i m Hnd Hfresh; simpl; [lia|].
  apply NoDup_cons in Hnd as [Hx Hnd]. rewrite IH; [|done|].
  - unfold unordered_map_insert.
    rewrite Hfresh by apply elem_of_cons, or_introl, eq_refl.
    rewrite map_size_insert_None; [lia|]. apply Hfresh, elem_of_cons. by left.
  - intros y Hy. rewrite unordered_map_insert_other.
    + apply Hfresh, elem_of_cons. by right.
    + intros ->. contradiction.
Qed.

Lemma entries_lookup tensor (m : gmap Tensor TensorInfo) :
  entries tensor m = match m !! tensor with Some _ => 1 | None => 0 end.
Proof.
  destruct (m !! tensor) as [info|] eqn:Hl.
  - pose proof (entries_le_1 tensor m) as Hle.
    apply elem_of_map_to_list in Hl.
    assert (Hin : (tensor, info) ∈ filter (λ e : positive * TensorInfo, e.1 = tensor)
                                      (map_to_list m)).
    { by apply list_elem_of_filter. }
    unfold entries in *.
    destruct (filter (λ e : positive * TensorInfo, e.1 = tensor) (map_to_list m));
      [by apply elem_of_nil in Hin|simpl in *; lia].
  - unfold entries.
    destruct (filter (λ e : positive * TensorInfo, e.1 = tensor) (map_to_list m))
      as [|[k v] l] eqn:Hf; [done|].
    assert (Hin : (k, v) ∈ filter (λ e : positive * TensorInfo, e.1 = tensor)
                             (map_to_list m)).
    { rewrite Hf. by left. }
    apply list_elem_of_filter in Hin as [Hk Hin]. simpl in Hk. subst k.
    apply elem_of_map_to_list in Hin. congruence.
Qed.

(** C10. On a freshly constructed compiler, when [build_module] has
    populated the map and before the builder exists: a tensor maps to the
    [k]-th argument of the function exactly when it is the [k]-th tensor of
    the boundary-input list; the map has no entry of another kind, one
    entry for each boundary-input tensor and none for any other tensor; the
    function has as many arguments as the list has tensors; and
    [get_tensor_value] of the [k]-th boundary-input tensor, as a builder
    calls it, returns the [k]-th argument. *)
Theorem value_map_seeded_with_arguments (G : Graph) (s s' : State) (function : ir.Function) :
  m_ip_tensors s = [] →
  m_tensor_to_value_map s = ∅ →
  build_module_function G s = Ok function s' →
  (∀ tensor k,
     m_tensor_to_value_map s' !! tensor = Some {| m_value := ir.BlockArgument k |} ↔
     m_ip_tensors s' !! k = Some tensor) ∧
  (∀ tensor info,
     m_tensor_to_value_map s' !! tensor = Some info →
     ∃ k, info = {| m_value := ir.BlockArgument k |} ∧ k < ir.getNumArguments function) ∧
  (∀ tensor,
     entries tensor (m_tensor_to_value_map s') =
     if bool_decide (tensor ∈ m_ip_tensors s') then 1 else 0) ∧
  size (m_tensor_to_value_map s') = length (m_ip_tensors s') ∧
  ir.getNumArguments function = length (m_ip_tensors s') ∧
  (∀ tensor k,
     m_ip_tensors s' !! k = Some tensor →
     get_tensor_value tensor (set_builder (Some function) s') =
     Ok {| m_value := ir.BlockArgument k |} (set_builder (Some function) s')).
Proof.
  intros Hip Hmap Hok.
  apply build_module_function_ok in Hok as (_ & _ & -> & Hargs & _ & _).
  set (s1 := build_tensors_list G (set_module (Some []) s)) in *.
  assert (Hm1 : m_tensor_to_value_map s1 = ∅).
  { unfold s1. by rewrite build_tensors_list_fold. }
  assert (Hnd : NoDup (m_ip_tensors s1)).
  { by apply (boundary_inputs_NoDup G (set_module (Some []) s)). }
  simpl. rewrite Hm1.
  assert (Hfresh : ∀ x, x ∈ m_ip_tensors s1 → (∅ : gmap Tensor TensorInfo) !! x = None).
  { intros x _. apply lookup_empty. }
  assert (Hat : ∀ tensor k, m_ip_tensors s1 !! k = Some tensor →
            populate_value_map 0 (m_ip_tensors s1) ∅ !! tensor =
            Some {| m_value := ir.BlockArgument k |}).
  { intros t k Hk. by rewrite (populate_value_map_at 0 _ _ k t). }
  assert (Hin : ∀ tensor info,
            populate_value_map 0 (m_ip_tensors s1) ∅ !! tensor = Some info →
            ∃ k, m_ip_tensors s1 !! k = Some tensor ∧
                 info = {| m_value := ir.BlockArgument k |}).
  { intros t info Hl. destruct (decide (t ∈ m_ip_tensors s1)) as [Ht|Ht].
    - apply list_elem_of_lookup in Ht as [k Hk]. exists k. split; [done|].
      rewrite (Hat t k Hk) in Hl. congruence.
    - rewrite populate_value_map_other, lookup_empty in Hl by done. done. }
  repeat split.
  - intros Hl. apply Hin in Hl as (k' & Hk' & Heq). by injection Heq as ->.
  - apply Hat.
  - intros t info Hl. apply Hin in Hl as (k & Hk & ->). exists k. split; [done|].
    rewrite Hargs. by apply lookup_lt_Some in Hk.
  - intros t. rewrite entries_lookup. case_bool_decide as Ht.
    + apply list_elem_of_lookup in Ht as [k Hk]. by rewrite (Hat t k Hk).
    + by rewrite populate_value_map_other, lookup_empty.
  - rewrite populate_value_map_size, map_size_empty by done. lia.
  - done.
  - intros t k Hk. rewrite get_tensor_value_eq. simpl. by rewrite (Hat t k Hk).
Qed.

Lemma value_map_seeded_with_arguments_witness :
  build_module_function Demo.G Demo.add_unit =
    Ok Demo.add_function Demo.add_unit_seeded ∧
  m_tensor_to_value_map Demo.add_unit_seeded !! 12%positive =
    Some {| m_value := ir.BlockArgument 1 |} ∧
  size (m_tensor_to_value_map Demo.add_unit_seeded) = 2.
Proof.
  assert (H : build_module_function Demo.G Demo.add_unit =
              Ok Demo.add_function Demo.add_unit_seeded)
    by (vm_compute; reflexivity).
  split; [exact H|].
  destruct (value_map_seeded_with_arguments Demo.G Demo.add_unit
              Demo.add_unit_seeded Demo.add_function eq_refl eq_refl H)
    as (Hiff & _ & _ & Hsize & _).
  split; [by apply Hiff|exact Hsize].
Defined.

(** ** Which failures are [unsupported_op] *)

Section NeverUnsupported.

Lemma never_ret {A} (a : A) : never_unsupported (MLIRCompiler.ret a).
Proof. by intros s msg s'. Qed.

Lemma never_get : never_unsupported MLIRCompiler.get.
Proof. by intros s msg s'. Qed.

Lemma never_modify f : never_unsupported (MLIRCompiler.modify f).
Proof. by intros s msg s'. Qed.

Lemma never_fail {A} msg : never_unsupported (@MLIRCompiler.fail A msg).
Proof. by intros s msg' s'. Qed.

Lemma never_NGRAPH_ASSERT cond msg : never_unsupported (NGRAPH_ASSERT cond msg).
Proof. intros s msg' s'. unfold NGRAPH_ASSERT. by destruct cond. Qed.

Lemma never_bind {A B} (m : M A) (k : A → M B) :
  never_unsupported m → (∀ a, never_unsupported (k a)) →
  never_unsupported (MLIRCompiler.bind m k).
Proof.
  intros Hm Hk s msg s'. unfold MLIRCompiler.bind.
  destruct (m s) as [a s1|msg1 s1|msg1 s1|msg1 s1] eqn:Hms; [apply Hk|done| |done].
  by apply Hm in Hms.
Qed.

Lemma never_mapM {A B} (f : A → M B) l :
  (∀ a, never_unsupported (f a)) → never_unsupported (MLIRCompiler.mapM f l).
Proof.
  intros Hf. induction l as [|x r IH]; simpl; [apply never_ret|].
  apply never_bind; [apply Hf|]. intros y.
  apply never_bind; [apply IH|]. intros ys. apply never_ret.
Qed.

Lemma never_malloc c : never_unsupported (malloc c).
Proof. by intros s msg s'. Qed.

Lemma never_free a : never_unsupported (free a).
Proof. intros s msg s'. unfold free. by destruct (heap s !! a). Qed.

Lemma never_C_assert B cond msg : never_unsupported (C_assert B cond msg).
Proof. intros s msg' s'. unfold C_assert. by destruct (NDEBUG B || cond). Qed.

End NeverUnsupported.

Create HintDb never.
#[local] Hint Resolve never_ret never_get never_modify never_fail
  never_NGRAPH_ASSERT never_malloc never_free never_C_assert : never.

Ltac never :=
  repeat first
    [ solve [auto with never]
    | apply never_bind; [|intros ?]
    | apply never_mapM; intros ? ].

Lemma never_get_tensor_value tensor : never_unsupported (get_tensor_value tensor).
Proof.
  unfold get_tensor_value. never.
  destruct (m_tensor_to_value_map _ !! tensor); never.
Qed.

Lemma never_update_tensor_value tensor value :
  never_unsupported (update_tensor_value tensor value).
Proof. unfold update_tensor_value. never. Qed.

Lemma never_builder_create op : never_unsupported (builder_create op).
Proof.
  intros s msg s'. unfold builder_create.
  destruct (m_builder s); [by destruct (ir.create op _)|done].
Qed.

#[local] Hint Resolve never_get_tensor_value never_update_tensor_value
  never_builder_create : never.

Lemma never_get_argument G ng_node i : never_unsupported (get_argument G ng_node i).
Proof. unfold get_argument. destruct (get_arguments G ng_node !! i); never. Qed.

#[local] Hint Resolve never_get_argument : never.



Lemma never_get_mlir_type G tensor : never_unsupported (get_mlir_type G tensor).
Proof.
  unfold get_mlir_type, get_mlir_type_element. never.
  destruct (get_element_type G tensor); never.
Qed.

#[local] Hint Resolve never_get_mlir_type : never.


Lemma never_lower_dialect B : never_unsupported (lower_dialect B).
Proof. unfold lower_dialect. never. destruct (m_module _); [never|by intros ? ? ?]. Qed.

Lemma never_optimize B : never_unsupported (optimize B).
Proof.
  unfold optimize. never. destruct (m_module _); [|by intros ? ? ?].
  destruct (run_lower_affine B _). never.
Qed.

Lemma never_allocate_memref_descriptor type :
  never_unsupported (allocate_memref_descriptor type).
Proof.
  unfold allocate_memref_descriptor. destruct (ir.dyn_cast_MemRefType type); never.
Qed.

Lemma never_allocate_memref_args_loop types args :
  never_unsupported (allocate_memref_args_loop types args).
Proof.
  revert args. induction types as [|t r IH]; intros args; simpl; [never|].
  apply never_bind; [apply never_allocate_memref_descriptor|].
  intros [d|]; apply IH.
Qed.

Lemma never_bind_arguments : never_unsupported bind_arguments.
Proof.
  unfold bind_arguments. never.
  destruct (_ ≫= ir.getNamedFunction "main"); never.
  apply never_allocate_memref_args_loop.
Qed.

Lemma never_allocate_temporaries n : never_unsupported (allocate_temporaries n).
Proof.
  induction n as [|n IH]; simpl; [never|].
  apply never_bind; [|by intros _]. unfold MLIRMemMgr_allocate. never.
Qed.

Lemma never_execute B : never_unsupported (execute B).
Proof.
  unfold execute. never. destruct (m_module _); [|never].
  destruct (convert_std_to_llvm B _). never.
  destruct (invoke_main B _ _). never. apply never_allocate_temporaries.
Qed.

Lemma never_free_all args : never_unsupported (free_all args).
Proof.
  induction args as [|a r IH]; simpl; [never|].
  apply never_bind; [|by intros _]. never.
Qed.

Lemma never_cleanup : never_unsupported cleanup.
Proof.
  unfold cleanup. never.
  - apply never_free_all.
  - case_bool_decide; never.
  - unfold MLIRMemMgr_freeAll. never.
Qed.






(** ** [bind_arguments] *)

Lemma fresh_not_live (h : gmap addr Cell) : h !! fresh (dom h) = None.
Proof. apply not_elem_of_dom, is_fresh. Qed.

Lemma allocate_memref_descriptor_ok type s d s' :
  allocate_memref_descriptor type s = Ok d s' →
  match ir.dyn_cast_MemRefType type with
  | None => d = None ∧ s' = s
  | Some shape =>
      ir.getNumDynamicDims shape = 0 ∧
      d = Some (fresh (dom (heap s))) ∧
      s' = set_heap (<[fresh (dom (heap s)) := StaticFloatMemRef None]> (heap s)) s
  end.
Proof.
  unfold allocate_memref_descriptor.
  destruct (ir.dyn_cast_MemRefType type) as [shape|].
  - unfold malloc. unfold_M. case_bool_decide as Hdyn; [|done].
    intros Hok. by inversion Hok.
  - unfold_M. intros Hok. by inversion Hok.
Qed.

Lemma set_heap_set_heap h1 h2 s : set_heap h1 (set_heap h2 s) = set_heap h1 s.
Proof. done. Qed.

Lemma allocate_memref_args_loop_ok types args s args' s' :
  allocate_memref_args_loop types args s = Ok args' s' →
  ∃ new,
    args' = args ++ new ∧
    s' = set_heap (heap s') s ∧
    NoDup new ∧
    length new = length (filter (λ t, is_Some (ir.dyn_cast_MemRefType t)) types) ∧
    (∀ k, k ∈ new → heap s !! k = None ∧ heap s' !! k = Some (StaticFloatMemRef None)) ∧
    (∀ k, k ∉ new → heap s' !! k = heap s !! k).
Proof.
  revert args s. induction types as [|t r IH]; intros args s; simpl.
  - unfold_M. intros H. inversion H. subst. exists []. rewrite app_nil_r.
    split; [done|]. split; [by destruct s'|]. split; [constructor|].
    split; [done|]. split; intros k Hk; [by apply elem_of_nil in Hk|done].
  - unfold MLIRCompiler.bind at 1.
    destruct (allocate_memref_descriptor t s) as [d s1|msg s1|msg s1|msg s1] eqn:Hd; try done.
    apply allocate_memref_descriptor_ok in Hd. rewrite filter_cons.
    destruct (ir.dyn_cast_MemRefType t) as [shape|] eqn:Hcast.
    + destruct Hd as (_ & -> & ->). intros H.
      apply IH in H as (new & -> & Hs' & Hnd & Hlen & Hnew & Hold).
      set (a := fresh (dom (heap s))) in *.
      assert (Ha : a ∉ new).
      { intros Hin. apply Hnew in Hin as [Hin _]. simpl in Hin.
        by rewrite lookup_insert_eq in Hin. }
      exists (a :: new). rewrite decide_True by done.
      repeat split.
      * by rewrite <- app_assoc.
      * by rewrite Hs' at 1.
      * by constructor.
      * simpl. by rewrite Hlen.
      * apply elem_of_cons in H as [->|Hk]; [apply fresh_not_live|].
        destruct (Hnew k Hk) as [Hk1 _]. simpl in Hk1.
        rewrite lookup_insert_ne in Hk1; [done|]. intros <-. contradiction.
      * apply elem_of_cons in H as [->|Hk]; [|by apply Hnew].
        rewrite Hold by done. simpl. by rewrite lookup_insert_eq.
      * intros k Hk. apply not_elem_of_cons in Hk as [Hne Hk].
        rewrite Hold by done. simpl. by rewrite lookup_insert_ne.
    + destruct Hd as [-> ->]. rewrite decide_False by (by intros [? ?]). apply IH.
Qed.

(** The loop that stores the external pointers into the descriptors. *)
Lemma assign_data_loop n s :
  NoDup (m_invoke_args s) →
  n ≤ length (m_invoke_args s) →
  n ≤ length (m_external_tensors s) →
  let s' := foldl assign_data s (seq 0 n) in
  s' = set_heap (heap s') s ∧
  (∀ i d, i < n → m_invoke_args s !! i = Some d →
     ∃ data, m_external_tensors s !! i = Some data ∧
             heap s' !! d = Some (StaticFloatMemRef data)) ∧
  (∀ k, k ∉ m_invoke_args s → heap s' !! k = heap s !! k).
Proof.
  intros Hnd. induction n as [|n IH]; intros Hargs Hext.
  - simpl. split; [by destruct s|]. split; [intros; lia|done].
  - rewrite seq_S, foldl_app. simpl.
    specialize (IH ltac:(lia) ltac:(lia)). cbv zeta in IH.
    destruct IH as (Hs' & Hset & Hother).
    set (s1 := foldl assign_data s (seq 0 n)) in *.
    destruct (lookup_lt_is_Some_2 (m_invoke_args s) n) as [dn Hdn]; [lia|].
    destruct (lookup_lt_is_Some_2 (m_external_tensors s) n) as [en Hen]; [lia|].
    assert (Ha : m_invoke_args s1 = m_invoke_args s) by (by rewrite Hs').
    assert (He : m_external_tensors s1 = m_external_tensors s) by (by rewrite Hs').
    assert (Hsh : ∀ h, set_heap h s1 = set_heap h s) by (intros h; by rewrite Hs').
    unfold assign_data. rewrite Ha, He, Hdn, Hen, Hsh. simpl.
    split; [done|]. split.
    + intros i d Hi Hd. destruct (decide (i = n)) as [->|Hne].
      * exists en. split; [done|]. simpl.
        assert (d = dn) as -> by congruence. by rewrite lookup_insert_eq.
      * destruct (Hset i d) as (data & Hdata & Hl); [lia|done|].
        exists data. split; [done|]. simpl. rewrite lookup_insert_ne; [done|].
        intros <-. apply Hne. by apply (NoDup_lookup _ _ _ dn Hnd).
    + intros k Hk. simpl. rewrite lookup_insert_ne; [by apply Hother|].
      intros <-. apply Hk. by apply list_elem_of_lookup_2 in Hdn.
Qed.

(** Inversion of successful computations. *)
Lemma bind_Ok_inv {A B} (m : M A) (k : A → M B) s b s' :
  MLIRCompiler.bind m k s = Ok b s' → ∃ a s1, m s = Ok a s1 ∧ k a s1 = Ok b s'.
Proof.
  unfold MLIRCompiler.bind. destruct (m s) as [a s1|msg s1|msg s1|msg s1]; try done.
  intros Hk. by exists a, s1.
Qed.

Lemma NGRAPH_ASSERT_Ok_inv cond msg s u s' :
  NGRAPH_ASSERT cond msg s = Ok u s' → cond = true ∧ s' = s.
Proof. unfold NGRAPH_ASSERT. destruct cond; [|done]. intros Hok. by inversion Hok. Qed.

Lemma get_Ok_inv s a s' : MLIRCompiler.get s = Ok a s' → a = s ∧ s' = s.
Proof. unfold MLIRCompiler.get. intros Hok. by inversion Hok. Qed.

Lemma modify_Ok_inv f s u s' : MLIRCompiler.modify f s = Ok u s' → s' = f s.
Proof. unfold MLIRCompiler.modify. intros Hok. by inversion Hok. Qed.

Lemma malloc_Ok_inv c s a s' :
  malloc c s = Ok a s' →
  a = fresh (dom (heap s)) ∧ s' = set_heap (<[a := c]> (heap s)) s.
Proof. unfold malloc. intros Hok. by inversion Hok. Qed.

Ltac step_ok H a s1 H1 := apply bind_Ok_inv in H as (a & s1 & H1 & H).

Lemma bind_arguments_ok s s' :
  bind_arguments s = Ok () s' →
  ∃ func descs slot,
    m_module s ≫= ir.getNamedFunction "main" = Some func ∧
    ir.getBlocks func ≠ [] ∧
    s' = set_invoke_args (descs ++ [slot]) (set_heap (heap s') s) ∧
    NoDup (descs ++ [slot]) ∧
    length descs = length (memref_parameters func) ∧
    length descs = length (m_external_tensors s) ∧
    length descs ≠ 0 ∧
    Z.of_nat (length descs) = get_mem_mgr_arg_id func ∧
    (∀ k, k ∈ descs ++ [slot] → heap s !! k = None) ∧
    (∀ k, k ∉ descs ++ [slot] → heap s' !! k = heap s !! k) ∧
    (∀ i d, descs !! i = Some d →
       ∃ data, m_external_tensors s !! i = Some data ∧
               heap s' !! d = Some (StaticFloatMemRef data)) ∧
    heap s' !! slot = Some MemMgrSlot.
Proof.
  intros H. unfold bind_arguments in H.
  step_ok H s0 s0' H0. apply get_Ok_inv in H0 as [-> ->].
  step_ok H u1 s1 H1. apply NGRAPH_ASSERT_Ok_inv in H1 as [_ ->].
  destruct (m_module s ≫= ir.getNamedFunction "main") as [func|] eqn:Hfunc; [|done].
  step_ok H u2 s2 H2. apply NGRAPH_ASSERT_Ok_inv in H2 as [Hblocks ->].
  apply bool_decide_eq_true_1 in Hblocks.
  step_ok H descs s3 H3. unfold allocate_memref_args in H3.
  apply allocate_memref_args_loop_ok in H3
    as (new & Hdescs & Hs3 & Hnd & Hlen & Hnew & Hold).
  simpl in Hdescs. subst new.
  step_ok H u4 s4 H4. apply NGRAPH_ASSERT_Ok_inv in H4 as [Hnz ->].
  apply bool_decide_eq_true_1 in Hnz.
  step_ok H u5 s5 H5. apply modify_Ok_inv in H5 as ->.
  step_ok H s6 s6' H6. apply get_Ok_inv in H6 as [-> ->].
  step_ok H u7 s7 H7. apply NGRAPH_ASSERT_Ok_inv in H7 as [Hsize ->].
  apply bool_decide_eq_true_1 in Hsize. simpl in Hsize.
  step_ok H u8 s8 H8. apply modify_Ok_inv in H8 as ->.
  step_ok H slot s9 H9. apply malloc_Ok_inv in H9 as [Hslot ->].
  step_ok H s10 s10' H10. apply get_Ok_inv in H10 as [-> ->].
  step_ok H u11 s11 H11. apply NGRAPH_ASSERT_Ok_inv in H11 as [Hid ->].
  apply bool_decide_eq_true_1 in Hid.
  apply modify_Ok_inv in H. subst s'.
  set (sa := set_invoke_args descs s3) in *.
  assert (Hext3 : m_external_tensors s3 = m_external_tensors s) by (by rewrite Hs3).
  destruct (assign_data_loop (length descs) sa) as (Hsl & Hset & Hother);
    [done|done|simpl; lia|].
  simpl in Hset, Hother, Hsl, Hslot, Hid. simpl.
  set (sl := foldl assign_data sa (seq 0 (length descs))) in *.
  assert (Hargs : m_invoke_args sl = descs) by (by rewrite Hsl).
  rewrite Hargs in *.
  assert (Hslot_fresh : heap sl !! slot = None) by (rewrite Hslot; apply fresh_not_live).
  assert (Hslot_new : slot ∉ descs).
  { intros Hin. apply list_elem_of_lookup in Hin as [i Hi].
    destruct (Hset i slot) as (data & _ & Hl); [by apply lookup_lt_Some in Hi|done|].
    congruence. }
  exists func, descs, slot. simpl.
  split; [done|]. split; [done|]. split.
  { generalize (<[slot:=MemMgrSlot]> (heap sl)). intros h.
    rewrite Hsl. generalize (heap sl). intros h'. unfold sa.
    rewrite Hs3. by destruct s. }
  split. { apply NoDup_app. split; [done|]. split; [|apply NoDup_singleton].
           intros x Hx Hx'%list_elem_of_singleton. apply Hslot_new. by rewrite <- Hx'. }
  split; [done|]. split; [exact (eq_trans Hsize (f_equal length Hext3))|].
  split; [done|]. split; [done|].
  split.
  { intros k Hk. apply elem_of_app in Hk as [Hk|Hk%list_elem_of_singleton].
    - by apply Hnew.
    - rewrite Hk, <- (Hold slot), <- (Hother slot) by done. done. }
  split.
  { intros k Hk. apply not_elem_of_app in Hk as [Hk Hk'].
    rewrite list_elem_of_singleton in Hk'.
    rewrite lookup_insert_ne by done. rewrite Hother by done. by apply Hold. }
  split.
  { intros i d Hi. destruct (Hset i d) as (data & Hdata & Hl);
      [by apply lookup_lt_Some in Hi|done|].
    exists data. split; [exact (eq_trans (f_equal (λ l, l !! i) (eq_sym Hext3)) Hdata)|].
    rewrite lookup_insert_ne; [done|]. intros <-.
    apply Hslot_new. by apply list_elem_of_lookup_2 in Hi. }
  by rewrite lookup_insert_eq.
Qed.

(** [bind_arguments] returns or throws. *)
Lemma never_aborts_bind {A B} (m : M A) (k : A → M B) :
  never_aborts m → (∀ a, never_aborts (k a)) →
  never_aborts (MLIRCompiler.bind m k).
Proof.
  intros Hm Hk s msg s'. unfold MLIRCompiler.bind.
  destruct (m s) as [a s1|msg1 s1|msg1 s1|msg1 s1] eqn:Hms; [apply Hk|done..|].
  by apply Hm in Hms.
Qed.

Lemma never_aborts_NGRAPH_ASSERT cond msg : never_aborts (NGRAPH_ASSERT cond msg).
Proof. intros s msg' s'. unfold NGRAPH_ASSERT. by destruct cond. Qed.

Ltac never_aborts :=
  repeat first
    [ solve [by intros ? ? ?]
    | apply never_aborts_NGRAPH_ASSERT
    | apply never_aborts_bind; [|intros ?] ].

Lemma never_aborts_allocate_memref_args_loop types args :
  never_aborts (allocate_memref_args_loop types args).
Proof.
  revert args. induction types as [|t r IH]; intros args; simpl; [never_aborts|].
  apply never_aborts_bind.
  - unfold allocate_memref_descriptor.
    destruct (ir.dyn_cast_MemRefType t); never_aborts.
  - intros [d|]; apply IH.
Qed.

Lemma never_aborts_bind_arguments : never_aborts bind_arguments.
Proof.
  unfold bind_arguments. never_aborts.
  destruct (_ ≫= ir.getNamedFunction "main"); never_aborts.
  apply never_aborts_allocate_memref_args_loop.
Qed.

(** [bind_arguments] does not invoke the compiled code, however it ends. *)
Section Preserves.
Context {X : Type} (f : State → X).

Lemma preserves_ret {A} (a : A) : preserves f (MLIRCompiler.ret a).
Proof. by intros s. Qed.

Lemma preserves_get : preserves f MLIRCompiler.get.
Proof. by intros s. Qed.

Lemma preserves_fail {A} msg : preserves f (@MLIRCompiler.fail A msg).
Proof. by intros s. Qed.

Lemma preserves_NGRAPH_ASSERT cond msg : preserves f (NGRAPH_ASSERT cond msg).
Proof. intros s. unfold NGRAPH_ASSERT. by destruct cond. Qed.

Lemma preserves_C_assert B cond msg : preserves f (C_assert B cond msg).
Proof. intros s. unfold C_assert. by destruct (NDEBUG B || cond). Qed.

Lemma preserves_modify g : (∀ s, f (g s) = f s) → preserves f (MLIRCompiler.modify g).
Proof. intros Hg s. apply Hg. Qed.

Lemma preserves_bind {A B} (m : M A) (k : A → M B) :
  preserves f m → (∀ a, preserves f (k a)) → preserves f (MLIRCompiler.bind m k).
Proof.
  intros Hm Hk s. unfold MLIRCompiler.bind. specialize (Hm s).
  destruct (m s) as [a s1|msg s1|msg s1|msg s1]; simpl in *; [|done..].
  by rewrite Hk.
Qed.
End Preserves.

Lemma foldl_assign_data_jit_invocations s l :
  jit_invocations (foldl assign_data s l) = jit_invocations s.
Proof.
  revert s. induction l as [|i r IH]; intros s; [done|].
  simpl. rewrite IH. unfold assign_data.
  by destruct (m_invoke_args s !! i), (m_external_tensors s !! i).
Qed.

Lemma foldl_assign_data_invoke_args s l :
  m_invoke_args (foldl assign_data s l) = m_invoke_args s.
Proof.
  revert s. induction l as [|i r IH]; intros s; [done|].
  simpl. rewrite IH. unfold assign_data.
  by destruct (m_invoke_args s !! i), (m_external_tensors s !! i).
Qed.

Lemma preserves_allocate_memref_args_loop types args :
  preserves jit_invocations (allocate_memref_args_loop types args).
Proof.
  revert args. induction types as [|t r IH]; intros args; simpl.
  - apply preserves_ret.
  - apply preserves_bind.
    + unfold allocate_memref_descriptor.
      destruct (ir.dyn_cast_MemRefType t); [|apply preserves_ret].
      apply preserves_bind; [apply preserves_NGRAPH_ASSERT|]. intros _.
      apply preserves_bind; [by intros s|]. intros a. apply preserves_ret.
    + intros [d|]; apply IH.
Qed.

Lemma preserves_bind_arguments : preserves jit_invocations bind_arguments.
Proof.
  unfold bind_arguments.
  apply preserves_bind; [apply preserves_get|]. intros s0.
  apply preserves_bind; [apply preserves_NGRAPH_ASSERT|]. intros _.
  destruct (_ ≫= ir.getNamedFunction "main"); [|apply preserves_fail].
  apply preserves_bind; [apply preserves_NGRAPH_ASSERT|]. intros _.
  apply preserves_bind; [apply preserves_allocate_memref_args_loop|]. intros descs.
  apply preserves_bind; [apply preserves_NGRAPH_ASSERT|]. intros _.
  apply preserves_bind; [by apply preserves_modify|]. intros _.
  apply preserves_bind; [apply preserves_get|]. intros s1.
  apply preserves_bind; [apply preserves_NGRAPH_ASSERT|]. intros _.
  apply preserves_bind.
  { apply preserves_modify. intros s. apply foldl_assign_data_jit_invocations. }
  intros _. apply preserves_bind; [by intros s|]. intros slot.
  apply preserves_bind; [apply preserves_get|]. intros s2.
  apply preserves_bind; [apply preserves_NGRAPH_ASSERT|]. intros _.
  by apply preserves_modify.
Qed.

Lemma allocate_memref_args_loop_total types args s :
  Forall static_type types →
  ∃ args' s', allocate_memref_args_loop types args s = Ok args' s'.
Proof.
  intros Hstatic. revert args s.
  induction Hstatic as [|t r Ht _ IH]; intros args s; simpl.
  - by eexists _, _.
  - unfold MLIRCompiler.bind at 1. unfold allocate_memref_descriptor.
    unfold static_type in Ht.
    destruct (ir.dyn_cast_MemRefType t) as [shape|].
    + unfold malloc. unfold_M. rewrite bool_decide_true by done. apply IH.
    + unfold_M. apply IH.
Qed.

Lemma bind_arguments_total s func :
  m_module s ≫= ir.getNamedFunction "main" = Some func →
  (Z.of_nat (ir.getNumArguments func) < 2 ^ 32)%Z →
  ir.getBlocks func ≠ [] →
  Forall static_type (ir.getArgumentTypes func) →
  length (memref_parameters func) = length (m_external_tensors s) →
  length (memref_parameters func) ≠ 0 →
  length (memref_parameters func) + 1 = ir.getNumArguments func →
  ∃ s', bind_arguments s = Ok () s'.
Proof.
  intros Hfunc Hbound Hblocks Hstatic Hext Hnz Hlast.
  destruct (allocate_memref_args_loop_total _ [] s Hstatic) as (descs & s3 & Halloc).
  pose proof Halloc as Hok.
  apply allocate_memref_args_loop_ok in Hok as (new & Hdescs & Hs3 & _ & Hlen & _).
  simpl in Hdescs. subst new. fold (memref_parameters func) in Hlen.
  assert (Hext3 : m_external_tensors s3 = m_external_tensors s) by (by rewrite Hs3).
  unfold bind_arguments, allocate_memref_args.
  unfold MLIRCompiler.bind at 1. simpl.
  unfold MLIRCompiler.bind at 1. unfold NGRAPH_ASSERT at 1.
  rewrite bool_decide_true by (by destruct (m_module s)).
  rewrite Hfunc.
  unfold MLIRCompiler.bind at 1. unfold NGRAPH_ASSERT at 1.
  rewrite bool_decide_true by done.
  unfold MLIRCompiler.bind at 1. rewrite Halloc.
  unfold malloc. unfold_M. simpl.
  rewrite bool_decide_true by lia.
  rewrite bool_decide_true by (rewrite Hext3; lia).
  rewrite bool_decide_true; [by eexists|].
  rewrite foldl_assign_data_invoke_args. simpl.
  unfold get_mem_mgr_arg_id. rewrite <- Hlast, Hlen.
  rewrite Z.mod_small; lia.
Qed.

(** C6. [bind_arguments], for the function [main] of the module.
    Allocation makes one descriptor with a null data pointer for each
    declared parameter of memref type, parameters of another type such as
    the one of the memory manager getting none.  When their number is not
    the size of the table of external buffers the call fails fatally,
    without an invocation of the compiled code, and [execute] is not
    reached.  When the call succeeds, the invocation arguments are these
    descriptors, the [i]-th one holding the [i]-th external pointer,
    followed by one more block, the slot of the memory manager, in the last
    position, and there are as many invocation arguments as the function
    declares parameters, the one of the memory manager included.  The call
    does succeed when the function has a block, its memrefs are static and
    as many as the external buffers, at least one, and exactly one declared
    parameter is not a memref. *)
Theorem bind_arguments_protocol (s : State) (func : ir.Function) :
  m_module s ≫= ir.getNamedFunction "main" = Some func →
  (Z.of_nat (ir.getNumArguments func) < 2 ^ 32)%Z →
  let params := memref_parameters func in
  (Forall static_type (ir.getArgumentTypes func) →
   ∃ descs s1,
     allocate_memref_args func s = Ok descs s1 ∧
     length descs = length params ∧ NoDup descs ∧
     ∀ d, d ∈ descs →
          heap s !! d = None ∧ heap s1 !! d = Some (StaticFloatMemRef None)) ∧
  (length params ≠ length (m_external_tensors s) →
   ∃ msg s',
     bind_arguments s = Fatal msg s' ∧
     jit_invocations s' = jit_invocations s ∧
     ∀ B, MLIRCompiler.bind bind_arguments (λ _, execute B) s = Fatal msg s') ∧
  (∀ s', bind_arguments s = Ok () s' →
     ∃ descs slot,
       m_invoke_args s' = descs ++ [slot] ∧
       length descs = length params ∧
       length descs = length (m_external_tensors s) ∧
       (∀ i d, descs !! i = Some d →
          ∃ data, m_external_tensors s !! i = Some data ∧
                  heap s' !! d = Some (StaticFloatMemRef data)) ∧
       heap s' !! slot = Some MemMgrSlot ∧
       length (m_invoke_args s') = ir.getNumArguments func ∧
       jit_invocations s' = jit_invocations s) ∧
  (ir.getBlocks func ≠ [] →
   Forall static_type (ir.getArgumentTypes func) →
   length params = length (m_external_tensors s) →
   length params ≠ 0 →
   length params + 1 = ir.getNumArguments func →
   ∃ s', bind_arguments s = Ok () s').
Proof.
  intros Hfunc Hbound params.
  assert (Hparams : length params ≤ ir.getNumArguments func).
  { unfold params, memref_parameters, ir.getNumArguments. apply length_filter. }
  split; [|split; [|split]].
  - intros Hstatic.
    destruct (allocate_memref_args_loop_total _ [] s Hstatic) as (descs & s1 & Halloc).
    exists descs, s1. split; [done|].
    apply allocate_memref_args_loop_ok in Halloc
      as (new & Hdescs & _ & Hnd & Hlen & Hnew & _).
    simpl in Hdescs. subst new.
    split; [exact Hlen|]. split; [done|]. intros d Hd. by apply Hnew.
  - intros Hne.
    pose proof (preserves_bind_arguments s) as Hjit.
    destruct (bind_arguments s) as [[] s'|msg s'|msg s'|msg s'] eqn:Hbind.
    + apply bind_arguments_ok in Hbind
        as (func' & descs & slot & Hfunc' & _ & _ & _ & Hlen & Hext & _).
      rewrite Hfunc in Hfunc'. injection Hfunc' as <-.
      fold params in Hlen. congruence.
    + exists msg, s'. repeat split; [done|].
      intros B. unfold MLIRCompiler.bind. by rewrite Hbind.
    + by apply never_bind_arguments in Hbind.
    + by apply never_aborts_bind_arguments in Hbind.
  - intros s' Hbind. pose proof (preserves_bind_arguments s) as Hjit.
    rewrite Hbind in Hjit. simpl in Hjit.
    apply bind_arguments_ok in Hbind
      as (func' & descs & slot & Hfunc' & _ & Hs' & _ & Hlen & Hext & _ & Hid & _ & _
          & Hdata & Hslot).
    rewrite Hfunc in Hfunc'. injection Hfunc' as <-. fold params in Hlen.
    exists descs, slot. rewrite Hs'. simpl.
    repeat split; try done.
    rewrite length_app. simpl. unfold get_mem_mgr_arg_id in Hid.
    destruct (ir.getNumArguments func) as [|n] eqn:Hn.
    + exfalso. assert (Hzero : length descs = 0) by lia.
      rewrite Hzero in Hid. by vm_compute in Hid.
    + rewrite Z.mod_small in Hid; lia.
  - intros. by apply (bind_arguments_total s func).
Qed.

Lemma bind_arguments_protocol_witness :
  (∃ s', bind_arguments (Demo.lowered Demo.add_unit) = Ok () s' ∧
         length (m_invoke_args s') = 4) ∧
  (∃ msg s', bind_arguments (Demo.lowered Demo.add_unit_short) = Fatal msg s' ∧
             jit_invocations s' = 0).
Proof.
  assert (Hstatic : Forall static_type (ir.getArgumentTypes Demo.lowered_main)).
  { repeat constructor. }
  split.
  - destruct (bind_arguments_protocol (Demo.lowered Demo.add_unit)
                Demo.lowered_main) as (_ & _ & Hleaves & Hsucceeds).
    { vm_compute. reflexivity. }
    { vm_compute. reflexivity. }
    destruct Hsucceeds as [s' Hs']; [done|exact Hstatic|reflexivity|done|reflexivity|].
    exists s'. split; [done|].
    by destruct (Hleaves s' Hs') as (descs & slot & _ & _ & _ & _ & _ & -> & _).
  - destruct (bind_arguments_protocol (Demo.lowered Demo.add_unit_short)
                Demo.lowered_main) as (_ & Hmismatch & _).
    { vm_compute. reflexivity. }
    { vm_compute. reflexivity. }
    destruct Hmismatch as (msg & s' & Hfatal & Hjit & _); [by vm_compute|].
    by exists msg, s'.
Defined.

(** ** [cleanup] and the phases before it *)

Create HintDb pres.
#[local] Hint Resolve preserves_ret preserves_get preserves_fail
  preserves_NGRAPH_ASSERT preserves_C_assert : pres.

Ltac pres :=
  repeat first
    [ solve [auto with pres]
    | apply preserves_bind; [|intros ?]
    | apply preserves_modify; intros ?; reflexivity ].

Lemma preserves_mapM {X A B} (f : State → X) (g : A → M B) l :
  (∀ a, preserves f (g a)) → preserves f (MLIRCompiler.mapM g l).
Proof.
  intros Hg. induction l as [|x r IH]; simpl; [apply preserves_ret|].
  apply preserves_bind; [apply Hg|]. intros y.
  apply preserves_bind; [apply IH|]. intros ys. apply preserves_ret.
Qed.

Lemma memory_get_tensor_value tensor : preserves memory (get_tensor_value tensor).
Proof.
  unfold get_tensor_value. pres. destruct (m_tensor_to_value_map _ !! tensor); pres.
Qed.

Lemma memory_update_tensor_value tensor value :
  preserves memory (update_tensor_value tensor value).
Proof. unfold update_tensor_value. pres. Qed.

Lemma memory_builder_create op : preserves memory (builder_create op).
Proof.
  intros s. unfold builder_create.
  destruct (m_builder s); [by destruct (ir.create op _)|done].
Qed.

Lemma memory_get_argument G ng_node i : preserves memory (get_argument G ng_node i).
Proof. unfold get_argument. destruct (get_arguments G ng_node !! i); pres. Qed.

#[local] Hint Resolve memory_get_tensor_value memory_update_tensor_value
  memory_builder_create memory_get_argument : pres.

Lemma memory_create_binary_op G BinOp ng_node :
  preserves memory (create_binary_op G BinOp ng_node).
Proof. unfold create_binary_op. pres. Qed.

Lemma memory_create_return : preserves memory create_return.
Proof. unfold create_return. pres. apply preserves_mapM. intros t. pres. Qed.

Lemma memory_op_dispatcher G key second np :
  op_dispatcher_find G key = Some second → preserves memory (second np).
Proof.
  unfold op_dispatcher_find, op_dispatcher. simpl.
  repeat case_decide; simpl; intros Hsome; inversion Hsome; subst.
  - unfold create_op_Add. pose proof (memory_create_binary_op G). pres.
  - unfold create_op_MatmulBias. pose proof (memory_create_binary_op G). pres.
Qed.

Lemma memory_build_ng_dialect G : preserves memory (build_ng_dialect G).
Proof.
  unfold build_ng_dialect. pose proof memory_create_return.
  apply preserves_bind; [pres|]. intros s.
  apply preserves_bind; [pres|]. intros _.
  apply preserves_bind; [|by intros _].
  destruct (m_sub_graph s !! 0) as [np|]; [|pres].
  destruct (op_dispatcher_find G (TI G np)) as [second|] eqn:Hfind; [|by intros ?].
  apply preserves_bind; [by apply (memory_op_dispatcher G (TI G np))|].
  intros [v|]; pres.
Qed.

Lemma memory_get_mlir_type G tensor : preserves memory (get_mlir_type G tensor).
Proof.
  unfold get_mlir_type, get_mlir_type_element. pres.
  destruct (get_element_type G tensor); pres.
Qed.

Lemma memory_build_module G : preserves memory (build_module G).
Proof.
  unfold build_module, build_module_function, build_module_body.
  pose proof (memory_build_ng_dialect G). pose proof (memory_get_mlir_type G).
  apply preserves_bind.
  - apply preserves_bind; [pres|]. intros _.
    apply preserves_bind.
    { apply preserves_modify. intros s. by rewrite build_tensors_list_fold. }
    intros _. pres; apply preserves_mapM; auto.
  - intros f. pres. apply preserves_modify. intros s.
    by destruct (m_builder s), (m_module s).
Qed.

Lemma memory_lower_dialect B : preserves memory (lower_dialect B).
Proof. unfold lower_dialect. pres. destruct (m_module _); [pres|by intros ?]. Qed.

Lemma memory_optimize B : preserves memory (optimize B).
Proof.
  unfold optimize. pres. destruct (m_module _); [|by intros ?].
  destruct (run_lower_affine B _). pres.
Qed.

Lemma untouched_get_tensor_value tensor :
  preserves untouched_by_build (get_tensor_value tensor).
Proof.
  unfold get_tensor_value. pres. destruct (m_tensor_to_value_map _ !! tensor); pres.
Qed.

Lemma untouched_update_tensor_value tensor value :
  preserves untouched_by_build (update_tensor_value tensor value).
Proof. unfold update_tensor_value. pres. Qed.

Lemma untouched_builder_create op : preserves untouched_by_build (builder_create op).
Proof.
  intros s. unfold builder_create.
  destruct (m_builder s); [by destruct (ir.create op _)|done].
Qed.

Lemma untouched_get_argument G ng_node i :
  preserves untouched_by_build (get_argument G ng_node i).
Proof. unfold get_argument. destruct (get_arguments G ng_node !! i); pres. Qed.

#[local] Hint Resolve untouched_get_tensor_value untouched_update_tensor_value
  untouched_builder_create untouched_get_argument : pres.

Lemma untouched_create_binary_op G BinOp ng_node :
  preserves untouched_by_build (create_binary_op G BinOp ng_node).
Proof. unfold create_binary_op. pres. Qed.

Lemma untouched_create_return : preserves untouched_by_build create_return.
Proof. unfold create_return. pres. apply preserves_mapM. intros t. pres. Qed.

Lemma untouched_op_dispatcher G key second np :
  op_dispatcher_find G key = Some second → preserves untouched_by_build (second np).
Proof.
  unfold op_dispatcher_find, op_dispatcher. simpl.
  repeat case_decide; simpl; intros Hsome; inversion Hsome; subst.
  - unfold create_op_Add. pose proof (untouched_create_binary_op G). pres.
  - unfold create_op_MatmulBias. pose proof (untouched_create_binary_op G). pres.
Qed.

Lemma untouched_build_ng_dialect G : preserves untouched_by_build (build_ng_dialect G).
Proof.
  unfold build_ng_dialect. pose proof untouched_create_return.
  apply preserves_bind; [pres|]. intros s.
  apply preserves_bind; [pres|]. intros _.
  apply preserves_bind; [|by intros _].
  destruct (m_sub_graph s !! 0) as [np|]; [|pres].
  destruct (op_dispatcher_find G (TI G np)) as [second|] eqn:Hfind; [|by intros ?].
  apply preserves_bind; [by apply (untouched_op_dispatcher G (TI G np))|].
  intros [v|]; pres.
Qed.

Lemma untouched_get_mlir_type G tensor :
  preserves untouched_by_build (get_mlir_type G tensor).
Proof.
  unfold get_mlir_type, get_mlir_type_element. pres.
  destruct (get_element_type G tensor); pres.
Qed.

Lemma untouched_build_module G : preserves untouched_by_build (build_module G).
Proof.
  unfold build_module, build_module_function, build_module_body.
  pose proof (untouched_build_ng_dialect G). pose proof (untouched_get_mlir_type G).
  apply preserves_bind.
  - apply preserves_bind; [pres|]. intros _.
    apply preserves_bind.
    { apply preserves_modify. intros s. by rewrite build_tensors_list_fold. }
    intros _. pres; apply preserves_mapM; auto.
  - intros f. pres. apply preserves_modify. intros s.
    by destruct (m_builder s), (m_module s).
Qed.

Lemma untouched_lower_dialect B : preserves untouched_by_build (lower_dialect B).
Proof. unfold lower_dialect. pres. destruct (m_module _); [pres|by intros ?]. Qed.

Lemma untouched_optimize B : preserves untouched_by_build (optimize B).
Proof.
  unfold optimize. pres. destruct (m_module _); [|by intros ?].
  destruct (run_lower_affine B _). pres.
Qed.


Lemma allocate_temporaries_ok n s s' :
  allocate_temporaries n s = Ok () s' →
  ∃ temps,
    s' = set_mem_mgr (m_mem_mgr s ++ temps) (set_heap (heap s') s) ∧
    (∀ k, k ∈ temps → heap s !! k = None) ∧
    (∀ k, k ∉ temps → heap s' !! k = heap s !! k).
Proof.
  revert s. induction n as [|n IH]; intros s; simpl.
  - unfold_M. intros Hok. inversion Hok. subst. exists [].
    rewrite app_nil_r. split; [by destruct s'|].
    split; [by intros k Hk%elem_of_nil|done].
  - intros Hok. step_ok Hok a s1 H1. unfold MLIRMemMgr_allocate in H1.
    step_ok H1 a' s2 H2. apply malloc_Ok_inv in H2 as [-> ->].
    step_ok H1 u s3 H3. apply modify_Ok_inv in H3 as ->.
    unfold MLIRCompiler.ret in H1. inversion H1. subst a s1. clear H1.
    apply IH in Hok as (temps & Hs' & Hnew & Hold).
    set (t := fresh (dom (heap s))) in *. simpl in *.
    exists (t :: temps). split; [|split].
    + rewrite Hs' at 1. rewrite <- app_assoc. by destruct s.
    + intros k Hk. apply elem_of_cons in Hk as [->|Hk]; [apply fresh_not_live|].
      destruct (decide (k = t)) as [->|Hne]; [apply fresh_not_live|].
      specialize (Hnew k Hk). by rewrite lookup_insert_ne in Hnew.
    + intros k Hk. apply not_elem_of_cons in Hk as [Hne Hk].
      rewrite Hold by done. by rewrite lookup_insert_ne.
Qed.

Lemma execute_ok B s s' :
  execute B s = Ok () s' →
  m_invoke_args s' = m_invoke_args s ∧
  ∃ temps,
    m_mem_mgr s' = m_mem_mgr s ++ temps ∧
    (∀ k, k ∈ temps → heap s !! k = None) ∧
    (∀ k, k ∉ temps → heap s' !! k = heap s !! k).
Proof.
  intros H. unfold execute in H.
  step_ok H s0 s0' H0. apply get_Ok_inv in H0 as [-> ->].
  step_ok H u1 s1 H1. apply NGRAPH_ASSERT_Ok_inv in H1 as [_ ->].
  destruct (m_module s) as [m|]; [|done].
  destruct (convert_std_to_llvm B m) as [m' r].
  step_ok H u2 s2 H2. apply modify_Ok_inv in H2 as ->.
  step_ok H u3 s3 H3. apply NGRAPH_ASSERT_Ok_inv in H3 as [_ ->].
  step_ok H u4 s4 H4. apply NGRAPH_ASSERT_Ok_inv in H4 as [_ ->].
  step_ok H u5 s5 H5. apply modify_Ok_inv in H5 as ->.
  step_ok H s6 s6' H6. apply get_Ok_inv in H6 as [-> ->].
  destruct (invoke_main B m' _) as [temporaries invocationResult].
  step_ok H u7 s7 H7. apply modify_Ok_inv in H7 as ->.
  step_ok H u8 s8 H8. apply NGRAPH_ASSERT_Ok_inv in H as [_ ->]. destruct u8.
  apply allocate_temporaries_ok in H8 as (temps & Hs8 & Hnew & Hold).
  simpl in *. split; [by rewrite Hs8|].
  exists temps. split; [by rewrite Hs8|]. by split.
Qed.

Lemma allocate_temporaries_run n s :
  ∃ s', allocate_temporaries n s = Ok () s' ∧
        length (m_mem_mgr s') = length (m_mem_mgr s) + n ∧
        jit_invocations s' = jit_invocations s ∧
        m_engine s' = m_engine s ∧
        m_invoke_args s' = m_invoke_args s ∧
        m_module s' = m_module s.
Proof.
  revert s. induction n as [|n IH]; intros s; simpl.
  - exists s. repeat split; try done; lia.
  - unfold MLIRCompiler.bind at 1. unfold MLIRMemMgr_allocate, malloc. unfold_M.
    simpl.
    match goal with |- context [allocate_temporaries n ?st] =>
      destruct (IH st) as (s' & Hrun & Hlen & Hjit & Heng & Hargs & Hmod) end.
    exists s'. rewrite Hrun. simpl in *. rewrite length_app in Hlen. simpl in Hlen.
    repeat split; try done; lia.
Qed.

Lemma execute_eq B s :
  execute B s =
  match m_module s with
  | None => Fatal "MLIR module is not ready." s
  | Some m =>
      let converted := convert_std_to_llvm B m in
      let s1 := set_module (Some converted.1) s in
      if converted.2 then
        if create_engine B converted.1 then
          let invoked := invoke_main B converted.1 (m_invoke_args s) in
          match allocate_temporaries invoked.1
                  (count_invocation (set_engine true s1)) with
          | Ok _ s' =>
              if invoked.2
              then Fatal ("JIT invocation of 'main' failed" +:+
                          String (Ascii.ascii_of_nat 10) "") s'
              else Ok () s'
          | Fatal msg s' => Fatal msg s'
          | Unsupported msg s' => Unsupported msg s'
          | Abort msg s' => Abort msg s'
          end
        else Fatal "failed to construct an execution engine" s1
      else Fatal "second conversion failed" s1
  end.
Proof.
  unfold execute. unfold_M. destruct (m_module s) as [m|]; [|done]. simpl.
  destruct (convert_std_to_llvm B m) as [m' r]. simpl.
  destruct r; [|done]. destruct (create_engine B m'); [|done]. simpl.
  destruct (invoke_main B m' (m_invoke_args s)) as [temporaries failed]. simpl.
  destruct (allocate_temporaries temporaries _); [|done..]. by destruct failed.
Qed.

Lemma lookup_foldl_delete (h : gmap addr Cell) l k :
  foldl (λ h a, delete a h) h l !! k = if decide (k ∈ l) then None else h !! k.
Proof.
  revert h. induction l as [|x r IH]; intros h; cbn [foldl].
  - by rewrite decide_False by apply not_elem_of_nil.
  - rewrite IH. destruct (decide (k ∈ r)) as [Hr|Hr].
    + rewrite decide_True; [done|]. by right.
    + destruct (decide (k = x)) as [->|Hne].
      * rewrite decide_True by (by left). apply lookup_delete_eq.
      * rewrite decide_False by (rewrite elem_of_cons; tauto).
        by apply lookup_delete_ne.
Qed.

(** [free_all] returns when the blocks are live and no two are the same. *)
Lemma free_all_Ok args s :
  NoDup args → (∀ a, a ∈ args → is_Some (heap s !! a)) →
  free_all args s = Ok () (set_heap (foldl (λ h a, delete a h) (heap s) args) s).
Proof.
  revert s. induction args as [|a r IH]; intros s Hnd Hlive; simpl.
  - unfold_M. by destruct s.
  - apply NoDup_cons in Hnd as [Ha Hnd].
    unfold MLIRCompiler.bind, free.
    destruct (Hlive a) as [c Hc]; [by left|]. rewrite Hc.
    rewrite IH; [done|done|].
    intros a' Ha'. simpl. rewrite lookup_delete_ne; [apply Hlive; by right|].
    intros <-. contradiction.
Qed.

Lemma free_all_not_Fatal args s msg s' : free_all args s ≠ Fatal msg s'.
Proof.
  revert s. induction args as [|a r IH]; intros s; simpl; [done|].
  unfold MLIRCompiler.bind, free. destruct (heap s !! a); [apply IH|done].
Qed.

(** [cleanup] in terms of its first loop. *)
Lemma cleanup_eq s :
  cleanup s =
  match free_all (m_invoke_args s) s with
  | Ok _ s1 =>
      Ok () (set_mem_mgr []
               (set_heap (foldl (λ h a, delete a h) (heap s1) (m_mem_mgr s1))
                         (set_builder None s1)))
  | Fatal msg s1 => Fatal msg s1
  | Unsupported msg s1 => Unsupported msg s1
  | Abort msg s1 => Abort msg s1
  end.
Proof.
  unfold cleanup, MLIRMemMgr_freeAll.
  unfold MLIRCompiler.bind at 1. simpl.
  unfold MLIRCompiler.bind at 1.
  destruct (free_all (m_invoke_args s) s) as [[] s1|?|?|?]; [|done..].
  unfold MLIRCompiler.bind at 1. simpl.
  case_bool_decide as Hb; unfold_M; simpl; [done|].
  destruct (m_builder s1) eqn:Hbuilder; [done|].
  destruct s1. simpl in *. by subst.
Qed.

(** What [cleanup] does when the invocation arguments are live blocks, no
    two the same. *)
Lemma cleanup_Ok s :
  NoDup (m_invoke_args s) →
  (∀ a, a ∈ m_invoke_args s → is_Some (heap s !! a)) →
  cleanup s =
  Ok () (set_mem_mgr []
           (set_heap (foldl (λ h a, delete a h) (heap s)
                            (m_invoke_args s ++ m_mem_mgr s))
                     (set_builder None s))).
Proof.
  intros Hnd Hlive. rewrite cleanup_eq, free_all_Ok by done. simpl.
  by rewrite foldl_app.
Qed.

Lemma cleanup_not_Fatal s msg s' : cleanup s ≠ Fatal msg s'.
Proof.
  rewrite cleanup_eq.
  destruct (free_all (m_invoke_args s) s) as [[] s1|msg1 s1|?|?] eqn:Hfree; try done.
  by apply free_all_not_Fatal in Hfree.
Qed.

Lemma compile_and_run_phases G B s :
  compile_and_run G B s =
  match phases_before_cleanup G B s with
  | Ok _ s1 => cleanup s1
  | Fatal msg s1 => Fatal msg s1
  | Unsupported msg s1 => Unsupported msg s1
  | Abort msg s1 => Abort msg s1
  end.
Proof.
  unfold compile_and_run, phases_before_cleanup, MLIRCompiler.bind.
  destruct (build_module G s); [|done..].
  destruct (lower_dialect B _); [|done..].
  destruct (optimize B _); [|done..].
  destruct (bind_arguments _); [|done..].
  by destruct (execute B _).
Qed.

(** Whatever its outcome, [execute] keeps the invocation arguments and
    every live block. *)
Lemma execute_keeps B s :
  let s' := final_state (execute B s) in
  m_invoke_args s' = m_invoke_args s ∧
  ∀ k, is_Some (heap s !! k) → heap s' !! k = heap s !! k.
Proof.
  rewrite execute_eq. destruct (m_module s) as [m|]; [|done]. cbv zeta.
  destruct (convert_std_to_llvm B m).2; [|done].
  destruct (create_engine B _); [|done].
  match goal with |- context [allocate_temporaries ?n ?st] =>
    destruct (allocate_temporaries_run n st) as (s' & Hrun & _ & _ & _ & Hargs & _);
    rewrite Hrun;
    apply allocate_temporaries_ok in Hrun as (temps & _ & Hnew & Hold) end.
  simpl in *.
  assert (Hkeep : ∀ k, is_Some (heap s !! k) → heap s' !! k = heap s !! k).
  { intros k [c Hc]. apply Hold. intros Hk. apply Hnew in Hk. congruence. }
  by destruct (invoke_main B _ _).2.
Qed.

(** The phases before [cleanup], when they succeed: the state they leave
    and the run of [cleanup] on it. *)
Lemma phases_before_cleanup_ok G B s s5 :
  phases_before_cleanup G B s = Ok () s5 →
  NoDup (m_invoke_args s5) ∧
  (∀ a, a ∈ m_invoke_args s5 → is_Some (heap s5 !! a)) ∧
  ∀ k, foldl (λ h a, delete a h) (heap s5) (m_invoke_args s5 ++ m_mem_mgr s5) !! k =
       if decide (k ∈ m_mem_mgr s) then None else heap s !! k.
Proof.
  intros Hphases. unfold phases_before_cleanup in Hphases.
  step_ok Hphases u1 s1 H1. step_ok Hphases u2 s2 H2.
  step_ok Hphases u3 s3 H3. step_ok Hphases u4 s4 H4. destruct u4.
  pose proof (memory_build_module G s) as M1. rewrite H1 in M1.
  pose proof (memory_lower_dialect B s1) as M2. rewrite H2 in M2.
  pose proof (memory_optimize B s2) as M3. rewrite H3 in M3.
  unfold memory in *. simpl in *.
  assert (Hh3 : heap s3 = heap s) by congruence.
  assert (Hm3 : m_mem_mgr s3 = m_mem_mgr s) by congruence.
  apply bind_arguments_ok in H4
    as (func & descs & slot & _ & _ & Hs4 & Hnd & _ & _ & _ & _ & Hnew & Hold
        & Hdata & Hslot).
  apply execute_ok in Hphases as (Hargs5 & temps & Hmm5 & Htnew & Htold).
  assert (Hargs4 : m_invoke_args s4 = descs ++ [slot]) by (by rewrite Hs4).
  assert (Hm4 : m_mem_mgr s4 = m_mem_mgr s3) by (by rewrite Hs4).
  assert (Hlive4 : ∀ a, a ∈ descs ++ [slot] → is_Some (heap s4 !! a)).
  { intros a [Ha|Ha%list_elem_of_singleton]%elem_of_app.
    - apply list_elem_of_lookup in Ha as [i Hi].
      destruct (Hdata i a Hi) as (data & _ & Hl). by eexists.
    - subst a. by eexists. }
  rewrite Hargs5, Hargs4. split; [done|]. split.
  - intros a Ha. destruct (Hlive4 a Ha) as [c Hc].
    rewrite Htold; [by eexists|]. intros Ht. apply Htnew in Ht. congruence.
  - intros k. rewrite lookup_foldl_delete. rewrite Hmm5, Hm4, Hm3.
    destruct (decide (k ∈ m_mem_mgr s)) as [Hk|Hk].
    + rewrite decide_True; [done|].
      apply elem_of_app. right. apply elem_of_app. by left.
    + destruct (decide (k ∈ descs ++ [slot])) as [Hd|Hd].
      * rewrite decide_True by (apply elem_of_app; by left).
        symmetry. rewrite <- Hh3. by apply Hnew.
      * destruct (decide (k ∈ temps)) as [Ht|Ht].
        -- rewrite decide_True
             by (apply elem_of_app; right; apply elem_of_app; by right).
           symmetry. rewrite <- Hh3, <- Hold by done. by apply Htnew.
        -- rewrite decide_False
             by (intros [?|[?|?]%elem_of_app]%elem_of_app; contradiction).
           rewrite Htold, Hold by done. by rewrite Hh3.
Qed.

(** A run in which every phase succeeds frees what it allocated and
    nothing else, apart from the temporaries the memory manager held
    before. *)
Lemma compile_and_run_ok G B s s' :
  compile_and_run G B s = Ok () s' →
  cleaned_up s' ∧
  ∀ k, heap s' !! k = if decide (k ∈ m_mem_mgr s) then None else heap s !! k.
Proof.
  intros H. rewrite compile_and_run_phases in H.
  destruct (phases_before_cleanup G B s) as [[] s5|?|?|?] eqn:Hphases; [|done..].
  apply phases_before_cleanup_ok in Hphases as (Hnd & Hlive & Hheap).
  rewrite cleanup_Ok in H by done. inversion H. subst s'. clear H.
  split; [|exact Hheap].
  split; [|done]. simpl. intros a Ha.
  rewrite lookup_foldl_delete, decide_True; [done|]. apply elem_of_app. by left.
Qed.

(** A fatal failure of [compile_and_run] after the compiled code has been
    invoked is the failure of [execute], in the state [execute] left. *)
Lemma compile_and_run_fails_after_invoke G B s msg s' :
  compile_and_run G B s = Fatal msg s' →
  jit_invocations s' ≠ jit_invocations s →
  ∃ s3 s4, bind_arguments s3 = Ok () s4 ∧ execute B s4 = Fatal msg s'.
Proof.
  intros H Hjit. rewrite compile_and_run_phases in H.
  destruct (phases_before_cleanup G B s) as [[] s5|msg5 s5|?|?] eqn:Hphases;
    [by apply cleanup_not_Fatal in H| |done..].
  inversion H. subst msg5 s5. clear H.
  assert (Hproj : ∀ s, jit_invocations s = (untouched_by_build s).2) by done.
  unfold phases_before_cleanup in Hphases.
  unfold MLIRCompiler.bind at 1 in Hphases.
  pose proof (untouched_build_module G s) as M1.
  destruct (build_module G s) as [[] s1|msg1 s1|?|?]; [|inversion Hphases; subst|done..].
  2: { exfalso. apply Hjit. simpl in M1. by rewrite !Hproj, M1. }
  unfold MLIRCompiler.bind at 1 in Hphases.
  pose proof (untouched_lower_dialect B s1) as M2.
  destruct (lower_dialect B s1) as [[] s2|msg2 s2|?|?]; [|inversion Hphases; subst|done..].
  2: { exfalso. apply Hjit. simpl in M1, M2. by rewrite !Hproj, M2, M1. }
  unfold MLIRCompiler.bind at 1 in Hphases.
  pose proof (untouched_optimize B s2) as M3.
  destruct (optimize B s2) as [[] s3|msg3 s3|?|?]; [|inversion Hphases; subst|done..].
  2: { exfalso. apply Hjit. simpl in M1, M2, M3. by rewrite !Hproj, M3, M2, M1. }
  unfold MLIRCompiler.bind at 1 in Hphases.
  pose proof (preserves_bind_arguments s3) as M4.
  destruct (bind_arguments s3) as [[] s4|msg4 s4|?|?] eqn:Hbind;
    [|inversion Hphases; subst|done..].
  2: { exfalso. apply Hjit. simpl in M1, M2, M3, M4.
       by rewrite M4, !Hproj, M3, M2, M1. }
  by exists s3, s4.
Qed.

(** C7, as the code has it.  On a compiler whose invocation arguments are
    live blocks, no two the same, [cleanup] frees every invocation argument
    and every temporary of the memory manager, releases the builder, and
    touches no other block, so the buffers of the caller stay; it leaves
    the list of the arguments, now freed, as it is.  It is the last
    call of [compile_and_run] and is reached when every phase before it,
    the invocation included, has succeeded; it then returns, and such a
    run leaves nothing allocated: the heap is the heap before the run
    without the temporaries the memory manager held.  When a phase does
    not return, with a fatal failure, with [unsupported_op] or with the
    end of the process, [compile_and_run] ends with that outcome in the
    state the phase left, [cleanup] not being called.  In particular a
    fatal failure after the compiled code has been invoked leaves every
    invocation argument allocated. *)
Theorem cleanup_is_the_last_phase (G : Graph) (B : Backend) :
  (∀ s,
     NoDup (m_invoke_args s) →
     (∀ a, a ∈ m_invoke_args s → is_Some (heap s !! a)) →
     ∃ s',
       cleanup s = Ok () s' ∧ cleaned_up s' ∧
       m_invoke_args s' = m_invoke_args s ∧
       ∀ k, k ∉ m_invoke_args s → k ∉ m_mem_mgr s → heap s' !! k = heap s !! k) ∧
  (∀ s s',
     compile_and_run G B s = Ok () s' →
     cleaned_up s' ∧
     ∀ k, heap s' !! k = if decide (k ∈ m_mem_mgr s) then None else heap s !! k) ∧
  (∀ s s1, phases_before_cleanup G B s = Ok () s1 →
           compile_and_run G B s = cleanup s1 ∧ ∃ s', cleanup s1 = Ok () s') ∧
  (∀ s, (∀ s1, phases_before_cleanup G B s ≠ Ok () s1) →
        compile_and_run G B s = phases_before_cleanup G B s) ∧
  (∀ s msg s',
     compile_and_run G B s = Fatal msg s' →
     jit_invocations s' ≠ jit_invocations s →
     m_invoke_args s' ≠ [] ∧
     (∀ a, a ∈ m_invoke_args s' → is_Some (heap s' !! a)) ∧
     ¬ cleaned_up s').
Proof.
  split; [|split; [|split; [|split]]].
  - intros s Hnd Hlive. eexists. split; [by apply cleanup_Ok|]. split; [|split].
    + split; [|done]. simpl. intros a Ha.
      rewrite lookup_foldl_delete, decide_True; [done|]. apply elem_of_app. by left.
    + done.
    + intros k Hargs Hmm. simpl. rewrite lookup_foldl_delete, decide_False; [done|].
      intros [?|?]%elem_of_app; contradiction.
  - apply compile_and_run_ok.
  - intros s s1 Hphases. rewrite compile_and_run_phases, Hphases. split; [done|].
    apply phases_before_cleanup_ok in Hphases as (Hnd & Hlive & _).
    eexists. by apply cleanup_Ok.
  - intros s Hfail. rewrite compile_and_run_phases.
    destruct (phases_before_cleanup G B s) as [[] s1|?|?|?]; [|done..].
    by destruct (Hfail s1).
  - intros s msg s' H Hjit.
    apply compile_and_run_fails_after_invoke in H as (s3 & s4 & Hbind & Hexec);
      [|done].
    apply bind_arguments_ok in Hbind
      as (func & descs & slot & _ & _ & Hs4 & _ & _ & _ & _ & _ & _ & _ & Hdata & Hslot).
    assert (Hargs4 : m_invoke_args s4 = descs ++ [slot]) by (by rewrite Hs4).
    destruct (execute_keeps B s4) as [Hargs Hkeep].
    rewrite Hexec in Hargs, Hkeep. simpl in Hargs, Hkeep.
    assert (Hlive : ∀ a, a ∈ m_invoke_args s' → is_Some (heap s' !! a)).
    { intros a Ha. rewrite Hargs, Hargs4 in Ha.
      assert (Hl : is_Some (heap s4 !! a)).
      { apply elem_of_app in Ha as [Ha|Ha%list_elem_of_singleton].
        - apply list_elem_of_lookup in Ha as [i Hi].
          destruct (Hdata i a Hi) as (data & _ & Hl). by eexists.
        - subst a. by eexists. }
      by rewrite Hkeep. }
    assert (Hin : slot ∈ m_invoke_args s').
    { rewrite Hargs, Hargs4. apply elem_of_app. right. by left. }
    split; [|split; [done|]].
    + intros Hnil. rewrite Hnil in Hin. by apply elem_of_nil in Hin.
    + intros (Hfreed & _). destruct (Hlive slot Hin) as [c Hc].
      rewrite Hfreed in Hc; done.
Qed.

Lemma cleanup_is_the_last_phase_witness :
  (∃ s', compile_and_run Demo.G (Demo.B false) Demo.add_unit = Ok () s' ∧
         cleaned_up s' ∧
         heap s' !! 100%positive = Some Buffer ∧
         jit_invocations s' = 1) ∧
  (∃ msg s', compile_and_run Demo.G (Demo.B true) Demo.add_unit = Fatal msg s' ∧
             m_invoke_args s' ≠ [] ∧ ¬ cleaned_up s').
Proof.
  split.
  - assert (Hrun : ∃ s', compile_and_run Demo.G (Demo.B false) Demo.add_unit =
                         Ok () s' ∧ jit_invocations s' = 1)
      by (eexists; vm_compute; split; reflexivity).
    destruct Hrun as (s' & Hrun & Hjit). exists s'. split; [done|].
    destruct (cleanup_is_the_last_phase Demo.G (Demo.B false))
      as (_ & Hok & _).
    destruct (Hok _ _ Hrun) as [Hclean Hheap].
    split; [done|]. split; [|done]. by rewrite Hheap.
  - assert (Hrun : ∃ msg s', compile_and_run Demo.G (Demo.B true) Demo.add_unit =
                             Fatal msg s' ∧ jit_invocations s' = 1)
      by (eexists _, _; vm_compute; split; reflexivity).
    destruct Hrun as (msg & s' & Hrun & Hjit). exists msg, s'. split; [done|].
    destruct (cleanup_is_the_last_phase Demo.G (Demo.B true))
      as (_ & _ & _ & _ & Hleak).
    destruct (Hleak _ _ _ Hrun) as (Hargs & _ & Hnot); [by rewrite Hjit|].
    by split.
Defined.

(** C7 as the specification states it fails on the code: in the run of the
    Add unit whose invocation reports an error, the compiled code has been
    invoked once, [compile_and_run] ends with the fatal failure, and the
    argument descriptors, the temporaries and the builder are all still
    there. *)
Lemma cleanup_skipped_when_invocation_fails :
  let o := compile_and_run Demo.G (Demo.B true) Demo.add_unit in
  (∃ msg, o = Fatal msg (final_state o)) ∧
  jit_invocations (final_state o) = 1 ∧
  ¬ cleaned_up (final_state o) ∧
  m_invoke_args (final_state o) = [103; 104; 105; 106]%positive ∧
  heap (final_state o) !! 103%positive = Some (StaticFloatMemRef (Some 100%positive)) ∧
  m_mem_mgr (final_state o) = [107; 108]%positive ∧
  m_builder (final_state o) ≠ None.
Proof.
  intros o.
  split; [eexists; vm_compute; reflexivity|].
  split; [by vm_compute|].
  split; [|split; [by vm_compute|split; [by vm_compute|split; [by vm_compute|]]]].
  - intros (_ & Hmm & _). by vm_compute in Hmm.
  - by vm_compute.
Qed.

(* ===================================================================== *)
(** * Further properties *)
(* ===================================================================== *)

(** ** The order of type descriptors *)

Lemma ascii_compare_refl c : Ascii.compare c c = Eq.
Proof. unfold Ascii.compare. apply N.compare_refl. Qed.

Lemma string_compare_refl s : String.compare s s = Eq.
Proof. induction s as [|c r IH]; [done|]. simpl. by rewrite ascii_compare_refl. Qed.

Lemma string_compare_lt_trans a b c :
  String.compare a b = Lt → String.compare b c = Lt → String.compare a c = Lt.
Proof.
  revert b c. induction a as [|x a IH]; intros [|y b] [|z c]; simpl; try done.
  destruct (Ascii.compare x y) eqn:Hxy; try done.
  - apply Ascii.compare_eq_iff in Hxy as ->.
    destruct (Ascii.compare y z); try done. apply IH.
  - intros _. destruct (Ascii.compare y z) eqn:Hyz; try done.
    + apply Ascii.compare_eq_iff in Hyz as <-. by rewrite Hxy.
    + intros _. unfold Ascii.compare in *.
      rewrite N.compare_lt_iff in Hxy, Hyz.
      assert (Hxz : (Ascii.N_of_ascii x < Ascii.N_of_ascii z)%N) by lia.
      apply N.compare_lt_iff in Hxz. by rewrite Hxz.
Qed.

Lemma string_ltb_lt a b : String.ltb a b = true ↔ String.compare a b = Lt.
Proof. unfold String.ltb. by destruct (String.compare a b). Qed.

Lemma string_ltb_irrefl a : String.ltb a a = false.
Proof. unfold String.ltb. by rewrite string_compare_refl. Qed.

Lemma string_ltb_asym a b : String.ltb a b = true → String.ltb b a = false.
Proof.
  unfold String.ltb. rewrite (String.compare_antisym a b).
  by destruct (String.compare b a).
Qed.

Lemma string_ltb_total a b :
  String.ltb a b = false → String.ltb b a = false → a = b.
Proof.
  unfold String.ltb. rewrite (String.compare_antisym a b).
  destruct (String.compare b a) eqn:Hc; try done.
  intros _ _. symmetry. by apply String.compare_eq_iff.
Qed.

(** X1. [operator<] of [DiscreteTypeInfo] is a strict order: no descriptor
    is below itself, the relation is transitive and asymmetric, and two
    descriptors neither of which is below the other have the same name
    and the same version. *)
Theorem descriptor_order_is_strict :
  (∀ a, TypeOrder.lt a a = false) ∧
  (∀ a b c, TypeOrder.lt a b = true → TypeOrder.lt b c = true →
            TypeOrder.lt a c = true) ∧
  (∀ a b, TypeOrder.lt a b = true → TypeOrder.lt b a = false) ∧
  (∀ a b, TypeOrder.lt a b = false → TypeOrder.lt b a = false →
          TypeOrder.std_string (TypeInfo.name a) =
            TypeOrder.std_string (TypeInfo.name b) ∧
          TypeInfo.version a = TypeInfo.version b).
Proof.
  unfold TypeOrder.lt. split; [|split; [|split]].
  - intros a. rewrite string_ltb_irrefl, String.eqb_refl. simpl. lia.
  - intros a b c.
    rewrite !orb_true_iff, !andb_true_iff, !String.eqb_eq, !Z.ltb_lt, !string_ltb_lt.
    intros [Hab|[Hab Hv]] [Hbc|[Hbc Hv']].
    + left. by apply (string_compare_lt_trans _ _ _ Hab).
    + left. by rewrite <- Hbc.
    + left. by rewrite Hab.
    + right. split; [congruence|lia].
  - intros a b.
    rewrite orb_true_iff, andb_true_iff, orb_false_iff, andb_false_iff,
      String.eqb_eq, String.eqb_neq, Z.ltb_lt, Z.ltb_ge.
    intros [Hab|[Hab Hv]].
    + split; [by apply string_ltb_asym|]. left. intros Heq.
      rewrite Heq, string_ltb_irrefl in Hab. done.
    + split; [rewrite Hab; apply string_ltb_irrefl|]. right. lia.
  - intros a b.
    rewrite !orb_false_iff, !andb_false_iff, !String.eqb_neq, !Z.ltb_ge.
    intros [H1 H3] [H2 H4].
    pose proof (string_ltb_total _ _ H1 H2) as Heq. split; [done|].
    destruct H3 as [H3|H3]; [done|].
    destruct H4 as [H4|H4]; [by symmetry in Heq|]. lia.
Qed.

Lemma descriptor_order_is_strict_witness :
  TypeOrder.lt OrderDemo.Add_v0 OrderDemo.Relu_v0 = true ∧
  TypeOrder.lt OrderDemo.Relu_v0 OrderDemo.Add_v1 = false ∧
  TypeInfo.version OrderDemo.Add_v0 = TypeInfo.version OrderDemo.Add_v0.
Proof.
  destruct descriptor_order_is_strict as (_ & Htrans & Hasym & Htotal).
  assert (H01 : TypeOrder.lt OrderDemo.Add_v0 OrderDemo.Add_v1 = true) by reflexivity.
  assert (H1r : TypeOrder.lt OrderDemo.Add_v1 OrderDemo.Relu_v0 = true) by reflexivity.
  split; [exact (Htrans _ _ _ H01 H1r)|]. split; [exact (Hasym _ _ H1r)|].
  by destruct (Htotal OrderDemo.Add_v0 OrderDemo.Add_v0 eq_refl eq_refl).
Defined.

(** ** Enumerations and their names *)

Section EnumFacts.
Context {EnumType : Type} `{EqDecision EnumType}.
Implicit Types (l : list (string * EnumType)).

Lemma find_enum_Some name l e :
  EnumNames.find_enum name l = Some e → (name, e) ∈ l.
Proof.
  induction l as [|[n x] r IH]; simpl; [done|].
  case_decide as Hn; simpl in Hn.
  - intros [= ->]. subst. by left.
  - intros Hr. right. by apply IH.
Qed.

Lemma find_enum_None name l : EnumNames.find_enum name l = None ↔ name ∉ l.*1.
Proof.
  induction l as [|[n x] r IH]; simpl.
  - split; [intros _; apply not_elem_of_nil|done].
  - rewrite not_elem_of_cons. case_decide as Hn; simpl in Hn.
    + split; [done|]. intros [Hne _]. by subst.
    + rewrite IH. split; [|tauto]. intros Hr. split; [congruence|done].
Qed.

Lemma find_string_Some e l name :
  EnumNames.find_string e l = Some name → (name, e) ∈ l.
Proof.
  induction l as [|[n x] r IH]; simpl; [done|].
  case_decide as Hx; simpl in Hx.
  - intros [= ->]. subst. by left.
  - intros Hr. right. by apply IH.
Qed.

Lemma find_string_None e l : EnumNames.find_string e l = None ↔ e ∉ l.*2.
Proof.
  induction l as [|[n x] r IH]; simpl.
  - split; [intros _; apply not_elem_of_nil|done].
  - rewrite not_elem_of_cons. case_decide as Hx; simpl in Hx.
    + split; [done|]. intros [Hne _]. by subst.
    + rewrite IH. split; [|tauto]. intros Hr. split; [congruence|done].
Qed.

Lemma find_enum_NoDup name e l :
  NoDup l.*1 → (name, e) ∈ l → EnumNames.find_enum name l = Some e.
Proof.
  induction l as [|[n x] r IH]; simpl; [by intros _ ?%elem_of_nil|].
  rewrite NoDup_cons. intros [Hn Hnd] Hin. apply elem_of_cons in Hin as [Heq|Hin].
  - injection Heq as -> ->. by rewrite decide_True.
  - case_decide as Hd; simpl in Hd; [|by apply IH].
    subst n. destruct Hn. apply list_elem_of_fmap. by exists (name, e).
Qed.

Lemma find_string_NoDup name e l :
  NoDup l.*2 → (name, e) ∈ l → EnumNames.find_string e l = Some name.
Proof.
  induction l as [|[n x] r IH]; simpl; [by intros _ ?%elem_of_nil|].
  rewrite NoDup_cons. intros [Hn Hnd] Hin. apply elem_of_cons in Hin as [Heq|Hin].
  - injection Heq as -> ->. by rewrite decide_True.
  - case_decide as Hd; simpl in Hd; [|by apply IH].
    subst x. destruct Hn. apply list_elem_of_fmap. by exists (name, e).
Qed.

End EnumFacts.

(** X2. When no name occurs twice in the table of an enumeration, the name
    of an enumerator of the table converts back to that enumerator. *)
Theorem enum_to_string_and_back {EnumType : Type} `{EqDecision EnumType}
    (names : EnumNames.EnumNames EnumType) (e : EnumType) :
  NoDup (EnumNames.m_string_enums names).*1 →
  e ∈ (EnumNames.m_string_enums names).*2 →
  ∃ name, EnumNames.as_string names e = EnumNames.Return name ∧
          EnumNames.as_enum names name = EnumNames.Return e.
Proof.
  intros Hnd He. unfold EnumNames.as_string, EnumNames.as_enum.
  destruct (EnumNames.find_string e _) as [name|] eqn:Hfind.
  - exists name. split; [done|]. apply find_string_Some in Hfind.
    by rewrite (find_enum_NoDup name e).
  - by apply find_string_None in Hfind.
Qed.

Lemma enum_to_string_and_back_witness :
  ∃ name, EnumNames.as_string EnumDemo.element_names element.f64 =
            EnumNames.Return name ∧
          EnumNames.as_enum EnumDemo.element_names name = EnumNames.Return element.f64.
Proof.
  apply (enum_to_string_and_back EnumDemo.element_names element.f64).
  - simpl. repeat constructor; rewrite ?elem_of_cons, ?elem_of_nil; intuition discriminate.
  - simpl. rewrite !elem_of_cons. tauto.
Defined.

(** X3. When no enumerator occurs twice in the table, the enumerator of a
    name of the table converts back to that name. *)
Theorem string_to_enum_and_back {EnumType : Type} `{EqDecision EnumType}
    (names : EnumNames.EnumNames EnumType) (name : string) :
  NoDup (EnumNames.m_string_enums names).*2 →
  name ∈ (EnumNames.m_string_enums names).*1 →
  ∃ e, EnumNames.as_enum names name = EnumNames.Return e ∧
       EnumNames.as_string names e = EnumNames.Return name.
Proof.
  intros Hnd Hn. unfold EnumNames.as_string, EnumNames.as_enum.
  destruct (EnumNames.find_enum name _) as [e|] eqn:Hfind.
  - exists e. split; [done|]. apply find_enum_Some in Hfind.
    by rewrite (find_string_NoDup name e).
  - by apply find_enum_None in Hfind.
Qed.

Lemma string_to_enum_and_back_witness :
  ∃ e, EnumNames.as_enum EnumDemo.element_names "f32" = EnumNames.Return e ∧
       EnumNames.as_string EnumDemo.element_names e = EnumNames.Return "f32".
Proof.
  apply (string_to_enum_and_back EnumDemo.element_names "f32").
  - simpl. repeat constructor; rewrite ?elem_of_cons, ?elem_of_nil; intuition discriminate.
  - simpl. rewrite !elem_of_cons. tauto.
Defined.

(** X4. Converting a name that the table lacks fails the check with an
    explanation that quotes the name and names the enumeration, and
    converting a name of the table returns an enumerator listed with it;
    converting an enumerator that the table lacks fails the check, and
    converting one of the table returns a name listed with it. *)
Theorem enum_names_check_failures {EnumType : Type} `{EqDecision EnumType}
    (names : EnumNames.EnumNames EnumType) :
  (∀ name, name ∉ (EnumNames.m_string_enums names).*1 →
     EnumNames.as_enum names name =
     EnumNames.CheckFailure
       (EnumNames.quote +:+ name +:+ EnumNames.quote +:+
        " is not a member of enum " +:+ EnumNames.m_enum_name names)) ∧
  (∀ name, name ∈ (EnumNames.m_string_enums names).*1 →
     ∃ e, EnumNames.as_enum names name = EnumNames.Return e ∧
          (name, e) ∈ EnumNames.m_string_enums names) ∧
  (∀ e, e ∉ (EnumNames.m_string_enums names).*2 →
     EnumNames.as_string names e =
     EnumNames.CheckFailure
       (" invalid member of enum " +:+ EnumNames.m_enum_name names)) ∧
  (∀ e, e ∈ (EnumNames.m_string_enums names).*2 →
     ∃ name, EnumNames.as_string names e = EnumNames.Return name ∧
             (name, e) ∈ EnumNames.m_string_enums names).
Proof.
  unfold EnumNames.as_enum, EnumNames.as_string. split; [|split; [|split]].
  - intros name Hn. apply find_enum_None in Hn. by rewrite Hn.
  - intros name Hn.
    destruct (EnumNames.find_enum name _) as [e|] eqn:Hfind.
    + exists e. split; [done|]. by apply find_enum_Some.
    + by apply find_enum_None in Hfind.
  - intros e He. apply find_string_None in He. by rewrite He.
  - intros e He.
    destruct (EnumNames.find_string e _) as [name|] eqn:Hfind.
    + exists name. split; [done|]. by apply find_string_Some.
    + by apply find_string_None in Hfind.
Qed.

Lemma enum_names_check_failures_witness :
  EnumNames.as_enum EnumDemo.element_names "i8" =
    EnumNames.CheckFailure
      (EnumNames.quote +:+ "i8" +:+ EnumNames.quote +:+
       " is not a member of enum element::Type_t") ∧
  EnumNames.as_string EnumDemo.element_names element.bf16 =
    EnumNames.CheckFailure " invalid member of enum element::Type_t".
Proof.
  destruct (enum_names_check_failures EnumDemo.element_names)
    as (Hname & _ & Henum & _).
  split.
  - apply (Hname "i8"). simpl. rewrite !not_elem_of_cons.
    repeat split; try discriminate. apply not_elem_of_nil.
  - apply (Henum element.bf16). simpl. rewrite !not_elem_of_cons.
    repeat split; try discriminate. apply not_elem_of_nil.
Defined.

(** X5. A [StringAdapter] that is constructed on a variable and destroyed
    with its string as it was leaves the variable as it was, when no name
    occurs twice in the table; the destructor assigns the enumerator of
    the string it finds, and when that string is no name of the table, or
    the variable holds no enumerator of the table, the check fails and the
    variable is not assigned. *)
Theorem string_adapter_scope {EnumType : Type} `{EqDecision EnumType}
    (names : EnumNames.EnumNames EnumType) (value : EnumType) :
  (NoDup (EnumNames.m_string_enums names).*1 →
   value ∈ (EnumNames.m_string_enums names).*2 →
   EnumNames.with_StringAdapter names id value = (value, EnumNames.Return ())) ∧
  (∀ edit name e,
     EnumNames.as_string names value = EnumNames.Return name →
     EnumNames.as_enum names (edit name) = EnumNames.Return e →
     EnumNames.with_StringAdapter names edit value = (e, EnumNames.Return ())) ∧
  (∀ edit name,
     EnumNames.as_string names value = EnumNames.Return name →
     edit name ∉ (EnumNames.m_string_enums names).*1 →
     ∃ explanation,
       EnumNames.with_StringAdapter names edit value =
       (value, EnumNames.CheckFailure explanation)) ∧
  (∀ edit, value ∉ (EnumNames.m_string_enums names).*2 →
     ∃ explanation,
       EnumNames.with_StringAdapter names edit value =
       (value, EnumNames.CheckFailure explanation)).
Proof.
  unfold EnumNames.with_StringAdapter, EnumNames.StringAdapter_new,
    EnumNames.StringAdapter_delete, EnumNames.as_string, EnumNames.as_enum.
  split; [|split; [|split]].
  - intros Hnd He.
    destruct (EnumNames.find_string value _) as [name|] eqn:Hfind.
    + apply find_string_Some in Hfind. unfold id.
      by rewrite (find_enum_NoDup name value).
    + by apply find_string_None in Hfind.
  - intros edit name e Hname.
    destruct (EnumNames.find_string value _) as [n|]; [|done].
    injection Hname as ->.
    by destruct (EnumNames.find_enum (edit name) _) as [e'|]; [intros [= ->]|].
  - intros edit name Hname Hedit.
    destruct (EnumNames.find_string value _) as [n|]; [|done].
    injection Hname as ->. apply find_enum_None in Hedit. rewrite Hedit. by eexists.
  - intros edit He. apply find_string_None in He. rewrite He. by eexists.
Qed.

Lemma string_adapter_scope_witness :
  EnumNames.with_StringAdapter EnumDemo.element_names id element.f32 =
    (element.f32, EnumNames.Return ()) ∧
  EnumNames.with_StringAdapter EnumDemo.element_names (λ _, "f64") element.f32 =
    (element.f64, EnumNames.Return ()) ∧
  (∃ explanation,
     EnumNames.with_StringAdapter EnumDemo.element_names (λ _, "i8") element.f32 =
     (element.f32, EnumNames.CheckFailure explanation)) ∧
  (∃ explanation,
     EnumNames.with_StringAdapter EnumDemo.element_names id element.bf16 =
     (element.bf16, EnumNames.CheckFailure explanation)).
Proof.
  destruct (string_adapter_scope EnumDemo.element_names element.f32)
    as (Hsame & Hedit & Hbad & _).
  destruct (string_adapter_scope EnumDemo.element_names element.bf16)
    as (_ & _ & _ & Hout).
  split; [|split; [|split]].
  - apply Hsame.
    + simpl. repeat constructor; rewrite ?elem_of_cons, ?elem_of_nil;
        intuition discriminate.
    + simpl. rewrite !elem_of_cons. tauto.
  - by apply (Hedit (λ _, "f64") "f32" element.f64).
  - apply (Hbad (λ _, "i8") "f32"); [done|].
    simpl. rewrite !not_elem_of_cons. repeat split; try discriminate.
    apply not_elem_of_nil.
  - apply (Hout id). simpl. rewrite !not_elem_of_cons.
    repeat split; try discriminate. apply not_elem_of_nil.
Defined.

(** X6. [set_string] of an [EnumAdapter] with a name of the table assigns
    the variable, and [get_string] then returns that name, when no
    enumerator occurs twice in the table; with a name that the table lacks
    the check fails and the variable keeps its value. *)
Theorem enum_adapter_set_then_get {EnumType : Type} `{EqDecision EnumType}
    (names : EnumNames.EnumNames EnumType) (value : string) (m_value : EnumType) :
  (NoDup (EnumNames.m_string_enums names).*2 →
   value ∈ (EnumNames.m_string_enums names).*1 →
   ∃ e, EnumNames.EnumAdapter_set_string names value m_value =
          (e, EnumNames.Return ()) ∧
        EnumNames.EnumAdapter_get_string names e = EnumNames.Return value) ∧
  (value ∉ (EnumNames.m_string_enums names).*1 →
   ∃ explanation,
     EnumNames.EnumAdapter_set_string names value m_value =
     (m_value, EnumNames.CheckFailure explanation)).
Proof.
  unfold EnumNames.EnumAdapter_set_string, EnumNames.EnumAdapter_get_string,
    EnumNames.as_string, EnumNames.as_enum.
  split.
  - intros Hnd Hn.
    destruct (EnumNames.find_enum value _) as [e|] eqn:Hfind.
    + exists e. split; [done|]. apply find_enum_Some in Hfind.
      by rewrite (find_string_NoDup value e).
    + by apply find_enum_None in Hfind.
  - intros Hn. apply find_enum_None in Hn. rewrite Hn. by eexists.
Qed.

Lemma enum_adapter_set_then_get_witness :
  (∃ e, EnumNames.EnumAdapter_set_string EnumDemo.element_names "f64" element.boolean =
          (e, EnumNames.Return ()) ∧
        EnumNames.EnumAdapter_get_string EnumDemo.element_names e =
          EnumNames.Return "f64") ∧
  (∃ explanation,
     EnumNames.EnumAdapter_set_string EnumDemo.element_names "u8" element.boolean =
     (element.boolean, EnumNames.CheckFailure explanation)).
Proof.
  split.
  - apply (enum_adapter_set_then_get EnumDemo.element_names "f64" element.boolean).
    + simpl. repeat constructor; rewrite ?elem_of_cons, ?elem_of_nil;
        intuition discriminate.
    + simpl. rewrite !elem_of_cons. tauto.
  - apply (enum_adapter_set_then_get EnumDemo.element_names "u8" element.boolean).
    simpl. rewrite !not_elem_of_cons. repeat split; try discriminate.
    apply not_elem_of_nil.
Defined.

(** ** More on [build_tensors_list] *)

Lemma push_back_unique_elem_of v t : t ∈ v → push_back_unique v t = v.
Proof. intros Ht. unfold push_back_unique. by rewrite bool_decide_true. Qed.

Lemma push_back_unique_idempotent v t :
  push_back_unique (push_back_unique v t) t = push_back_unique v t.
Proof.
  apply push_back_unique_elem_of. unfold push_back_unique.
  case_bool_decide; [done|]. apply elem_of_app. right. by left.
Qed.

Lemma foldl_push_back_unique_absorb l xs :
  (∀ x, x ∈ xs → x ∈ l) → foldl push_back_unique l xs = l.
Proof.
  induction xs as [|x r IH]; intros Hxs; [done|].
  simpl. rewrite push_back_unique_elem_of by (apply Hxs; by left).
  apply IH. intros y Hy. apply Hxs. by right.
Qed.

Lemma elem_of_foldl_push_back_unique l xs x :
  x ∈ foldl push_back_unique l xs ↔ x ∈ l ∨ x ∈ xs.
Proof.
  rewrite foldl_push_back_unique, elem_of_app, list_elem_of_filter,
    elem_of_first_occurrences.
  destruct (decide (x ∈ l)); tauto.
Qed.

(** X7. Running the boundary analysis again changes nothing: every tensor
    it would add is in the lists already. *)
Theorem build_tensors_list_idempotent (G : Graph) (s : State) :
  build_tensors_list G (build_tensors_list G s) = build_tensors_list G s.
Proof.
  rewrite (build_tensors_list_fold G (build_tensors_list G s)).
  rewrite (build_tensors_list_fold G s). simpl.
  rewrite !(foldl_push_back_unique_absorb (foldl push_back_unique _ _)); [done|..];
    intros x Hx; apply elem_of_foldl_push_back_unique; by right.
Qed.

Lemma scan_output_any G sub node op i :
  scan_output G sub node op i =
  if bool_decide (Exists (λ ip, get_node ip ∉ sub) (get_output_inputs G node i))
  then push_back_unique op (get_output_tensor_ptr G node i)
  else op.
Proof.
  unfold scan_output, out_of_subgraph.
  generalize (get_output_tensor_ptr G node i) as t.
  generalize (get_output_inputs G node i) as inputs. intros inputs t. revert op.
  induction inputs as [|ip r IH]; intros op; cbn [foldl].
  - rewrite bool_decide_false; [done|]. by intros ?%Exists_nil.
  - rewrite IH.
    pose proof (push_back_unique_idempotent op t) as Hidem.
    destruct (decide (get_node ip ∉ sub)) as [Hip|Hip],
      (decide (Exists (λ ip, get_node ip ∉ sub) r)) as [Hr|Hr];
      rewrite ?(bool_decide_true _ Hip), ?(bool_decide_false _ Hip),
        ?(bool_decide_true _ Hr), ?(bool_decide_false _ Hr).
    + rewrite bool_decide_true by (apply Exists_cons; by left). done.
    + rewrite bool_decide_true by (apply Exists_cons; by left). done.
    + rewrite bool_decide_true by (apply Exists_cons; by right). done.
    + rewrite bool_decide_false; [done|]. rewrite Exists_cons. tauto.
Qed.

Lemma reversed_uses_same (G : Graph) : same_up_to_use_order G (reversed_uses G).
Proof.
  repeat split. intros n i. simpl. symmetry. apply reverse_Permutation.
Qed.

(** X8. The boundary lists do not depend on the order in which the set of
    uses of an output is iterated, which is the order of the addresses of
    the [Input] objects: two graphs that differ in that order only give
    the same lists. *)
Theorem boundary_lists_ignore_use_order (G G' : Graph) (s : State) :
  same_up_to_use_order G G' →
  build_tensors_list G s = build_tensors_list G' s.
Proof.
  intros (Hsize & Huses & Htensor & Hargs). unfold build_tensors_list.
  generalize (m_sub_graph s) at 1 3 as sub. intros sub.
  generalize (m_sub_graph s) as nodes. intros nodes. revert s.
  induction nodes as [|n r IH]; intros s; [done|].
  simpl. rewrite <- IH. f_equal. unfold scan_node. f_equal.
  - unfold scan_arguments. rewrite <- Hargs.
    generalize (m_ip_tensors s) as ip. generalize (get_arguments G n) as args.
    induction args as [|a args IHa]; intros ip; [done|].
    simpl. rewrite <- IHa. f_equal. unfold scan_argument.
    destruct (out_of_subgraph sub a); [|done]. rewrite <- Hsize.
    generalize (seq 0 (get_output_size G a)) as slots. revert ip.
    intros ip slots. revert ip. induction slots as [|i slots IHs]; intros ip; [done|].
    simpl. by rewrite <- IHs, Htensor.
  - unfold scan_outputs. rewrite <- Hsize.
    generalize (m_op_tensors s) as op. generalize (seq 0 (get_output_size G n)) as slots.
    induction slots as [|i slots IHs]; intros op; [done|].
    simpl. rewrite <- IHs. f_equal. rewrite !scan_output_any, Htensor.
    assert (bool_decide (Exists (λ ip, get_node ip ∉ sub) (get_output_inputs G n i)) =
            bool_decide (Exists (λ ip, get_node ip ∉ sub) (get_output_inputs G' n i)))
      as -> by (apply bool_decide_ext; by rewrite (Huses n i)).
    done.
Qed.

Lemma boundary_lists_ignore_use_order_witness :
  build_tensors_list Demo.G Demo.two_node_unit =
  build_tensors_list (reversed_uses Demo.G) Demo.two_node_unit.
Proof.
  apply boundary_lists_ignore_use_order. apply reversed_uses_same.
Defined.

(** X9. On a compiler whose lists are still empty, when every tensor has
    one producing output among the unit nodes and their arguments, no
    tensor is both in the boundary-input and in the boundary-output
    list. *)
Theorem boundary_lists_are_disjoint (G : Graph) (s : State) :
  m_ip_tensors s = [] → m_op_tensors s = [] →
  produced_once G (m_sub_graph s ++ (m_sub_graph s ≫= get_arguments G)) →
  ∀ t, t ∈ m_ip_tensors (build_tensors_list G s) →
       t ∉ m_op_tensors (build_tensors_list G s).
Proof.
  intros Hip Hop Hprod t. rewrite build_tensors_list_fold. simpl.
  rewrite Hip, Hop, !foldl_push_back_unique_nil, !elem_of_first_occurrences.
  rewrite elem_of_input_discoveries, elem_of_output_discoveries.
  intros (node & arg & i & Hnode & Harg & Hout & Hi & ->)
         (node' & i' & ip & Hnode' & Hi' & _ & _ & Heq).
  destruct (Hprod arg i node' i') as [-> _]; try done.
  - apply elem_of_app. right. apply list_elem_of_bind. by exists node.
  - apply elem_of_app. by left.
Qed.

Lemma demo_add_unit_produced_once :
  produced_once Demo.G
    (m_sub_graph Demo.add_unit ++ (m_sub_graph Demo.add_unit ≫= get_arguments Demo.G)).
Proof.
  intros n i n' i' Hn Hn' Hi Hi' Heq. simpl in Hn, Hn'.
  rewrite !elem_of_cons, elem_of_nil in Hn, Hn'.
  destruct Hn as [->|[->|[->|[]]]], Hn' as [->|[->|[->|[]]]];
    simpl in Hi, Hi'; destruct i, i'; try lia; try done.
Defined.

Lemma boundary_lists_are_disjoint_witness :
  11%positive ∉ m_op_tensors (build_tensors_list Demo.G Demo.add_unit).
Proof.
  apply (boundary_lists_are_disjoint Demo.G Demo.add_unit eq_refl eq_refl
           demo_add_unit_produced_once).
  vm_compute. by left.
Defined.

(** ** What [build_module] leaves alone *)

(** X10. However [build_module] ends, it has changed nothing but the
    tensor lists, the value map, the module and the builder: the unit, the
    table of external buffers, the invocation arguments, the engine, the
    memory manager and the heap are as before, and the compiled code has
    not been invoked. *)
Theorem build_module_touches_its_own_members (G : Graph) (s : State) :
  let s' := final_state (build_module G s) in
  m_sub_graph s' = m_sub_graph s ∧
  m_external_tensors s' = m_external_tensors s ∧
  m_invoke_args s' = m_invoke_args s ∧
  m_engine s' = m_engine s ∧
  m_mem_mgr s' = m_mem_mgr s ∧
  heap s' = heap s ∧
  jit_invocations s' = jit_invocations s.
Proof.
  intros s'. pose proof (untouched_build_module G s) as H.
  fold s' in H. unfold untouched_by_build in H. by inversion H.
Qed.

(** X11. When [compile_and_run] ends with [unsupported_op], nothing has
    been allocated or freed and nothing has been invoked: the heap, the
    invocation arguments, the memory manager and the table of external
    buffers are as before the call. *)
Theorem unsupported_op_leaves_memory_alone (G : Graph) (B : Backend) (s s' : State) msg :
  compile_and_run G B s = Unsupported msg s' →
  heap s' = heap s ∧
  m_invoke_args s' = m_invoke_args s ∧
  m_mem_mgr s' = m_mem_mgr s ∧
  m_external_tensors s' = m_external_tensors s ∧
  jit_invocations s' = jit_invocations s.
Proof.
  intros Hrun. unfold compile_and_run in Hrun.
  unfold MLIRCompiler.bind at 1 in Hrun.
  pose proof (untouched_build_module G s) as Hframe.
  destruct (build_module G s) as [[] s1|msg1 s1|msg1 s1|msg1 s1] eqn:Hbuild;
    [|done| |done].
  - exfalso. revert Hrun.
    pose proof (never_lower_dialect B). pose proof (never_optimize B).
    pose proof never_bind_arguments. pose proof (never_execute B).
    pose proof never_cleanup. never.
  - inversion Hrun. subst. simpl in Hframe. unfold untouched_by_build in Hframe.
    by inversion Hframe.
Qed.

Lemma unsupported_op_leaves_memory_alone_witness :
  ∃ msg s', compile_and_run Demo.G (Demo.B false) Demo.relu_unit = Unsupported msg s' ∧
            heap s' = Demo.caller_heap ∧ jit_invocations s' = 0.
Proof.
  assert (Hrun : ∃ msg s', compile_and_run Demo.G (Demo.B false) Demo.relu_unit =
                           Unsupported msg s')
    by (eexists _, _; vm_compute; reflexivity).
  destruct Hrun as (msg & s' & Hrun). exists msg, s'. split; [done|].
  destruct (unsupported_op_leaves_memory_alone _ _ _ _ _ Hrun)
    as (Hheap & _ & _ & _ & Hjit).
  by rewrite Hheap, Hjit.
Defined.

(** ** The builders *)

Lemma create_binary_op_eq G BinOp ng_node s :
  create_binary_op G BinOp ng_node s =
  match get_arguments G ng_node !! 0 with
  | None => Fatal "get_argument: index out of range" s
  | Some arg0 =>
    match get_arguments G ng_node !! 1 with
    | None => Fatal "get_argument: index out of range" s
    | Some arg1 =>
      match m_tensor_to_value_map s !! get_output_tensor_ptr G arg0 0 with
      | None => Fatal "Undefined tensor" s
      | Some lhs_v =>
        match m_tensor_to_value_map s !! get_output_tensor_ptr G arg1 0 with
        | None => Fatal "Undefined tensor" s
        | Some rhs_v =>
          match m_builder s with
          | None => Abort "m_builder is null" s
          | Some f =>
              Ok (ir.create (BinOp (m_value lhs_v) (m_value rhs_v)) f).2
                 (set_builder
                    (Some (ir.create (BinOp (m_value lhs_v) (m_value rhs_v)) f).1) s)
          end
        end
      end
    end
  end.
Proof.
  unfold create_binary_op, get_argument.
  destruct (get_arguments G ng_node !! 0) as [arg0|]; [|done].
  unfold MLIRCompiler.bind at 1. unfold MLIRCompiler.ret at 1.
  destruct (get_arguments G ng_node !! 1) as [arg1|]; [|done].
  unfold MLIRCompiler.bind at 1. unfold MLIRCompiler.ret at 1.
  unfold MLIRCompiler.bind at 1. rewrite get_tensor_value_eq.
  destruct (m_tensor_to_value_map s !! get_output_tensor_ptr G arg0 0) as [lhs_v|]; [|done].
  unfold MLIRCompiler.bind at 1. rewrite get_tensor_value_eq.
  destruct (m_tensor_to_value_map s !! get_output_tensor_ptr G arg1 0) as [rhs_v|]; [|done].
  unfold builder_create. destruct (m_builder s) as [f|]; [|done].
  by destruct (ir.create _ f).
Qed.

Lemma mapM_values_ok (tensors : list Tensor) (values : list ir.Value) s :
  Forall2 (λ t v, m_tensor_to_value_map s !! t = Some {| m_value := v |})
          tensors values →
  MLIRCompiler.mapM
    (λ tensor, MLIRCompiler.bind (get_tensor_value tensor)
                 (λ i, MLIRCompiler.ret (m_value i))) tensors s = Ok values s.
Proof.
  induction 1 as [|t v r vs Ht _ IH]; [done|].
  simpl. unfold MLIRCompiler.bind at 1. unfold MLIRCompiler.bind at 1.
  rewrite get_tensor_value_eq, Ht. unfold MLIRCompiler.ret at 1.
  unfold MLIRCompiler.bind at 1. by rewrite IH.
Qed.

Lemma mapM_values_undefined (tensors : list Tensor) t s :
  t ∈ tensors → m_tensor_to_value_map s !! t = None →
  MLIRCompiler.mapM
    (λ tensor, MLIRCompiler.bind (get_tensor_value tensor)
                 (λ i, MLIRCompiler.ret (m_value i))) tensors s =
  Fatal "Undefined tensor" s.
Proof.
  intros Hin Ht. induction tensors as [|x r IH]; [by apply elem_of_nil in Hin|].
  simpl. unfold MLIRCompiler.bind at 1. unfold MLIRCompiler.bind at 1.
  rewrite get_tensor_value_eq.
  destruct (m_tensor_to_value_map s !! x) as [info|] eqn:Hx; [|done].
  unfold MLIRCompiler.ret at 1. unfold MLIRCompiler.bind at 1.
  apply elem_of_cons in Hin as [->|Hin]; [congruence|]. by rewrite IH.
Qed.

Lemma create_returns_blocks op f :
  ir.getName (ir.create op f).1 = ir.getName f ∧
  ir.getArgumentTypes (ir.create op f).1 = ir.getArgumentTypes f ∧
  ir.getResultTypes (ir.create op f).1 = ir.getResultTypes f ∧
  ir.getBlocks (ir.create op f).1 ≠ [].
Proof. unfold ir.create. by destruct (ir.getBlocks f). Qed.

(** X12. [create_binary_op] on a compiler with a builder, for a node that
    has arguments 0 and 1.  When the tensors of output 0 of the two
    arguments have values, it creates one operation on these values, in
    this order, at the end of the block the builder points into, returns
    the result of this operation, and changes nothing but the function
    behind the builder.  When one of the two tensors has no value, it
    fails with "Undefined tensor" and leaves the compiler as it was, with
    no operation created. *)
Theorem binary_op_creates_one_operation (G : Graph)
    (BinOp : ir.Value → ir.Value → ir.Operation) (ng_node arg0 arg1 : Node)
    (f : ir.Function) (s : State) :
  m_builder s = Some f →
  get_arguments G ng_node !! 0 = Some arg0 →
  get_arguments G ng_node !! 1 = Some arg1 →
  let lhs := m_tensor_to_value_map s !! get_output_tensor_ptr G arg0 0 in
  let rhs := m_tensor_to_value_map s !! get_output_tensor_ptr G arg1 0 in
  (∀ lhs_v rhs_v,
     lhs = Some {| m_value := lhs_v |} → rhs = Some {| m_value := rhs_v |} →
     let created := ir.create (BinOp lhs_v rhs_v) f in
     create_binary_op G BinOp ng_node s =
       Ok created.2 (set_builder (Some created.1) s) ∧
     ∀ b bs, ir.getBlocks f = b :: bs →
             ir.getBlocks created.1 = (b ++ [BinOp lhs_v rhs_v]) :: bs ∧
             created.2 = ir.OpResult (length b)) ∧
  (lhs = None ∨ rhs = None →
   create_binary_op G BinOp ng_node s = Fatal "Undefined tensor" s).
Proof.
  intros Hb H0 H1 lhs rhs. subst lhs rhs.
  rewrite create_binary_op_eq, H0, H1, Hb. split.
  - intros lhs_v rhs_v -> ->. simpl. split; [done|].
    intros b bs Hblocks. unfold ir.create. by rewrite Hblocks.
  - intros [->| ->]; [done|].
    by destruct (m_tensor_to_value_map s !! get_output_tensor_ptr G arg0 0).
Qed.

Lemma binary_op_creates_one_operation_witness :
  let s := set_builder (Some Demo.add_function) Demo.add_unit_seeded in
  ∃ f',
    create_binary_op Demo.G ir.NG_AddOp 3%positive s =
      Ok (ir.OpResult 0) (set_builder (Some f') s) ∧
    ir.getBlocks f' = [[ir.NG_AddOp (ir.BlockArgument 0) (ir.BlockArgument 1)]].
Proof.
  intros s.
  destruct (binary_op_creates_one_operation Demo.G ir.NG_AddOp 3%positive
              1%positive 2%positive Demo.add_function s eq_refl eq_refl eq_refl)
    as [Hok _].
  destruct (Hok (ir.BlockArgument 0) (ir.BlockArgument 1) eq_refl eq_refl)
    as [Hrun Hblocks].
  destruct (Hblocks [] [] eq_refl) as [Hb Hv].
  eexists. split; [|exact Hb]. exact (eq_trans Hrun (f_equal (λ v, Ok v _) Hv)).
Defined.

(** X13. [create_return], with a builder: when every boundary-output
    tensor has a value, it creates one return operation whose operands are
    these values in the order of the boundary-output list, and changes
    nothing else; when one of them has no value, it fails with "Undefined
    tensor" and creates nothing. *)
Theorem create_return_lists_the_outputs (s : State) (f : ir.Function) :
  m_builder s = Some f →
  (∀ values,
     Forall2 (λ t v, m_tensor_to_value_map s !! t = Some {| m_value := v |})
             (m_op_tensors s) values →
     create_return s =
     Ok () (set_builder (Some (ir.create (ir.NG_ReturnOp values) f).1) s)) ∧
  (∀ t, t ∈ m_op_tensors s → m_tensor_to_value_map s !! t = None →
        create_return s = Fatal "Undefined tensor" s).
Proof.
  intros Hb. unfold create_return. split.
  - intros values Hvalues. unfold MLIRCompiler.bind at 1. simpl.
    unfold MLIRCompiler.bind at 1. rewrite (mapM_values_ok _ values) by done.
    unfold MLIRCompiler.bind at 1. unfold builder_create. rewrite Hb.
    by destruct (ir.create _ f).
  - intros t Ht Hnone. unfold MLIRCompiler.bind at 1. simpl.
    unfold MLIRCompiler.bind at 1. by rewrite (mapM_values_undefined _ t).
Qed.

Lemma create_return_lists_the_outputs_witness :
  let s := set_builder (Some Demo.add_function)
             (set_tensors_lists [11; 12]%positive [12; 11]%positive
                Demo.add_unit_seeded) in
  create_return s =
  Ok () (set_builder
           (Some (ir.create (ir.NG_ReturnOp [ir.BlockArgument 1; ir.BlockArgument 0])
                            Demo.add_function).1) s).
Proof.
  intros s.
  apply (proj1 (create_return_lists_the_outputs s Demo.add_function eq_refl)).
  constructor; [reflexivity|]. constructor; [reflexivity|]. constructor.
Defined.

(** X14. A unit made of a MatmulBias node that has not exactly two
    arguments is rejected: [build_ng_dialect] fails with "Bias is not
    supported in MatmulBias operation" and leaves the compiler as it was,
    without an operation created. *)
Theorem matmul_with_bias_is_rejected (G : Graph) (s : State) (np : Node) :
  m_sub_graph s = [np] →
  TI G np = TI_MatmulBias →
  length (get_arguments G np) ≠ 2 →
  build_ng_dialect G s = Fatal "Bias is not supported in MatmulBias operation" s.
Proof.
  intros Hsub Hti Hlen. unfold build_ng_dialect. unfold_M.
  rewrite Hsub. simpl. unfold op_dispatcher_find. rewrite Hti. simpl.
  unfold create_op_MatmulBias. unfold_M. by rewrite bool_decide_false.
Qed.

Lemma matmul_with_bias_is_rejected_witness :
  build_ng_dialect Demo.G_bias Demo.add_unit =
  Fatal "Bias is not supported in MatmulBias operation" Demo.add_unit.
Proof.
  apply (matmul_with_bias_is_rejected Demo.G_bias Demo.add_unit 3%positive);
    [reflexivity|reflexivity|]. simpl. lia.
Defined.

(** ** [build_module] from end to end *)

Lemma get_mlir_type_eq G tensor s :
  get_mlir_type G tensor s =
  match get_mlir_type_element (get_element_type G tensor) s with
  | Ok elt _ => Ok (ir.NGTensorType elt (to_int64 <$> get_shape G tensor)) s
  | Fatal msg _ => Fatal msg s
  | Unsupported msg _ => Unsupported msg s
  | Abort msg _ => Abort msg s
  end.
Proof.
  unfold get_mlir_type, get_mlir_type_element. unfold_M.
  by destruct (get_element_type G tensor).
Qed.

Lemma get_mlir_type_element_independent t s elt s' s2 :
  get_mlir_type_element t s = Ok elt s' → get_mlir_type_element t s2 = Ok elt s2.
Proof.
  unfold get_mlir_type_element. unfold_M. destruct t; intros Hok; by inversion Hok.
Qed.

Lemma get_mlir_type_independent G tensor s ty s' s2 :
  get_mlir_type G tensor s = Ok ty s' → get_mlir_type G tensor s2 = Ok ty s2.
Proof.
  rewrite !get_mlir_type_eq.
  destruct (get_mlir_type_element _ s) as [elt s1|?|?|?] eqn:Helt; [|done..].
  rewrite (get_mlir_type_element_independent _ _ _ _ s2 Helt).
  intros Hok. by inversion Hok.
Qed.

Lemma mapM_get_mlir_type_independent G tensors s tys s' s2 :
  MLIRCompiler.mapM (get_mlir_type G) tensors s = Ok tys s' →
  MLIRCompiler.mapM (get_mlir_type G) tensors s2 = Ok tys s2.
Proof.
  revert tys s'. induction tensors as [|t r IH]; intros tys s'; simpl.
  - unfold_M. intros Hok. by inversion Hok.
  - unfold MLIRCompiler.bind at 1 3.
    destruct (get_mlir_type G t s) as [ty s1|?|?|?] eqn:Ht; [|done..].
    rewrite (get_mlir_type_independent _ _ _ _ _ s2 Ht).
    apply get_mlir_type_state in Ht as ->.
    unfold MLIRCompiler.bind at 1 2.
    destruct (MLIRCompiler.mapM (get_mlir_type G) r s) as [ys s3|?|?|?] eqn:Hr; [|done..].
    rewrite (IH _ _ eq_refl). unfold MLIRCompiler.ret. intros Hok. by inversion Hok.
Qed.

Lemma mapM_get_mlir_type_total G tensors s :
  (∀ t, t ∈ tensors → get_element_type G t ∉ unsupported_element_types) →
  ∃ tys, MLIRCompiler.mapM (get_mlir_type G) tensors s = Ok tys s.
Proof.
  induction tensors as [|t r IH]; intros Hsup; simpl; [by eexists|].
  destruct IH as [ys Hys]; [intros x Hx; apply Hsup; by right|].
  assert (Ht : ∃ ty, get_mlir_type G t s = Ok ty s).
  { rewrite get_mlir_type_eq. specialize (Hsup t ltac:(by left)).
    unfold unsupported_element_types in Hsup. rewrite !not_elem_of_cons in Hsup.
    unfold get_mlir_type_element. unfold_M.
    destruct (get_element_type G t); try (by eexists); exfalso; tauto. }
  destruct Ht as [ty Ht]. exists (ty :: ys).
  unfold MLIRCompiler.bind at 1. rewrite Ht.
  unfold MLIRCompiler.bind at 1. by rewrite Hys.
Qed.

Lemma mapM_get_mlir_type_tensors G tensors s tys s' :
  MLIRCompiler.mapM (get_mlir_type G) tensors s = Ok tys s' →
  Forall (λ ty, ir.dyn_cast_MemRefType ty = None) tys.
Proof.
  revert tys s'. induction tensors as [|t r IH]; intros tys s'; simpl.
  - unfold_M. intros Hok. inversion Hok. constructor.
  - unfold MLIRCompiler.bind at 1.
    destruct (get_mlir_type G t s) as [ty s1|?|?|?] eqn:Ht; [|done..].
    pose proof Ht as Hs. apply get_mlir_type_state in Hs as ->.
    unfold MLIRCompiler.bind at 1.
    destruct (MLIRCompiler.mapM (get_mlir_type G) r s) as [ys s3|?|?|?] eqn:Hr; [|done..].
    unfold MLIRCompiler.ret. intros Hok. inversion Hok. subst.
    constructor; [|by apply (IH _ _ eq_refl)].
    rewrite get_mlir_type_eq in Ht.
    destruct (get_mlir_type_element _ s); [|done..]. by inversion Ht.
Qed.

(** [build_module_function], when the lists and the types are there. *)
Lemma build_module_function_eq G s tin tout :
  let s1 := build_tensors_list G (set_module (Some []) s) in
  m_ip_tensors s1 ≠ [] → m_op_tensors s1 ≠ [] →
  MLIRCompiler.mapM (get_mlir_type G) (m_ip_tensors s1) s1 = Ok tin s1 →
  MLIRCompiler.mapM (get_mlir_type G) (m_op_tensors s1) s1 = Ok tout s1 →
  build_module_function G s =
  Ok (ir.addEntryBlock
        {| ir.getName := "main"; ir.getArgumentTypes := tin;
           ir.getResultTypes := tout; ir.getBlocks := [] |})
     (set_tensor_to_value_map
        (populate_value_map 0 (m_ip_tensors s1) (m_tensor_to_value_map s1)) s1).
Proof.
  intros s1 Hip Hop Htin Htout. unfold build_module_function. unfold_M. fold s1.
  rewrite bool_decide_true by (by destruct (m_ip_tensors s1)).
  rewrite bool_decide_true by (by destruct (m_op_tensors s1)).
  by rewrite Htin, Htout.
Qed.

Lemma build_module_function_inv G s function s' :
  build_module_function G s = Ok function s' →
  let s1 := build_tensors_list G (set_module (Some []) s) in
  ∃ tin tout,
    m_ip_tensors s1 ≠ [] ∧ m_op_tensors s1 ≠ [] ∧
    MLIRCompiler.mapM (get_mlir_type G) (m_ip_tensors s1) s1 = Ok tin s1 ∧
    MLIRCompiler.mapM (get_mlir_type G) (m_op_tensors s1) s1 = Ok tout s1 ∧
    function = ir.addEntryBlock
                 {| ir.getName := "main"; ir.getArgumentTypes := tin;
                    ir.getResultTypes := tout; ir.getBlocks := [] |} ∧
    s' = set_tensor_to_value_map
           (populate_value_map 0 (m_ip_tensors s1) (m_tensor_to_value_map s1)) s1.
Proof.
  intros H s1. unfold build_module_function in H. unfold_M. fold s1 in H.
  case_bool_decide as Hip; [|done]. case_bool_decide as Hop; [|done].
  destruct (MLIRCompiler.mapM (get_mlir_type G) (m_ip_tensors s1) s1)
    as [tin s2|msg s2|msg s2|msg s2] eqn:Hargs; try done.
  pose proof Hargs as Hs2. apply mapM_get_mlir_type_state in Hs2 as [-> _].
  destruct (MLIRCompiler.mapM (get_mlir_type G) (m_op_tensors s1) s1)
    as [tout s2|msg s2|msg s2|msg s2] eqn:Hres; try done.
  pose proof Hres as Hs2. apply mapM_get_mlir_type_state in Hs2 as [-> _].
  inversion H. subst. exists tin, tout.
  split; [intros Hnil; by rewrite Hnil in Hip|].
  split; [intros Hnil; by rewrite Hnil in Hop|]. done.
Qed.

(** [build_ng_dialect] on a unit of one node with a builder in the table. *)
Lemma build_ng_dialect_binary G s np BinOp :
  m_sub_graph s = [np] →
  binary_operation (TI G np) = Some BinOp →
  (TI G np = TI_MatmulBias → length (get_arguments G np) = 2) →
  build_ng_dialect G s =
  MLIRCompiler.bind
    (MLIRCompiler.bind (create_binary_op G BinOp np)
       (λ v, update_tensor_value (get_output_tensor_ptr G np 0) v))
    (λ _, create_return) s.
Proof.
  intros Hsub Hop Hbias. unfold build_ng_dialect.
  unfold MLIRCompiler.bind at 1. simpl.
  unfold MLIRCompiler.bind at 1. unfold NGRAPH_ASSERT at 1.
  rewrite Hsub. simpl. unfold MLIRCompiler.bind at 1 4.
  unfold op_dispatcher_find.
  destruct (TI G np) eqn:Hti; simpl in *; [| |done].
  - injection Hop as <-. unfold create_op_Add.
    unfold MLIRCompiler.bind at 1 2 3.
    by destruct (create_binary_op G ir.NG_AddOp np s).
  - injection Hop as <-. unfold create_op_MatmulBias.
    unfold MLIRCompiler.bind at 1 2 3 4. unfold NGRAPH_ASSERT at 1.
    rewrite bool_decide_true by auto.
    by destruct (create_binary_op G ir.NG_MatmulBiasOp np s).
Qed.

Lemma build_ng_dialect_ok_inv G s s' :
  build_ng_dialect G s = Ok () s' →
  ∃ np BinOp,
    m_sub_graph s = [np] ∧ binary_operation (TI G np) = Some BinOp ∧
    (TI G np = TI_MatmulBias → length (get_arguments G np) = 2).
Proof.
  unfold build_ng_dialect. unfold MLIRCompiler.bind at 1. simpl.
  unfold MLIRCompiler.bind at 1. unfold NGRAPH_ASSERT at 1.
  case_bool_decide as Hlen; [|done].
  destruct (m_sub_graph s) as [|np [|? ?]] eqn:Hsub; try done. simpl.
  unfold MLIRCompiler.bind at 1. unfold op_dispatcher_find.
  destruct (TI G np) eqn:Hti; simpl; [| |done].
  - intros _. exists np, ir.NG_AddOp. rewrite Hti. by repeat split.
  - unfold create_op_MatmulBias. unfold MLIRCompiler.bind at 1 2.
    unfold NGRAPH_ASSERT at 1. case_bool_decide as Hargs; [|done].
    intros _. exists np, ir.NG_MatmulBiasOp. rewrite Hti. by repeat split.
Qed.

(** X15. [get_mlir_type] of a tensor: with a supported element type it
    returns the tensor type of that element type whose sizes are the
    dimensions stored as 64-bit signed integers, which are the dimensions
    themselves when they are below 2^63, and with an unsupported element
    type it fails; a dimension from 2^63 on is stored as a negative
    size. *)
Theorem tensor_type_keeps_the_shape (G : Graph) (tensor : Tensor) (s : State) :
  (get_element_type G tensor ∉ unsupported_element_types →
   ∃ elt,
     get_mlir_type_element (get_element_type G tensor) s = Ok elt s ∧
     get_mlir_type G tensor s =
       Ok (ir.NGTensorType elt (to_int64 <$> get_shape G tensor)) s) ∧
  (get_element_type G tensor ∈ unsupported_element_types →
   get_mlir_type G tensor s = Fatal "MLIR: Unsupported NGraph types" s) ∧
  (Forall (λ d, 0 ≤ d < 2 ^ 63)%Z (get_shape G tensor) →
   to_int64 <$> get_shape G tensor = get_shape G tensor) ∧
  (∀ d, (2 ^ 63 ≤ d < 2 ^ 64)%Z → to_int64 d = (d - 2 ^ 64)%Z ∧ (to_int64 d < 0)%Z).
Proof.
  split; [|split; [|split]].
  - intros Hsup. rewrite get_mlir_type_eq.
    unfold unsupported_element_types in Hsup. rewrite !not_elem_of_cons in Hsup.
    unfold get_mlir_type_element. unfold_M.
    destruct (get_element_type G tensor); try (by eexists); exfalso; tauto.
  - intros Hbad. rewrite get_mlir_type_eq.
    unfold unsupported_element_types in Hbad.
    rewrite !elem_of_cons, elem_of_nil in Hbad.
    by destruct Hbad as [->|[->|[->|[->|[]]]]].
  - induction 1 as [|d r Hd _ IH]; [done|].
    rewrite fmap_cons, IH. f_equal. unfold to_int64.
    rewrite Z.mod_small by lia. case_match; [done|].
    apply Z.ltb_ge in H. lia.
  - intros d Hd. unfold to_int64. rewrite Z.mod_small by lia.
    assert (Hge : (d <? 2 ^ 63)%Z = false) by (apply Z.ltb_ge; lia).
    rewrite Hge. lia.
Qed.

Lemma tensor_type_keeps_the_shape_witness :
  get_mlir_type Demo.G 11%positive Demo.add_unit =
    Ok (ir.NGTensorType mlir.F32 [2; 3]%Z) Demo.add_unit ∧
  to_int64 (2 ^ 63) = (- 2 ^ 63)%Z.
Proof.
  destruct (tensor_type_keeps_the_shape Demo.G 11%positive Demo.add_unit)
    as (Hsup & _ & Hshape & Hbig).
  split.
  - destruct Hsup as (elt & Helt & ->).
    { unfold unsupported_element_types. simpl. rewrite !not_elem_of_cons.
      repeat split; try discriminate. apply not_elem_of_nil. }
    simpl in Helt. injection Helt as <-. rewrite Hshape; [done|].
    simpl. repeat constructor; lia.
  - destruct (Hbig (2 ^ 63)%Z) as [-> _]; lia.
Defined.

(** X16. The module of a unit made of one binary node.  On a freshly
    constructed compiler for a unit of one Add or MatmulBias node with two
    arguments, when the tensors of output 0 of the arguments are the
    [k0]-th and [k1]-th boundary inputs, the only boundary output is the
    tensor of output 0 of the node, which is no boundary input, and all
    element types are supported, [build_module] succeeds; the module then
    holds one function, [main], with one parameter for each boundary input
    and one result, whose body is the operation of the node on the
    arguments [k0] and [k1] followed by the return of its result. *)
Theorem build_module_of_a_binary_unit (G : Graph) (s : State) (np a0 a1 : Node)
    (BinOp : ir.Value → ir.Value → ir.Operation) (k0 k1 : nat) :
  m_ip_tensors s = [] → m_op_tensors s = [] → m_tensor_to_value_map s = ∅ →
  m_sub_graph s = [np] →
  binary_operation (TI G np) = Some BinOp →
  get_arguments G np = [a0; a1] →
  let s1 := build_tensors_list G s in
  m_ip_tensors s1 !! k0 = Some (get_output_tensor_ptr G a0 0) →
  m_ip_tensors s1 !! k1 = Some (get_output_tensor_ptr G a1 0) →
  m_op_tensors s1 = [get_output_tensor_ptr G np 0] →
  get_output_tensor_ptr G np 0 ∉ m_ip_tensors s1 →
  (∀ t, t ∈ m_ip_tensors s1 ++ m_op_tensors s1 →
        get_element_type G t ∉ unsupported_element_types) →
  ∃ s' f,
    build_module G s = Ok () s' ∧
    m_module s' = Some [f] ∧
    ir.getName f = "main" ∧
    ir.getNumArguments f = length (m_ip_tensors s1) ∧
    length (ir.getResultTypes f) = 1 ∧
    ir.getBlocks f =
      [[BinOp (ir.BlockArgument k0) (ir.BlockArgument k1);
        ir.NG_ReturnOp [ir.OpResult 0]]] ∧
    m_tensor_to_value_map s' !! get_output_tensor_ptr G np 0 =
      Some {| m_value := ir.OpResult 0 |} ∧
    m_ip_tensors s' = m_ip_tensors s1 ∧ m_op_tensors s' = m_op_tensors s1.
Proof.
  intros Hip0 Hop0 Hmap0 Hsub Hbin Hargs s1 Hk0 Hk1 Hop Hout Hsup.
  set (sB := build_tensors_list G (set_module (Some []) s)).
  assert (HipB : m_ip_tensors sB = m_ip_tensors s1).
  { unfold sB, s1. by rewrite !build_tensors_list_fold. }
  assert (HopB : m_op_tensors sB = m_op_tensors s1).
  { unfold sB, s1. by rewrite !build_tensors_list_fold. }
  assert (HmapB : m_tensor_to_value_map sB = ∅).
  { unfold sB. by rewrite build_tensors_list_fold. }
  assert (HsubB : m_sub_graph sB = [np]).
  { unfold sB. by rewrite build_tensors_list_fold. }
  assert (HmodB : m_module sB = Some []).
  { unfold sB. by rewrite build_tensors_list_fold. }
  assert (Hnd : NoDup (m_ip_tensors s1)) by (by apply boundary_inputs_NoDup).
  destruct (mapM_get_mlir_type_total G (m_ip_tensors sB) sB) as [tin Htin].
  { intros t Ht. apply Hsup. rewrite <- HipB. apply elem_of_app. by left. }
  destruct (mapM_get_mlir_type_total G (m_op_tensors sB) sB) as [tout Htout].
  { intros t Ht. apply Hsup. rewrite <- HopB. apply elem_of_app. by right. }
  pose proof (mapM_get_mlir_type_state _ _ _ _ _ Htin) as [_ Hlin].
  pose proof (mapM_get_mlir_type_state _ _ _ _ _ Htout) as [_ Hlout].
  pose proof (build_module_function_eq G s tin tout) as Hfun. cbv zeta in Hfun.
  fold sB in Hfun. rewrite HipB, HopB, Hop, HmapB in Hfun.
  specialize (Hfun ltac:(by intros Hnil; rewrite Hnil in Hk0) ltac:(done)).
  rewrite HipB in Htin. rewrite HopB, Hop in Htout.
  specialize (Hfun Htin Htout).
  set (f0 := ir.addEntryBlock _) in Hfun.
  set (mC := populate_value_map 0 (m_ip_tensors s1) ∅) in Hfun.
  assert (Hl0 : mC !! get_output_tensor_ptr G a0 0 = Some {| m_value := ir.BlockArgument k0 |}).
  { unfold mC. by rewrite (populate_value_map_at 0 _ _ k0). }
  assert (Hl1 : mC !! get_output_tensor_ptr G a1 0 = Some {| m_value := ir.BlockArgument k1 |}).
  { unfold mC. by rewrite (populate_value_map_at 0 _ _ k1). }
  assert (Hlo : mC !! get_output_tensor_ptr G np 0 = None).
  { unfold mC. by rewrite populate_value_map_other. }
  unfold build_module. unfold MLIRCompiler.bind at 1. rewrite Hfun.
  unfold build_module_body. unfold MLIRCompiler.bind at 1. simpl.
  unfold MLIRCompiler.bind at 1.
  rewrite (build_ng_dialect_binary G _ np BinOp); [|done|done|by rewrite Hargs].
  unfold MLIRCompiler.bind at 1. unfold MLIRCompiler.bind at 1.
  rewrite create_binary_op_eq. simpl. rewrite Hargs. simpl. rewrite Hl0, Hl1. simpl.
  rewrite update_tensor_value_eq. simpl. rewrite Hlo.
  unfold create_return. unfold MLIRCompiler.bind at 1. simpl.
  unfold MLIRCompiler.bind at 1. rewrite HopB, Hop.
  rewrite (mapM_values_ok _ [ir.OpResult 0]).
  2:{ constructor; [|constructor]. simpl. by rewrite lookup_insert_eq. }
  unfold MLIRCompiler.bind at 1. unfold builder_create. simpl.
  unfold_M. simpl. rewrite HmodB.
  eexists _, _. split; [reflexivity|]. simpl.
  split; [reflexivity|]. split; [reflexivity|].
  split; [unfold ir.getNumArguments, f0; simpl; by rewrite Hlin, HipB|].
  split; [unfold f0; simpl; by rewrite Hlout, HopB, Hop|].
  split; [reflexivity|]. split; [by rewrite lookup_insert_eq|]. by rewrite HopB.
Qed.

Lemma build_module_of_a_binary_unit_witness :
  ∃ s' f,
    build_module Demo.G Demo.add_unit = Ok () s' ∧
    m_module s' = Some [f] ∧
    ir.getBlocks f =
      [[ir.NG_AddOp (ir.BlockArgument 0) (ir.BlockArgument 1);
        ir.NG_ReturnOp [ir.OpResult 0]]].
Proof.
  destruct (build_module_of_a_binary_unit Demo.G Demo.add_unit 3 1 2 ir.NG_AddOp 0 1)%positive
    as (s' & f & Hrun & Hmod & _ & _ & _ & Hblocks & _); try reflexivity.
  - assert (Hl : m_ip_tensors (build_tensors_list Demo.G Demo.add_unit) =
                 [11; 12]%positive) by (by vm_compute).
    rewrite Hl. simpl. rewrite !not_elem_of_cons. repeat split; try discriminate.
    apply not_elem_of_nil.
  - intros t Ht. unfold unsupported_element_types. simpl.
    rewrite !not_elem_of_cons. repeat split; try discriminate. apply not_elem_of_nil.
  - by exists s', f.
Defined.

(** ** [build_module] and what may follow it *)

Lemma mapM_values_state (tensors : list Tensor) s values s' :
  MLIRCompiler.mapM
    (λ tensor, MLIRCompiler.bind (get_tensor_value tensor)
                 (λ i, MLIRCompiler.ret (m_value i))) tensors s = Ok values s' →
  s' = s.
Proof.
  revert values s'. induction tensors as [|t r IH]; intros values s'; simpl.
  - unfold_M. intros Hok. by inversion Hok.
  - unfold MLIRCompiler.bind at 1. unfold MLIRCompiler.bind at 1.
    rewrite get_tensor_value_eq.
    destruct (m_tensor_to_value_map s !! t); [|done].
    unfold MLIRCompiler.ret at 1. unfold MLIRCompiler.bind at 1.
    destruct (MLIRCompiler.mapM _ r s) as [vs s2|?|?|?] eqn:Hr; [|done..].
    rewrite (IH _ _ eq_refl). unfold MLIRCompiler.ret. intros Hok. by inversion Hok.
Qed.

Lemma create_return_ok_inv s s' :
  create_return s = Ok () s' →
  ∃ f values, m_builder s = Some f ∧
              s' = set_builder (Some (ir.create (ir.NG_ReturnOp values) f).1) s.
Proof.
  intros H. unfold create_return in H.
  step_ok H s0 s0' H0. apply get_Ok_inv in H0 as [-> ->].
  step_ok H values s2 H2. apply mapM_values_state in H2 as ->.
  step_ok H v s3 H3. unfold MLIRCompiler.ret in H. inversion H. subst s3.
  unfold builder_create in H3. destruct (m_builder s) as [f|]; [|done].
  exists f, values. split; [done|].
  destruct (ir.create (ir.NG_ReturnOp values) f) eqn:Hc. by inversion H3.
Qed.

Lemma build_module_ok_inv G s s1 :
  build_module G s = Ok () s1 →
  let sB := build_tensors_list G (set_module (Some []) s) in
  let mC := populate_value_map 0 (m_ip_tensors sB) (m_tensor_to_value_map sB) in
  ∃ np BinOp tin tout arg0 arg1 lhs rhs f v,
    m_sub_graph s = [np] ∧ binary_operation (TI G np) = Some BinOp ∧
    (TI G np = TI_MatmulBias → length (get_arguments G np) = 2) ∧
    m_ip_tensors sB ≠ [] ∧ m_op_tensors sB ≠ [] ∧
    MLIRCompiler.mapM (get_mlir_type G) (m_ip_tensors sB) sB = Ok tin sB ∧
    MLIRCompiler.mapM (get_mlir_type G) (m_op_tensors sB) sB = Ok tout sB ∧
    get_arguments G np !! 0 = Some arg0 ∧ get_arguments G np !! 1 = Some arg1 ∧
    mC !! get_output_tensor_ptr G arg0 0 = Some lhs ∧
    mC !! get_output_tensor_ptr G arg1 0 = Some rhs ∧
    mC !! get_output_tensor_ptr G np 0 = None ∧
    m_tensor_to_value_map s1 =
      <[get_output_tensor_ptr G np 0 := {| m_value := v |}]> mC ∧
    m_ip_tensors s1 = m_ip_tensors sB ∧ m_op_tensors s1 = m_op_tensors sB ∧
    m_sub_graph s1 = m_sub_graph s ∧
    m_module s1 = Some [f] ∧ ir.getName f = "main" ∧
    ir.getArgumentTypes f = tin ∧ ir.getBlocks f ≠ [].
Proof.
  intros H sB mC. unfold build_module in H.
  step_ok H f0 sC Hfun.
  apply build_module_function_inv in Hfun
    as (tin & tout & Hip & Hop & Htin & Htout & -> & ->).
  fold sB in Hip, Hop, Htin, Htout |- *. fold mC in H.
  assert (HsubB : m_sub_graph sB = m_sub_graph s).
  { unfold sB. by rewrite build_tensors_list_fold. }
  assert (HmodB : m_module sB = Some []).
  { unfold sB. by rewrite build_tensors_list_fold. }
  unfold build_module_body in H.
  step_ok H u1 sD H1. apply modify_Ok_inv in H1 as ->.
  step_ok H u2 sG Hng. apply modify_Ok_inv in H. destruct u2.
  pose proof Hng as Hinv.
  apply build_ng_dialect_ok_inv in Hinv as (np & BinOp & Hsub & Hbin & Hbias).
  simpl in Hsub. fold sB in Hsub, Hng. fold mC in Hng.
  match type of Hng with
  | build_ng_dialect _ ?st = _ =>
      rewrite (build_ng_dialect_binary G st np BinOp Hsub Hbin Hbias) in Hng
  end.
  step_ok Hng u3 sF Hstep. step_ok Hstep v sE Hcreate. destruct u3.
  rewrite create_binary_op_eq in Hcreate. simpl in Hcreate.
  destruct (get_arguments G np !! 0) as [arg0|] eqn:H0; [|done].
  destruct (get_arguments G np !! 1) as [arg1|] eqn:H1; [|done].
  destruct (mC !! get_output_tensor_ptr G arg0 0) as [lhs|] eqn:Hl; [|done].
  destruct (mC !! get_output_tensor_ptr G arg1 0) as [rhs|] eqn:Hr; [|done].
  inversion Hcreate. subst v sE. clear Hcreate.
  rewrite update_tensor_value_eq in Hstep. simpl in Hstep.
  destruct (mC !! get_output_tensor_ptr G np 0) eqn:Hout; [done|].
  inversion Hstep. subst sF. clear Hstep.
  apply create_return_ok_inv in Hng as (f & values & Hb & ->).
  simpl in Hb. injection Hb as <-. simpl in H. rewrite HmodB in H. subst s1. simpl.
  eexists np, BinOp, tin, tout, arg0, arg1, lhs, rhs, _, _.
  rewrite <- HsubB. repeat (split; [done|]). done.
Qed.

Lemma allocate_memref_args_loop_none types args s :
  Forall (λ ty, ir.dyn_cast_MemRefType ty = None) types →
  allocate_memref_args_loop types args s = Ok args s.
Proof.
  induction 1 as [|t r Ht _ IH]; [done|].
  simpl. unfold MLIRCompiler.bind at 1. unfold allocate_memref_descriptor.
  rewrite Ht. by unfold MLIRCompiler.ret at 1.
Qed.

(** X18. [bind_arguments] right after [build_module], the dialect not yet
    lowered, fails with "Arguments can't be created": the parameters of
    [main] are tensor types, none of them a memref, so no descriptor is
    allocated, and the compiler is left as it was. *)
Theorem bind_arguments_needs_the_lowering (G : Graph) (s s1 : State) :
  build_module G s = Ok () s1 →
  bind_arguments s1 = Fatal "Arguments can't be created" s1.
Proof.
  intros Hbuild. apply build_module_ok_inv in Hbuild
    as (np & BinOp & tin & tout & arg0 & arg1 & lhs & rhs & f & v & _ & _ & _
        & _ & _ & Htin & _ & _ & _ & _ & _ & _ & _ & _ & _ & _ & Hmod & Hname
        & Htypes & Hblocks).
  apply mapM_get_mlir_type_tensors in Htin.
  unfold bind_arguments. unfold MLIRCompiler.bind at 1. simpl.
  unfold MLIRCompiler.bind at 1. unfold NGRAPH_ASSERT at 1.
  rewrite Hmod. simpl. unfold ir.getNamedFunction. simpl.
  rewrite decide_True by done. simpl.
  unfold MLIRCompiler.bind at 1. unfold NGRAPH_ASSERT at 1.
  rewrite bool_decide_true by done.
  unfold MLIRCompiler.bind at 1. unfold allocate_memref_args.
  rewrite Htypes, allocate_memref_args_loop_none by done.
  by unfold MLIRCompiler.bind at 1.
Qed.

Lemma bind_arguments_needs_the_lowering_witness :
  ∃ s1, build_module Demo.G Demo.add_unit = Ok () s1 ∧
        bind_arguments s1 = Fatal "Arguments can't be created" s1.
Proof.
  assert (Hrun : ∃ s1, build_module Demo.G Demo.add_unit = Ok () s1)
    by (eexists; vm_compute; reflexivity).
  destruct Hrun as [s1 Hrun]. exists s1. split; [done|].
  by apply (bind_arguments_needs_the_lowering Demo.G Demo.add_unit).
Defined.

(** ** Failures of [bind_arguments] and [execute] *)

Lemma allocate_memref_args_loop_app pre rest args s :
  allocate_memref_args_loop (pre ++ rest) args s =
  MLIRCompiler.bind (allocate_memref_args_loop pre args)
    (λ args', allocate_memref_args_loop rest args') s.
Proof.
  revert args s. induction pre as [|t r IH]; intros args s; [reflexivity|].
  simpl. unfold MLIRCompiler.bind in *.
  destruct (allocate_memref_descriptor t s) as [[d|] s1|?|?|?];
    [apply IH|apply IH|reflexivity..].
Qed.

(** X19. When a parameter of [main] is a memref with a dynamic dimension,
    [bind_arguments] fails; the descriptors it has allocated for the
    memref parameters before that one stay allocated, and the list of
    invocation arguments, from which [cleanup] frees, is as it was. *)
Theorem dynamic_memref_leaves_descriptors (s : State) (func : ir.Function)
    (pre post : list ir.Type_) (elt : mlir.ScalarType) (shape : list Z) :
  m_module s ≫= ir.getNamedFunction "main" = Some func →
  ir.getBlocks func ≠ [] →
  ir.getArgumentTypes func = pre ++ ir.MemRefType elt shape :: post →
  Forall static_type pre →
  ir.getNumDynamicDims shape ≠ 0 →
  ∃ msg s' leaked,
    bind_arguments s = Fatal msg s' ∧
    m_invoke_args s' = m_invoke_args s ∧
    length leaked = length (filter (λ t, is_Some (ir.dyn_cast_MemRefType t)) pre) ∧
    NoDup leaked ∧
    ∀ d, d ∈ leaked →
         heap s !! d = None ∧ heap s' !! d = Some (StaticFloatMemRef None).
Proof.
  intros Hfunc Hblocks Htypes Hstatic Hdyn.
  destruct (allocate_memref_args_loop_total pre [] s Hstatic) as (leaked & s1 & Hpre).
  pose proof Hpre as Hok.
  apply allocate_memref_args_loop_ok in Hok as (new & Hnew & Hs1 & Hnd & Hlen & Hlive & _).
  simpl in Hnew. subst new.
  exists "NGRAPH_FAIL", s1, leaked.
  split; [|split; [by rewrite Hs1|split; [done|split; [done|]]]].
  2:{ intros d Hd. by apply Hlive. }
  unfold bind_arguments. unfold MLIRCompiler.bind at 1. simpl.
  unfold MLIRCompiler.bind at 1. unfold NGRAPH_ASSERT at 1.
  rewrite bool_decide_true by (by destruct (m_module s)).
  rewrite Hfunc.
  unfold MLIRCompiler.bind at 1. unfold NGRAPH_ASSERT at 1.
  rewrite bool_decide_true by done.
  unfold MLIRCompiler.bind at 1. unfold allocate_memref_args.
  rewrite Htypes, allocate_memref_args_loop_app.
  unfold MLIRCompiler.bind at 1. rewrite Hpre. simpl.
  unfold MLIRCompiler.bind at 1. unfold allocate_memref_descriptor. simpl.
  unfold MLIRCompiler.bind at 1. unfold NGRAPH_ASSERT at 1.
  by rewrite bool_decide_false.
Qed.

Lemma dynamic_memref_leaves_descriptors_witness :
  ∃ msg s' d,
    bind_arguments (set_module (Some [Demo.dynamic_main]) Demo.add_unit) =
      Fatal msg s' ∧
    m_invoke_args s' = [] ∧
    heap s' !! d = Some (StaticFloatMemRef None).
Proof.
  destruct (dynamic_memref_leaves_descriptors
              (set_module (Some [Demo.dynamic_main]) Demo.add_unit)
              Demo.dynamic_main
              [ir.MemRefType mlir.F32 [2; 3]%Z] [] mlir.F32 [-1; 3]%Z)
    as (msg & s' & leaked & Hfail & Hargs & Hlen & _ & Hlive).
  - reflexivity.
  - done.
  - reflexivity.
  - repeat constructor.
  - done.
  - destruct leaked as [|d leaked]; [done|].
    exists msg, s', d. split; [done|]. split; [done|].
    apply Hlive. by left.
Defined.

(** X20. [execute] invokes the compiled code at most once.  Without a
    module, or when the conversion to the LLVM dialect or the construction
    of the engine fails, it fails with the message of that step, invokes
    nothing and allocates nothing.  Otherwise it invokes [main] once, the
    memory manager then holds the temporaries the compiled code asked for,
    and the call succeeds exactly when the invocation reports no error. *)
Theorem execute_invokes_at_most_once (B : Backend) (s : State) :
  (m_module s = None →
   execute B s = Fatal "MLIR module is not ready." s) ∧
  (∀ m, m_module s = Some m →
     let converted := convert_std_to_llvm B m in
     let s1 := set_module (Some converted.1) s in
     (converted.2 = false →
      execute B s = Fatal "second conversion failed" s1) ∧
     (converted.2 = true → create_engine B converted.1 = false →
      execute B s = Fatal "failed to construct an execution engine" s1) ∧
     (converted.2 = true → create_engine B converted.1 = true →
      let invoked := invoke_main B converted.1 (m_invoke_args s) in
      let o := execute B s in
      jit_invocations (final_state o) = S (jit_invocations s) ∧
      m_engine (final_state o) = true ∧
      length (m_mem_mgr (final_state o)) = length (m_mem_mgr s) + invoked.1 ∧
      m_invoke_args (final_state o) = m_invoke_args s ∧
      (invoked.2 = false → o = Ok () (final_state o)) ∧
      (invoked.2 = true → ∃ msg, o = Fatal msg (final_state o)))).
Proof.
  rewrite execute_eq. split.
  - by intros ->.
  - intros m Hmod converted s1. subst converted s1. rewrite Hmod. cbv zeta.
    split; [by intros ->|]. split; [by intros -> ->|].
    intros -> ->.
    destruct (allocate_temporaries_run
                (invoke_main B (convert_std_to_llvm B m).1 (m_invoke_args s)).1
                (count_invocation
                   (set_engine true
                      (set_module (Some (convert_std_to_llvm B m).1) s))))
      as (s' & Hrun & Hlen & Hjit & Heng & Hargs & _).
    rewrite Hrun. simpl in *.
    destruct (invoke_main B _ _).2; simpl; repeat split; try done.
    intros _. by eexists.
Qed.

Lemma execute_invokes_at_most_once_witness :
  let s := Demo.lowered Demo.add_unit in
  (∃ s', execute (Demo.B false) s = Ok () s' ∧ jit_invocations s' = 1 ∧
         length (m_mem_mgr s') = 2) ∧
  (∃ msg s', execute (Demo.B true) s = Fatal msg s' ∧ jit_invocations s' = 1).
Proof.
  intros s.
  assert (Hmod : ∃ m, m_module s = Some m) by (eexists; vm_compute; reflexivity).
  destruct Hmod as [m Hmod]. split.
  - destruct (execute_invokes_at_most_once (Demo.B false) s) as [_ Hsome].
    destruct (Hsome m Hmod) as (_ & _ & Hrun).
    destruct Hrun as (Hjit & _ & Hlen & _ & Hok & _); [done..|].
    eexists. split; [by apply Hok|]. by rewrite Hjit, Hlen.
  - destruct (execute_invokes_at_most_once (Demo.B true) s) as [_ Hsome].
    destruct (Hsome m Hmod) as (_ & _ & Hrun).
    destruct Hrun as (Hjit & _ & _ & _ & _ & Hfail); [done..|].
    destruct Hfail as [msg Hfail]; [done|]. exists msg. eexists.
    split; [exact Hfail|]. by rewrite Hjit.
Defined.

Lemma getNamedFunction_Some name m func :
  ir.getNamedFunction name m = Some func → func ∈ m ∧ ir.getName func = name.
Proof.
  unfold ir.getNamedFunction. rewrite fmap_Some. intros ([i f] & Hfind & ->).
  apply list_find_Some in Hfind as (Hi & Hname & _). simpl.
  split; [by apply list_elem_of_lookup_2 in Hi|done].
Qed.

Lemma getNamedFunction_None name m :
  ir.getNamedFunction name m = None ↔ ∀ f, f ∈ m → ir.getName f ≠ name.
Proof.
  unfold ir.getNamedFunction. rewrite fmap_None, list_find_None, Forall_forall.
  done.
Qed.

(** X21. [bind_arguments] fails before it allocates anything, leaving the
    compiler as it was, when there is no module ("MLIR module is not
    ready."), when the module has no function named [main], and when [main]
    has no block ("Function not found"); the function it binds otherwise
    is a function of the module whose name is [main]. *)
Theorem bind_arguments_guards (s : State) :
  (m_module s = None →
   bind_arguments s = Fatal "MLIR module is not ready." s) ∧
  (∀ m, m_module s = Some m →
        (∀ f, f ∈ m → ir.getName f ≠ "main") →
        bind_arguments s = Fatal "Function not found" s) ∧
  (∀ m func, m_module s = Some m →
             ir.getNamedFunction "main" m = Some func →
             ir.getBlocks func = [] →
             bind_arguments s = Fatal "Function not found" s) ∧
  (∀ s', bind_arguments s = Ok () s' →
         ∃ m func, m_module s = Some m ∧ func ∈ m ∧ ir.getName func = "main" ∧
                   ir.getBlocks func ≠ []).
Proof.
  split; [|split; [|split]].
  - intros Hmod. unfold bind_arguments. unfold_M. by rewrite Hmod.
  - intros m Hmod Hnone. apply getNamedFunction_None in Hnone.
    unfold bind_arguments. unfold MLIRCompiler.bind at 1. simpl.
    unfold MLIRCompiler.bind at 1. unfold NGRAPH_ASSERT at 1.
    rewrite Hmod. simpl. by rewrite Hnone.
  - intros m func Hmod Hfunc Hblocks.
    unfold bind_arguments. unfold MLIRCompiler.bind at 1. simpl.
    unfold MLIRCompiler.bind at 1. unfold NGRAPH_ASSERT at 1.
    rewrite Hmod. simpl. rewrite Hfunc.
    unfold MLIRCompiler.bind at 1. unfold NGRAPH_ASSERT at 1.
    by rewrite bool_decide_false by (by rewrite Hblocks; intros []).
  - intros s' Hok. apply bind_arguments_ok in Hok
      as (func & descs & slot & Hfunc & Hblocks & _).
    destruct (m_module s) as [m|]; [|done]. simpl in Hfunc.
    apply getNamedFunction_Some in Hfunc as [Hin Hname].
    by exists m, func.
Qed.

Lemma bind_arguments_guards_witness :
  bind_arguments Demo.add_unit = Fatal "MLIR module is not ready." Demo.add_unit ∧
  bind_arguments (set_module (Some []) Demo.add_unit) =
    Fatal "Function not found" (set_module (Some []) Demo.add_unit).
Proof.
  split.
  - by apply (proj1 (bind_arguments_guards Demo.add_unit)).
  - apply (proj1 (proj2 (bind_arguments_guards (set_module (Some []) Demo.add_unit)))
             [] eq_refl).
    by intros f Hf%elem_of_nil.
Defined.
